(** * Petro-IP: initial-production metrics of oil and gas wells

    A shallow embedding of [wellip.py] (the per-well calculation and the
    conversion of its result to a dictionary) and of the request handler of
    [main.py], together with the properties of the specification that were
    checked against them.

    Numbers are IEEE-754 binary64 values, as in Python, numpy and pandas:
    Rocq's primitive [float] with its round-to-nearest-even operations.  A
    missing value is the float [nan].

    The calls into pandas, numpy and scipy are modelled by what these
    libraries compute: [Series.cumsum] (with [skipna=True]), [iloc],
    element-wise arithmetic and comparison, boolean-mask selection,
    [interp1d] with [bounds_error=False] (a stable sort of the sample points,
    [numpy.interp] with its guessed binary search, NaN outside the sampled
    range), Python's [round(x, 1)] and the JSON encoding of a returned
    dictionary by the web framework.  The conversion of numpy scalars to
    built-in numbers in [WellIP.__setattr__] does not change a value and has
    no counterpart here. *)

From Stdlib Require Import ZArith List Bool Lia Floats String Ascii.
From stdpp Require Import gmap strings fin_maps.
Import ListNotations.

Set Warnings "-inexact-float".
Local Open Scope float_scope.

(** ** Python values *)

(** A Python [str] is a sequence of Unicode code points; [len] counts them. *)
Definition str := list N.

Definition pystr (s : string) : str :=
  List.map N_of_ascii (list_ascii_of_string s).

(** Exceptions that the modelled code can raise, and computations that may
    raise them. *)
Inductive exn := IndexError | KeyError | ValueError.

Inductive result (A : Type) : Type :=
| Ok (a : A)
| Raise (e : exn).
Arguments Ok {A} a.
Arguments Raise {A} e.

#[global] Instance result_ret : MRet result := fun A a => Ok a.

#[global] Instance result_bind : MBind result := fun A B k r =>
  match r with
  | Ok a => k a
  | Raise e => Raise e
  end.

(** ** Floats *)

Module F.

(** [x != x], the test for the missing-value marker. *)
Definition isnan (x : float) : bool := negb (x =? x).

(** numpy's order for sorting floats: the usual [<], with every NaN after
    every number. *)
Definition sort_lt (a b : float) : bool :=
  (a <? b) || (isnan b && negb (isnan a)).

End F.

(** ** pandas: series and frames *)

Module pd.

(** [s.iloc[0]] and [s.iloc[-1]]. *)
Definition iloc_first {A} (s : list A) : result A :=
  match s with
  | [] => Raise IndexError
  | a :: _ => Ok a
  end.

Fixpoint iloc_last {A} (s : list A) : result A :=
  match s with
  | [] => Raise IndexError
  | [a] => Ok a
  | _ :: s' => iloc_last s'
  end.

(** [numpy.cumsum]: the running sum, from the first element on. *)
Fixpoint running (acc : float) (s : list float) : list float :=
  match s with
  | [] => []
  | v :: s' => (acc + v) :: running (acc + v) s'
  end.

Definition np_cumsum (s : list float) : list float :=
  match s with
  | [] => []
  | v :: s' => v :: running v s'
  end.

(** [Series.cumsum()] with its default [skipna=True]: missing values are
    replaced by 0 for the summation and put back as missing afterwards. *)
Definition cumsum (s : list float) : list float :=
  let mask := List.map F.isnan s in
  let vals := List.map (fun v => if F.isnan v then 0 else v) s in
  let res := np_cumsum vals in
  List.map (fun '(m, r) => if (m : bool) then nan else r) (combine mask res).

(** Element-wise operations of series on a common index. *)
Definition map2 {A B C} (f : A -> B -> C) (s : list A) (t : list B) : list C :=
  List.map (fun '(a, b) => f a b) (combine s t).

Definition add (s t : list float) : list float := map2 PrimFloat.add s t.
Definition mul_scalar (s : list float) (c : float) : list float :=
  List.map (fun v => v * c) s.
Definition le_scalar (s : list float) (c : float) : list bool :=
  List.map (fun v => v <=? c) s.
Definition eq_scalar (s : list float) (c : float) : list bool :=
  List.map (fun v => v =? c) s.
Definition gt_scalar (s : list float) (c : float) : list bool :=
  List.map (fun v => c <? v) s.
Definition and_ (s t : list bool) : list bool := map2 andb s t.

(** Selection by a boolean mask. *)
Fixpoint select {A} (s : list A) (mask : list bool) : list A :=
  match s, mask with
  | a :: s', b :: mask' =>
      if b then a :: select s' mask' else select s' mask'
  | _, _ => []
  end.

End pd.

(** One row of the production table, with the columns that [getdata.py]
    reads: identity, reporting period, monthly volumes, producing days and
    reported cumulative volumes. *)
Record MonthlyRecord := mkMonthlyRecord {
  Wa_num : str;
  Prod_period : Z;
  UWI : str;
  Gas_prod_vol : float;    (* "Gas_prod_vol (e3m3)" *)
  Oil_prod_vol : float;    (* "Oil_prod_vol (m3)" *)
  Water_prod_vol : float;  (* "Water_prod_vol (m3)" *)
  Cond_prod_vol : float;   (* "Cond_prod_vol (m3)" *)
  Prod_days : float;       (* "Prod_days " *)
  Gas_prod_cum : float;    (* "Gas_prod_cum (e3m3)" *)
  Oil_prod_cum : float;    (* "Oil_prod_cum (m3)" *)
  Water_prod_cum : float;  (* "Water_prod_cum (m3)" *)
  Cond_prod_cum : float    (* "Cond_prod_cum (m3)" *)
}.

(** The frame of one well: its rows, and the two columns that
    [calculate_well_ip] writes into it ("Prod_days_cum" and
    "Total_prod_vol (m3)"), absent until they are assigned. *)
Record DataFrame := mkDataFrame {
  rows : list MonthlyRecord;
  Prod_days_cum : option (list float);
  Total_prod_vol : option (list float)
}.

Definition col {A} (c : MonthlyRecord -> A) (df : DataFrame) : list A :=
  List.map c (rows df).

Definition len (df : DataFrame) : nat := List.length (rows df).

(** [df["Prod_days_cum"]] and [df["Total_prod_vol (m3)"]]: reading a column
    that is not there raises [KeyError]. *)
Definition get_Prod_days_cum (df : DataFrame) : result (list float) :=
  match Prod_days_cum df with
  | Some s => Ok s
  | None => Raise KeyError
  end.

Definition get_Total_prod_vol (df : DataFrame) : result (list float) :=
  match Total_prod_vol df with
  | Some s => Ok s
  | None => Raise KeyError
  end.

(** [df[c] = s]: the column is added to the frame, or replaced. *)
Definition set_Prod_days_cum (df : DataFrame) (s : list float) : DataFrame :=
  {| rows := rows df; Prod_days_cum := Some s;
     Total_prod_vol := Total_prod_vol df |}.

Definition set_Total_prod_vol (df : DataFrame) (s : list float) : DataFrame :=
  {| rows := rows df; Prod_days_cum := Prod_days_cum df;
     Total_prod_vol := Some s |}.

(** [df[mask]]: the rows where the mask holds, in every column. *)
Definition select_rows (df : DataFrame) (mask : list bool) : DataFrame :=
  {| rows := pd.select (rows df) mask;
     Prod_days_cum := option_map (fun s => pd.select s mask) (Prod_days_cum df);
     Total_prod_vol := option_map (fun s => pd.select s mask) (Total_prod_vol df) |}.

Definition empty (df : DataFrame) : bool :=
  match rows df with
  | [] => true
  | _ :: _ => false
  end.

(** ** numpy and scipy: linear interpolation *)

(** Arrays of four values: the milestones [(30, 90, 180, 365)] and what is
    computed at them. *)
Record arr4 := mkArr4 { at0 : float; at1 : float; at2 : float; at3 : float }.

Definition arr4_div (a b : arr4) : arr4 :=
  mkArr4 (at0 a / at0 b) (at1 a / at1 b) (at2 a / at2 b) (at3 a / at3 b).

Module np.

(** The value of [numpy.interp] between two adjacent sample points, every
    operation rounded on its own.  When the first formula gives NaN the
    other direction is tried. *)
Definition lerp (x0 y0 x1 y1 x : float) : float :=
  let slope := (y1 - y0) / (x1 - x0) in
  let r := slope * (x - x0) + y0 in
  if F.isnan r then
    let r' := slope * (x - x1) + y1 in
    if F.isnan r' && (y0 =? y1) then y0 else r'
  else r.

(** [a[i]], for an index inside the array. *)
Definition item (a : list float) (i : Z) : float := List.nth (Z.to_nat i) a nan.

Definition LIKELY_IN_CACHE_SIZE : Z := 8.

(** The scan of short tables,
    [for (i = 1; i < len && key >= arr[i]; ++i); return i - 1;],
    over the elements from index [i] on. *)
Fixpoint linear_search (key : float) (tail : list float) (i : Z) : Z :=
  match tail with
  | [] => (i - 1)%Z
  | a :: tail' => if a <=? key then linear_search key tail' (i + 1) else (i - 1)%Z
  end.

(** The bisection loop,
    [while (imin < imax) { imid = imin + ((imax - imin) >> 1);
       if (key >= arr[imid]) imin = imid + 1; else imax = imid; }],
    which leaves [imin].  Each turn shortens the interval, so as many turns
    as the interval is long are enough. *)
Fixpoint bisect (fuel : nat) (key : float) (arr : list float) (imin imax : Z) : Z :=
  match fuel with
  | O => imin
  | S fuel' =>
      if (imin <? imax)%Z then
        let imid := (imin + Z.shiftr (imax - imin) 1)%Z in
        if item arr imid <=? key then bisect fuel' key arr (imid + 1) imax
        else bisect fuel' key arr imin imid
      else imin
  end.

(** [binary_search_with_guess(key, arr, len, guess)]: [len] above the last
    element, [-1] below the first; otherwise a scan on tables of at most 4
    elements and, on longer ones, a look at the elements around the guess
    followed by a bisection. *)
Definition binary_search_with_guess (key : float) (arr : list float) (guess : Z) : Z :=
  let len := Z.of_nat (List.length arr) in
  if item arr (len - 1) <? key then len
  else if key <? item arr 0 then (-1)%Z
  else if (len <=? 4)%Z then linear_search key (List.tl arr) 1
  else
    let guess := if (len - 3 <? guess)%Z then (len - 3)%Z else guess in
    let guess := if (guess <? 1)%Z then 1%Z else guess in
    if key <? item arr guess then
      if key <? item arr (guess - 1) then
        let imax := (guess - 1)%Z in
        let imin :=
          if (LIKELY_IN_CACHE_SIZE <? guess)%Z
             && (item arr (guess - LIKELY_IN_CACHE_SIZE) <=? key)
          then (guess - LIKELY_IN_CACHE_SIZE)%Z else 0%Z in
        (bisect (List.length arr) key arr imin imax - 1)%Z
      else (guess - 1)%Z
    else if key <? item arr (guess + 1) then guess
    else if key <? item arr (guess + 2) then (guess + 1)%Z
    else
      let imin := (guess + 2)%Z in
      let imax :=
        if (guess <? len - LIKELY_IN_CACHE_SIZE - 1)%Z
           && (key <? item arr (guess + LIKELY_IN_CACHE_SIZE))
        then (guess + LIKELY_IN_CACHE_SIZE)%Z else len in
      (bisect (List.length arr) key arr imin imax - 1)%Z.

(** What the loop of [numpy.interp] stores for the interval [j] that the
    search has found. *)
Definition value_at (xp fp : list float) (j : Z) (x_val : float) : float :=
  let lenxp := Z.of_nat (List.length xp) in
  if (j =? -1)%Z then item fp 0
  else if (j =? lenxp)%Z then item fp (lenxp - 1)
  else if (j =? lenxp - 1)%Z then item fp j
  else if item xp j =? x_val then item fp j
  else lerp (item xp j) (item fp j) (item xp (j + 1)) (item fp (j + 1)) x_val.

(** The loop over the points of evaluation: the interval found for one
    point is the guess for the next. *)
Fixpoint interp_loop (xp fp : list float) (j : Z) (x : list float) : list float :=
  match x with
  | [] => []
  | x_val :: x' =>
      if F.isnan x_val then x_val :: interp_loop xp fp j x'
      else
        let j := binary_search_with_guess x_val xp j in
        value_at xp fp j x_val :: interp_loop xp fp j x'
  end.

(** [numpy.interp(x, xp, fp)] with its default [left] and [right]. *)
Definition interp (x xp fp : list float) : result (list float) :=
  match xp with
  | [] => Raise ValueError
  | xp_val :: xp' =>
      if negb (Nat.eqb (List.length xp) (List.length fp)) then Raise ValueError
      else
        match xp' with
        | [] =>
            let fp_val := item fp 0 in
            Ok (List.map (fun x_val => if x_val <? xp_val then fp_val
                                       else if xp_val <? x_val then fp_val
                                       else fp_val) x)
        | _ :: _ => Ok (interp_loop xp fp 0 x)
        end
  end.

End np.

Module interpolate.

(** Stable sorting of the sample points by abscissa, as
    [numpy.argsort(x, kind="mergesort")] orders them. *)
Fixpoint insert (k : float * float) (l : list (float * float))
  : list (float * float) :=
  match l with
  | [] => [k]
  | h :: t => if F.sort_lt (fst h) (fst k) then h :: insert k t else k :: h :: t
  end.

Fixpoint sort (l : list (float * float)) : list (float * float) :=
  match l with
  | [] => []
  | k :: l' => insert k (sort l')
  end.

(** The interpolant: its sorted sample points. *)
Record interp1d := mkInterp1d { x : list float; y : list float }.

(** [interp1d(x, y, bounds_error=False)]: linear, [assume_sorted=False],
    [fill_value] NaN. *)
Definition make (xs ys : list float) : result interp1d :=
  if negb (Nat.eqb (List.length xs) (List.length ys)) then Raise ValueError
  else
    let knots := sort (combine xs ys) in
    if Nat.ltb (List.length knots) 1 then Raise ValueError
    else Ok (mkInterp1d (List.map fst knots) (List.map snd knots)).

(** Evaluation at the four milestones: [numpy.interp], then NaN wherever
    a point is below the first or above the last sample point. *)
Definition fill (x_first x_last x_new y_new : float) : float :=
  let below_bounds := x_new <? x_first in
  let above_bounds := x_last <? x_new in
  if above_bounds then nan else if below_bounds then nan else y_new.

Definition call4 (f : interp1d) (x_new : arr4) : result arr4 :=
  y_new ← np.interp [at0 x_new; at1 x_new; at2 x_new; at3 x_new] (x f) (y f);
  x_first ← pd.iloc_first (x f);
  x_last ← pd.iloc_last (x f);
  match y_new with
  | [y0; y1; y2; y3] =>
      Ok (mkArr4 (fill x_first x_last (at0 x_new) y0)
                 (fill x_first x_last (at1 x_new) y1)
                 (fill x_first x_last (at2 x_new) y2)
                 (fill x_first x_last (at3 x_new) y3))
  | _ => Raise ValueError
  end.

End interpolate.

(** ** wellip.py *)

(** The initial-production record of a well.  The sixteen IP fields default
    to NaN. *)
Record WellIP := mkWellIP {
  wa : str;
  uwi : str;
  first_prod_month : Z;
  last_prod_month : Z;
  cum_prod_gas_e6m3 : float;
  cum_prod_oil_e3m3 : float;
  cum_prod_cond_e3m3 : float;
  cum_prod_water_e3m3 : float;
  cum_prod_days : float;
  gas_ip_30_e3m3d : float;
  oil_ip_30_m3d : float;
  cond_ip_30_m3d : float;
  water_ip_30_m3d : float;
  gas_ip_90_e3m3d : float;
  oil_ip_90_m3d : float;
  cond_ip_90_m3d : float;
  water_ip_90_m3d : float;
  gas_ip_180_e3m3d : float;
  oil_ip_180_m3d : float;
  cond_ip_180_m3d : float;
  water_ip_180_m3d : float;
  gas_ip_365_e3m3d : float;
  oil_ip_365_m3d : float;
  cond_ip_365_m3d : float;
  water_ip_365_m3d : float
}.

(** The record as its constructor call in [calculate_well_ip] leaves it. *)
Definition new_WellIP (wa uwi : str) (first_prod_month last_prod_month : Z)
    (gas oil cond water days : float) : WellIP :=
  mkWellIP wa uwi first_prod_month last_prod_month gas oil cond water days
    nan nan nan nan nan nan nan nan nan nan nan nan nan nan nan nan.

(** The sixteen assignments at the end of [calculate_well_ip]. *)
Definition set_ips (w : WellIP) (gas_ip oil_ip cond_ip water_ip : arr4) : WellIP :=
  mkWellIP (wa w) (uwi w) (first_prod_month w) (last_prod_month w)
    (cum_prod_gas_e6m3 w) (cum_prod_oil_e3m3 w) (cum_prod_cond_e3m3 w)
    (cum_prod_water_e3m3 w) (cum_prod_days w)
    (at0 gas_ip) (at0 oil_ip) (at0 cond_ip) (at0 water_ip)
    (at1 gas_ip) (at1 oil_ip) (at1 cond_ip) (at1 water_ip)
    (at2 gas_ip) (at2 oil_ip) (at2 cond_ip) (at2 water_ip)
    (at3 gas_ip) (at3 oil_ip) (at3 cond_ip) (at3 water_ip).

Definition days_arr : arr4 := mkArr4 30 90 180 365.

(** The first two statements: the derived columns are written into the
    frame that the caller passed. *)
Definition prepare (df_one_well : DataFrame) : DataFrame :=
  let df := set_Prod_days_cum df_one_well (pd.cumsum (col Prod_days df_one_well)) in
  set_Total_prod_vol df
    (pd.add (pd.add (pd.add (pd.mul_scalar (col Gas_prod_vol df) 1000)
                            (col Oil_prod_vol df))
                    (col Water_prod_vol df))
            (col Cond_prod_vol df)).

(** The condition of the [if]: at least two months and, evaluated only
    then, no month up to 365 cumulative producing days with volume but no
    producing days. *)
Definition eligible (df : DataFrame) : result bool :=
  if Nat.leb 2 (len df) then
    days_cum ← get_Prod_days_cum df;
    total ← get_Total_prod_vol df;
    Ok (empty (select_rows df
                 (pd.and_ (pd.and_ (pd.le_scalar days_cum 365)
                                   (pd.eq_scalar (col Prod_days df) 0))
                          (pd.gt_scalar total 0))))
  else Ok false.

(** The body of the [if]: four interpolants over the cumulative producing
    days, evaluated at the milestones and divided by them. *)
Definition interpolate_ips (df : DataFrame) (well_ip : WellIP) : result WellIP :=
  days_cum ← get_Prod_days_cum df;
  interp_func_gas ← interpolate.make days_cum (col Gas_prod_cum df);
  interp_func_oil ← interpolate.make days_cum (col Oil_prod_cum df);
  interp_func_cond ← interpolate.make days_cum (col Cond_prod_cum df);
  interp_func_water ← interpolate.make days_cum (col Water_prod_cum df);
  gas ← interpolate.call4 interp_func_gas days_arr;
  oil ← interpolate.call4 interp_func_oil days_arr;
  cond ← interpolate.call4 interp_func_cond days_arr;
  water ← interpolate.call4 interp_func_water days_arr;
  Ok (set_ips well_ip (arr4_div gas days_arr) (arr4_div oil days_arr)
        (arr4_div cond days_arr) (arr4_div water days_arr)).

(** The rest of [calculate_well_ip], on the frame with its derived columns. *)
Definition well_ip_of (df : DataFrame) : result WellIP :=
  wa ← pd.iloc_first (col Wa_num df);
  uwi ← pd.iloc_first (col UWI df);
  first_prod_month ← pd.iloc_first (col Prod_period df);
  last_prod_month ← pd.iloc_last (col Prod_period df);
  gas_cum ← pd.iloc_last (col Gas_prod_cum df);
  oil_cum ← pd.iloc_last (col Oil_prod_cum df);
  cond_cum ← pd.iloc_last (col Cond_prod_cum df);
  water_cum ← pd.iloc_last (col Water_prod_cum df);
  days_cum ← get_Prod_days_cum df;
  cum_prod_days ← pd.iloc_last days_cum;
  let well_ip :=
    new_WellIP wa uwi first_prod_month last_prod_month
      (gas_cum / 1000) (oil_cum / 1000) (cond_cum / 1000) (water_cum / 1000)
      cum_prod_days in
  ok ← eligible df;
  if ok : bool then interpolate_ips df well_ip else Ok well_ip.

(** [calculate_well_ip(df_one_well)]: the frame as the call leaves it, and
    the value returned or the exception raised. *)
Definition calculate_well_ip (df_one_well : DataFrame) : DataFrame * result WellIP :=
  let df := prepare df_one_well in
  (df, well_ip_of df).

(** ** Python's [round(value, 1)] *)

Module py.

(** [n / d] rounded to the nearest integer, ties to even ([0 <= n], [0 < d]). *)
Definition div_half_even (n d : Z) : Z :=
  let q := (n / d)%Z in
  match (2 * (n mod d) ?= d)%Z with
  | Lt => q
  | Gt => (q + 1)%Z
  | Eq => if Z.even q then q else (q + 1)%Z
  end.

(** [round(x, 1)] on a float: NaN and the infinities round to themselves;
    a finite [x] is rounded, from its exact value and ties to even, to a
    decimal with one digit after the point, and that decimal is converted
    to the nearest float.  The sign is kept. *)
Definition round1 (x : float) : float :=
  match Prim2SF x with
  | S754_finite s m e =>
      if (0 <=? e)%Z then x
      else
        match div_half_even (10 * Zpos m) (2 ^ (- e)) with
        | Zpos tenths =>
            SF2Prim (SFdiv prec emax (S754_finite s tenths 0)
                                     (S754_finite false 10 0))
        | _ => if s then PrimFloat.neg_zero else PrimFloat.zero
        end
  | _ => x
  end.

End py.

(** ** wellip_to_dict *)

(** The values of the dictionary: strings, integers, floats, and [None]. *)
Inductive value :=
| VStr (s : str)
| VInt (n : Z)
| VFloat (f : float)
| VNone.

Definition BBL_M3 : float := 6.29.
Definition MCF_E3M3 : float := 35.315.

(** The loop at the end of [wellip_to_dict]: every float is rounded. *)
Definition round_value (v : value) : value :=
  match v with
  | VFloat f => VFloat (py.round1 f)
  | _ => v
  end.

Definition field_dict (well_ip : WellIP) : gmap string value :=
  <["WA" := VStr (wa well_ip)]> (
  <["UWI" := VStr (uwi well_ip)]> (
  <["First prod month" := VInt (first_prod_month well_ip)]> (
  <["Last prod month" := VInt (last_prod_month well_ip)]> (
  <["Cum prod gas (Bcf)" := VFloat (cum_prod_gas_e6m3 well_ip * MCF_E3M3 * 0.001)]> (
  <["Cum prod oil (Mbbl)" := VFloat (cum_prod_oil_e3m3 well_ip * BBL_M3)]> (
  <["Cum prod cond (Mbbl)" := VFloat (cum_prod_cond_e3m3 well_ip * BBL_M3)]> (
  <["Cum prod water (Mbbl)" := VFloat (cum_prod_water_e3m3 well_ip * BBL_M3)]> (
  <["Cum prod days" := VFloat (cum_prod_days well_ip)]> (
  <["Gas IP 30 (Mcf/d)" := VFloat (gas_ip_30_e3m3d well_ip * MCF_E3M3)]> (
  <["Oil IP 30 (bbl/d)" := VFloat (oil_ip_30_m3d well_ip * BBL_M3)]> (
  <["Cond IP 30 (bbl/d)" := VFloat (cond_ip_30_m3d well_ip * BBL_M3)]> (
  <["Water IP 30 (bbl/d)" := VFloat (water_ip_30_m3d well_ip * BBL_M3)]> (
  <["Gas IP 90 (Mcf/d)" := VFloat (gas_ip_90_e3m3d well_ip * MCF_E3M3)]> (
  <["Oil IP 90 (bbl/d)" := VFloat (oil_ip_90_m3d well_ip * BBL_M3)]> (
  <["Cond IP 90 (bbl/d)" := VFloat (cond_ip_90_m3d well_ip * BBL_M3)]> (
  <["Water IP 90 (bbl/d)" := VFloat (water_ip_90_m3d well_ip * BBL_M3)]> (
  <["Gas IP 180 (Mcf/d)" := VFloat (gas_ip_180_e3m3d well_ip * MCF_E3M3)]> (
  <["Oil IP 180 (bbl/d)" := VFloat (oil_ip_180_m3d well_ip * BBL_M3)]> (
  <["Cond IP 180 (bbl/d)" := VFloat (cond_ip_180_m3d well_ip * BBL_M3)]> (
  <["Water IP 180 (bbl/d)" := VFloat (water_ip_180_m3d well_ip * BBL_M3)]> (
  <["Gas IP 365 (Mcf/d)" := VFloat (gas_ip_365_e3m3d well_ip * MCF_E3M3)]> (
  <["Oil IP 365 (bbl/d)" := VFloat (oil_ip_365_m3d well_ip * BBL_M3)]> (
  <["Cond IP 365 (bbl/d)" := VFloat (cond_ip_365_m3d well_ip * BBL_M3)]> (
  <["Water IP 365 (bbl/d)" := VFloat (water_ip_365_m3d well_ip * BBL_M3)]> ∅
  )))))))))))))))))))))))).

Definition metric_dict (well_ip : WellIP) : gmap string value :=
  <["WA" := VStr (wa well_ip)]> (
  <["UWI" := VStr (uwi well_ip)]> (
  <["First prod month" := VInt (first_prod_month well_ip)]> (
  <["Last prod month" := VInt (last_prod_month well_ip)]> (
  <["Cum prod gas (E6m3)" := VFloat (cum_prod_gas_e6m3 well_ip)]> (
  <["Cum prod oil (E3m3)" := VFloat (cum_prod_oil_e3m3 well_ip)]> (
  <["Cum prod cond (E3m3)" := VFloat (cum_prod_cond_e3m3 well_ip)]> (
  <["Cum prod water (E3m3)" := VFloat (cum_prod_water_e3m3 well_ip)]> (
  <["Cum prod days" := VFloat (cum_prod_days well_ip)]> (
  <["Gas IP 30 (E3m3/d)" := VFloat (gas_ip_30_e3m3d well_ip)]> (
  <["Oil IP 30 (m3/d)" := VFloat (oil_ip_30_m3d well_ip)]> (
  <["Cond IP 30 (m3/d)" := VFloat (cond_ip_30_m3d well_ip)]> (
  <["Water IP 30 (m3/d)" := VFloat (water_ip_30_m3d well_ip)]> (
  <["Gas IP 90 (E3m3/d)" := VFloat (gas_ip_90_e3m3d well_ip)]> (
  <["Oil IP 90 (m3/d)" := VFloat (oil_ip_90_m3d well_ip)]> (
  <["Cond IP 90 (m3/d)" := VFloat (cond_ip_90_m3d well_ip)]> (
  <["Water IP 90 (m3/d)" := VFloat (water_ip_90_m3d well_ip)]> (
  <["Gas IP 180 (E3m3/d)" := VFloat (gas_ip_180_e3m3d well_ip)]> (
  <["Oil IP 180 (m3/d)" := VFloat (oil_ip_180_m3d well_ip)]> (
  <["Cond IP 180 (m3/d)" := VFloat (cond_ip_180_m3d well_ip)]> (
  <["Water IP 180 (m3/d)" := VFloat (water_ip_180_m3d well_ip)]> (
  <["Gas IP 365 (E3m3/d)" := VFloat (gas_ip_365_e3m3d well_ip)]> (
  <["Oil IP 365 (m3/d)" := VFloat (oil_ip_365_m3d well_ip)]> (
  <["Cond IP 365 (m3/d)" := VFloat (cond_ip_365_m3d well_ip)]> (
  <["Water IP 365 (m3/d)" := VFloat (water_ip_365_m3d well_ip)]> ∅
  )))))))))))))))))))))))).

(** [wellip_to_dict(well_ip, units)]: the "field" dictionary for
    [units == "field"], the metric one for every other value. *)
Definition wellip_to_dict (well_ip : WellIP) (units : str) : gmap string value :=
  let d := if decide (units = pystr "field") then field_dict well_ip
           else metric_dict well_ip in
  round_value <$> d.

(** ** main.py: the lookup endpoint *)

(** What a call of the handler [ip] ends with: the dictionary it returns
    or the [HTTPException] it raises. *)
Inductive response :=
| Returns (d : gmap string value)
| HTTPException (status_code : Z) (detail : string).

(** The framework encodes a returned dictionary with
    [json.dumps(..., allow_nan=False)], which refuses a float that is
    infinite or NaN with [ValueError]; the request is then answered with
    500.  An [HTTPException] is answered with its status code. *)
Definition json_compliant (v : value) : bool :=
  match v with
  | VFloat f => PrimFloat.is_finite f
  | _ => true
  end.

Definition encodable (d : gmap string value) : bool :=
  forallb (fun kv => json_compliant (snd kv)) (map_to_list d).

Definition status (r : response) : Z :=
  match r with
  | Returns d => if encodable d then 200 else 500
  | HTTPException status_code _ => status_code
  end.

(** [value != value], and the loop that replaces such values by [None]. *)
Definition ne_self (v : value) : bool :=
  match v with
  | VFloat f => negb (f =? f)
  | _ => false
  end.

Definition nan_to_none (v : value) : value :=
  if ne_self v then VNone else v.

Section Main.

(** Which code points Unicode classifies as numeric: the table behind
    [str.isnumeric], not part of the repository. *)
Variable isnumeric_char : N -> bool.

(** The mapping loaded when the process starts. *)
Variable all_wells_ip : gmap str WellIP.

Definition isnumeric (s : str) : bool :=
  match s with
  | [] => false
  | _ :: _ => forallb isnumeric_char s
  end.

(** [ip(wa, units)]. *)
Definition ip (wa units : str) : response :=
  if negb (Nat.eqb (List.length wa) 5) || negb (isnumeric wa) then
    HTTPException 400 "WA must be 0 padded, 5 character numeric string"
  else if negb (bool_decide (units ∈ [pystr "metric"; pystr "field"])) then
    HTTPException 400 "Units must be 'metric' or 'field'"
  else
    match all_wells_ip !! wa with
    | Some well_ip => Returns (nan_to_none <$> wellip_to_dict well_ip units)
    | None => HTTPException 404 "WA not found"
    end.

(** [GET /api/{wa}], where the query parameter [units] may be absent. *)
Definition get_api (wa : str) (units : option str) : response :=
  ip wa (default (pystr "metric") units).

End Main.

(** ** getdata.py: the refresh *)

Module getdata.

(** [Series.unique()]: the distinct values, in order of first appearance. *)
Fixpoint unique (l : list str) : list str :=
  match l with
  | [] => []
  | a :: l' => a :: List.filter (fun b => negb (bool_decide (b = a))) (unique l')
  end.

(** [df_all_wells[df_all_wells["Wa_num"] == wa].copy()]: a frame of its own
    with the rows of one well, in the order of the table, and the twelve
    columns that were read. *)
Definition well_frame (df_all_wells : list MonthlyRecord) (wa : str) : DataFrame :=
  mkDataFrame (List.filter (fun r => bool_decide (Wa_num r = wa)) df_all_wells)
              None None.

(** [df_all_wells["Prod_period"].max()]; on a table without rows pandas
    gives a missing value. *)
Definition most_recent_prod_period (df_all_wells : list MonthlyRecord) : option Z :=
  match List.map Prod_period df_all_wells with
  | [] => None
  | p :: ps => Some (fold_left Z.max ps p)
  end.

(** The dictionary comprehension: one calculation for each well
    identifier, its result stored under the identifier that the result
    carries; an exception of a calculation ends the comprehension. *)
Fixpoint comprehension (df_all_wells : list MonthlyRecord) (was : list str)
    (d : gmap str WellIP) : result (gmap str WellIP) :=
  match was with
  | [] => Ok d
  | wa_num :: was' =>
      well_ip ← snd (calculate_well_ip (well_frame df_all_wells wa_num));
      comprehension df_all_wells was' (<[wa well_ip := well_ip]> d)
  end.

Definition all_wells_ip (df_all_wells : list MonthlyRecord) : result (gmap str WellIP) :=
  comprehension df_all_wells (unique (List.map Wa_num df_all_wells)) ∅.

End getdata.

(** ** Vocabulary of the specification *)

Inductive stream := Gas | Oil | Cond | Water.
Inductive milestone := IP30 | IP90 | IP180 | IP365.

Definition days (m : milestone) : float :=
  match m with IP30 => 30 | IP90 => 90 | IP180 => 180 | IP365 => 365 end.

(** The reported cumulative volume of a stream in a monthly record. *)
Definition cum_of (s : stream) : MonthlyRecord -> float :=
  match s with
  | Gas => Gas_prod_cum
  | Oil => Oil_prod_cum
  | Cond => Cond_prod_cum
  | Water => Water_prod_cum
  end.

(** The IP value of a stream at a milestone, and its cumulative total. *)
Definition ip_value (w : WellIP) (s : stream) (m : milestone) : float :=
  match s, m with
  | Gas, IP30 => gas_ip_30_e3m3d w
  | Oil, IP30 => oil_ip_30_m3d w
  | Cond, IP30 => cond_ip_30_m3d w
  | Water, IP30 => water_ip_30_m3d w
  | Gas, IP90 => gas_ip_90_e3m3d w
  | Oil, IP90 => oil_ip_90_m3d w
  | Cond, IP90 => cond_ip_90_m3d w
  | Water, IP90 => water_ip_90_m3d w
  | Gas, IP180 => gas_ip_180_e3m3d w
  | Oil, IP180 => oil_ip_180_m3d w
  | Cond, IP180 => cond_ip_180_m3d w
  | Water, IP180 => water_ip_180_m3d w
  | Gas, IP365 => gas_ip_365_e3m3d w
  | Oil, IP365 => oil_ip_365_m3d w
  | Cond, IP365 => cond_ip_365_m3d w
  | Water, IP365 => water_ip_365_m3d w
  end.

Definition cum_value (w : WellIP) (s : stream) : float :=
  match s with
  | Gas => cum_prod_gas_e6m3 w
  | Oil => cum_prod_oil_e3m3 w
  | Cond => cum_prod_cond_e3m3 w
  | Water => cum_prod_water_e3m3 w
  end.

(** All sixteen IP values are the "not available" marker. *)
Definition no_ip (w : WellIP) : Prop :=
  forall s m, ip_value w s m = nan.

(** The dictionary keys of the IP values and of the cumulative totals. *)
Definition ip_key_metric (s : stream) (m : milestone) : string :=
  match s, m with
  | Gas, IP30 => "Gas IP 30 (E3m3/d)"
  | Oil, IP30 => "Oil IP 30 (m3/d)"
  | Cond, IP30 => "Cond IP 30 (m3/d)"
  | Water, IP30 => "Water IP 30 (m3/d)"
  | Gas, IP90 => "Gas IP 90 (E3m3/d)"
  | Oil, IP90 => "Oil IP 90 (m3/d)"
  | Cond, IP90 => "Cond IP 90 (m3/d)"
  | Water, IP90 => "Water IP 90 (m3/d)"
  | Gas, IP180 => "Gas IP 180 (E3m3/d)"
  | Oil, IP180 => "Oil IP 180 (m3/d)"
  | Cond, IP180 => "Cond IP 180 (m3/d)"
  | Water, IP180 => "Water IP 180 (m3/d)"
  | Gas, IP365 => "Gas IP 365 (E3m3/d)"
  | Oil, IP365 => "Oil IP 365 (m3/d)"
  | Cond, IP365 => "Cond IP 365 (m3/d)"
  | Water, IP365 => "Water IP 365 (m3/d)"
  end.

Definition ip_key_field (s : stream) (m : milestone) : string :=
  match s, m with
  | Gas, IP30 => "Gas IP 30 (Mcf/d)"
  | Oil, IP30 => "Oil IP 30 (bbl/d)"
  | Cond, IP30 => "Cond IP 30 (bbl/d)"
  | Water, IP30 => "Water IP 30 (bbl/d)"
  | Gas, IP90 => "Gas IP 90 (Mcf/d)"
  | Oil, IP90 => "Oil IP 90 (bbl/d)"
  | Cond, IP90 => "Cond IP 90 (bbl/d)"
  | Water, IP90 => "Water IP 90 (bbl/d)"
  | Gas, IP180 => "Gas IP 180 (Mcf/d)"
  | Oil, IP180 => "Oil IP 180 (bbl/d)"
  | Cond, IP180 => "Cond IP 180 (bbl/d)"
  | Water, IP180 => "Water IP 180 (bbl/d)"
  | Gas, IP365 => "Gas IP 365 (Mcf/d)"
  | Oil, IP365 => "Oil IP 365 (bbl/d)"
  | Cond, IP365 => "Cond IP 365 (bbl/d)"
  | Water, IP365 => "Water IP 365 (bbl/d)"
  end.

Definition cum_key_metric (s : stream) : string :=
  match s with
  | Gas => "Cum prod gas (E6m3)"
  | Oil => "Cum prod oil (E3m3)"
  | Cond => "Cum prod cond (E3m3)"
  | Water => "Cum prod water (E3m3)"
  end.

Definition cum_key_field (s : stream) : string :=
  match s with
  | Gas => "Cum prod gas (Bcf)"
  | Oil => "Cum prod oil (Mbbl)"
  | Cond => "Cum prod cond (Mbbl)"
  | Water => "Cum prod water (Mbbl)"
  end.

Definition ip_key (units : str) (s : stream) (m : milestone) : string :=
  if decide (units = pystr "field") then ip_key_field s m else ip_key_metric s m.

Definition cum_key (units : str) (s : stream) : string :=
  if decide (units = pystr "field") then cum_key_field s else cum_key_metric s.

(** The documented conversion of a metric value to field units. *)
Definition to_field_ip (s : stream) (v : float) : float :=
  match s with
  | Gas => v * MCF_E3M3
  | _ => v * BBL_M3
  end.

Definition to_field_cum (s : stream) (v : float) : float :=
  match s with
  | Gas => v * MCF_E3M3 * 0.001
  | _ => v * BBL_M3
  end.

(** The keys that are the same in both unit systems. *)
Definition common_keys : list string :=
  ["WA"; "UWI"; "First prod month"; "Last prod month"; "Cum prod days"].

(** The float nearest to [n / 10], with the sign [s]: the value of a decimal
    with one digit after the point. *)
Definition tenths (s : bool) (n : Z) : float :=
  match n with
  | Zpos p => SF2Prim (SFdiv prec emax (S754_finite s p 0) (S754_finite false 10 0))
  | _ => if s then PrimFloat.neg_zero else PrimFloat.zero
  end.

(** [f] is [x] rounded to 1 decimal place: for a finite [x] with a
    fractional part, [f] is the float nearest to [n / 10] for an integer [n]
    that is nearest to [10 * |x|]; an integer, an infinity and NaN are left
    as they are. *)
Definition rounded_to_1_decimal (x f : float) : Prop :=
  match Prim2SF x with
  | S754_finite s m e =>
      if (0 <=? e)%Z then f = x
      else exists n : Z,
             (0 <= n)%Z
             /\ (2 * Z.abs (10 * Zpos m - n * 2 ^ (- e)) <= 2 ^ (- e))%Z
             /\ f = tenths s n
  | _ => f = x
  end.

(** The dictionary of a unit system before its floats are rounded. *)
Definition unrounded (w : WellIP) (units : str) : gmap string value :=
  if decide (units = pystr "field") then field_dict w else metric_dict w.

(** The value that a unit system shows for an IP value or a cumulative
    total of the record. *)
Definition shown_ip (units : str) (s : stream) (v : float) : float :=
  if decide (units = pystr "field") then to_field_ip s v else v.

Definition shown_cum (units : str) (s : stream) (v : float) : float :=
  if decide (units = pystr "field") then to_field_cum s v else v.

(** The keys of a dictionary of each unit system. *)
Definition streams : list stream := [Gas; Oil; Cond; Water].
Definition milestones : list milestone := [IP30; IP90; IP180; IP365].

Definition metric_keys : gset string :=
  list_to_set (["WA"; "UWI"; "First prod month"; "Last prod month"]
               ++ List.map cum_key_metric streams ++ ["Cum prod days"]
               ++ List.flat_map (fun m => List.map (fun s => ip_key_metric s m) streams)
                                milestones).

Definition field_keys : gset string :=
  list_to_set (["WA"; "UWI"; "First prod month"; "Last prod month"]
               ++ List.map cum_key_field streams ++ ["Cum prod days"]
               ++ List.flat_map (fun m => List.map (fun s => ip_key_field s m) streams)
                                milestones).

(** The total produced volume of a month, gas scaled to m3. *)
Definition total_of (r : MonthlyRecord) : float :=
  Gas_prod_vol r * 1000 + Oil_prod_vol r + Water_prod_vol r + Cond_prod_vol r.

(** The sum of the values of months [0..i], added in sequence order. *)
Definition running_sum (l : list float) (i : nat) : float :=
  match firstn (S i) l with
  | [] => nan
  | d0 :: ds => fold_left PrimFloat.add ds d0
  end.

(** A series is non-decreasing from each month to the next. *)
Definition nondecreasing (l : list float) : Prop :=
  forall i a b, l !! i = Some a -> l !! (S i) = Some b -> (a <=? b) = true.


(** The knots of a stream: (cumulative producing days, cumulative volume),
    ordered by cumulative producing days. *)
Definition knots_of (df : DataFrame) (s : stream) : list (float * float) :=
  match Prod_days_cum df with
  | Some days_cum => interpolate.sort (combine days_cum (col (cum_of s) df))
  | None => []
  end.

Definition first_x (knots : list (float * float)) : float :=
  List.hd nan (List.map fst knots).
Definition last_x (knots : list (float * float)) : float :=
  List.last (List.map fst knots) nan.
Definition last_y (knots : list (float * float)) : float :=
  List.last (List.map snd knots) nan.


(** [v] is a value at [x] of the piecewise-linear interpolation through the
    knots: the volume of a knot that lies at [x], or the value between the
    two adjacent knots that enclose [x]. *)
Inductive interpolates (knots : list (float * float)) (x : float) : float -> Prop :=
| interpolates_knot x0 y0 :
    In (x0, y0) knots -> (x0 =? x) = true -> interpolates knots x y0
| interpolates_between l1 x0 y0 x1 y1 l2 :
    knots = l1 ++ (x0, y0) :: (x1, y1) :: l2 ->
    (x0 <? x) = true -> (x <? x1) = true ->
    interpolates knots x (np.lerp x0 y0 x1 y1 x).

(** The record that step 1 of the calculation fills in, from the first and
    the last monthly record and the last cumulative producing days; its
    sixteen IP values are "not available". *)
Definition step1 (first last : MonthlyRecord) (days_cum : float) : WellIP :=
  new_WellIP (Wa_num first) (UWI first) (Prod_period first) (Prod_period last)
    (Gas_prod_cum last / 1000) (Oil_prod_cum last / 1000)
    (Cond_prod_cum last / 1000) (Water_prod_cum last / 1000) days_cum.

(** A left-to-right reading of a table of knots at [x]: the last knot
    that the reading reaches with all knots up to it at or before [x]; on
    the last knot, or on a knot exactly, its volume, and otherwise the
    value between it and the next knot. *)
Fixpoint bracket (x x0 y0 : float) (rest : list (float * float)) : float :=
  match rest with
  | [] => y0
  | (x1, y1) :: rest' =>
      if x1 <=? x then bracket x x1 y1 rest'
      else if x0 =? x then y0
      else np.lerp x0 y0 x1 y1 x
  end.

(** That reading within the range of the knots, NaN above the last and
    below the first knot. *)
Definition eval_knots (knots : list (float * float)) (x : float) : float :=
  match knots with
  | [] => nan
  | (x0, y0) :: rest =>
      if last_x knots <? x then nan
      else if x <? x0 then nan
      else bracket x x0 y0 rest
  end.

(** The number of leading elements that are at most [key], and the index
    that the left-to-right reading of an array stops at. *)
Fixpoint count_le (key : float) (l : list float) : nat :=
  match l with
  | [] => O
  | a :: l' => if a <=? key then S (count_le key l') else O
  end.

Definition scan_index (key : float) (arr : list float) : Z :=
  Z.of_nat (count_le key (List.tl arr)).

(** The element after the one that the reading stops at is a number, or
    there is none. *)
Definition next_is_number (key : float) (arr : list float) : Prop :=
  F.isnan (np.item arr (scan_index key arr + 1)) = false
  \/ (scan_index key arr + 1 = Z.of_nat (List.length arr))%Z.

(** The guess as the search adjusts it on a table of [len] elements. *)
Definition clamp (len guess : Z) : Z :=
  let guess := if (len - 3 <? guess)%Z then (len - 3)%Z else guess in
  if (guess <? 1)%Z then 1%Z else guess.

(** The element of an array of four that belongs to a milestone. *)
Definition at_milestone (a : arr4) (m : milestone) : float :=
  match m with
  | IP30 => at0 a
  | IP90 => at1 a
  | IP180 => at2 a
  | IP365 => at3 a
  end.

(** What the interpolant over a table of sorted knots gives at the four
    milestones. *)
Definition interp1d_at (knots : list (float * float)) : arr4 :=
  match interpolate.call4
          (interpolate.mkInterp1d (List.map fst knots) (List.map snd knots)) days_arr with
  | Ok a => a
  | Raise _ => mkArr4 nan nan nan nan
  end.

(** The gate of the calculation as a boolean on the prepared columns. *)
Definition gate (df : DataFrame) : bool :=
  Nat.leb 2 (len df)
  && empty (select_rows (prepare df)
              (pd.and_ (pd.and_ (pd.le_scalar (pd.cumsum (col Prod_days df)) 365)
                                (pd.eq_scalar (col Prod_days df) 0))
                       (pd.gt_scalar (List.map total_of (rows df)) 0))).

(** The four IP values of a stream when the gate passes, and the record
    with all sixteen assigned. *)
Definition ips_of (df : DataFrame) (s : stream) : arr4 :=
  arr4_div (interp1d_at (knots_of (prepare df) s)) days_arr.

Definition with_ips (df : DataFrame) (w : WellIP) : WellIP :=
  set_ips w (ips_of df Gas) (ips_of df Oil) (ips_of df Cond) (ips_of df Water).

(** The producing days as the cumulative sum reads them: a missing value
    counts as 0. *)
Definition fillna0 (v : float) : float := if F.isnan v then 0 else v.

(** The order of the sorted knots: [a] may stand before [b]. *)
Definition sort_le (a b : float) : bool := negb (F.sort_lt b a).

(** Every knot may stand before all the knots after it. *)
Fixpoint sorted (l : list (float * float)) : Prop :=
  match l with
  | [] => True
  | k :: t => List.Forall (fun k' => sort_le (fst k) (fst k') = true) t /\ sorted t
  end.

(** The float comparisons, through the comparison of their specifications. *)
Definition fcmp (x y : float) : option comparison :=
  SFcompare (Prim2SF x) (Prim2SF y).

(** ** Example wells *)

Definition month (period : Z) (prod_days gas_vol gas_cum oil_cum water_cum cond_cum : float)
  : MonthlyRecord :=
  mkMonthlyRecord (pystr "39167") period (pystr "203A044J094B1600")
    gas_vol 0 0 0 prod_days gas_cum oil_cum water_cum cond_cum.

Definition frame (l : list MonthlyRecord) : DataFrame := mkDataFrame l None None.

(** The two months of the specification's scenario. *)
Definition two_months : DataFrame :=
  frame [month 202006 30 100 100 0 50 5; month 202007 30 120 220 0 110 11].

Definition one_month : DataFrame :=
  frame [month 202006 30 100 100 0 50 5].


(** A second month without producing days whose gas volume is a negative
    adjustment: two knots at 30 cumulative producing days. *)
Definition adjusted : DataFrame :=
  frame [month 202006 30 100 100 0 50 5; month 202007 0 (-10) 90 0 50 5;
         month 202008 30 130 220 0 110 11].

(** A well that reaches exactly 365 cumulative producing days with its
    twelfth month. *)
Definition full_year : DataFrame :=
  frame [month 202101 31 150 150 0 50 5;   month 202102 28 140 290 0 90 9;
         month 202103 31 130 420 0 130 13; month 202104 30 130 550 0 160 16;
         month 202105 31 120 670 0 190 19; month 202106 30 120 790 0 220 22;
         month 202107 31 120 910 0 250 25; month 202108 31 110 1020 0 280 28;
         month 202109 30 110 1130 0 310 31; month 202110 31 110 1240 0 340 34;
         month 202111 30 110 1350 0 370 37; month 202112 31 110 1460 0 400 40].

(** Producing days missing in the first month. *)
Definition missing_days : DataFrame :=
  frame [month 202006 nan 100 100 0 50 5; month 202007 5 120 220 0 110 11].

(** A well whose oil IP30 is 0.04 m3/d. *)
Definition small_oil : WellIP :=
  mkWellIP (pystr "39167") (pystr "203A044J094B1600") 202006 202007
    0.22 0 0.011 0.11 60
    3.5 0.04 0.2 1.7 nan nan nan nan nan nan nan nan nan nan nan nan.

Definition ascii_digit (c : N) : bool := (48 <=? c)%N && (c <=? 57)%N.

Definition wells : gmap str WellIP := {[ pystr "39167" := small_oil ]}.

(** A second well, and a production table in which the months of the two
    wells alternate; the same months grouped by well. *)
Definition month_b (period : Z) (prod_days gas_vol gas_cum : float) : MonthlyRecord :=
  mkMonthlyRecord (pystr "00042") period (pystr "100010203040W500")
    gas_vol 0 0 0 prod_days gas_cum 0 0 0.

Definition production_table : list MonthlyRecord :=
  [month 202006 30 100 100 0 50 5; month_b 202005 31 40 40;
   month 202007 30 120 220 0 110 11; month_b 202006 30 35 75;
   month_b 202007 31 30 105].

Definition production_table_grouped : list MonthlyRecord :=
  [month_b 202005 31 40 40; month_b 202006 30 35 75; month_b 202007 31 30 105;
   month 202006 30 100 100 0 50 5; month 202007 30 120 220 0 110 11].

(** A well that reports a cumulative gas volume near the largest float:
    its gas IP30 is finite in metric units and infinite in field units. *)
Definition huge_gas : list MonthlyRecord :=
  [month 202006 30 1.7e308 1.7e308 0 50 5; month 202007 30 0 1.7e308 0 110 11].

(** * Properties *)

(** ** Comparison of floats *)

Lemma SFcompare_opp (a b : spec_float) :
  SFcompare b a = option_map CompOpp (SFcompare a b).
Proof.
  destruct a as [sa|sa| |sa ma ea], b as [sb|sb| |sb mb eb]; simpl; try reflexivity;
    try (destruct sa; reflexivity); try (destruct sb; reflexivity);
    try (destruct sa, sb; reflexivity).
  destruct sa, sb; simpl; try reflexivity;
    rewrite (Z.compare_antisym ea eb); destruct (ea ?= eb)%Z; simpl; try reflexivity;
    rewrite Pos.compare_cont_antisym; simpl; try reflexivity.
  now rewrite CompOpp_involutive.
Qed.

Lemma SFcompare_refl (a : spec_float) :
  a <> S754_nan -> SFcompare a a = Some Eq.
Proof.
  destruct a as [sa|sa| |sa ma ea]; simpl; try congruence; intros _.
  - destruct sa; reflexivity.
  - rewrite Z.compare_refl.
    change (Pos.compare_cont Eq ma ma) with (Pos.compare ma ma).
    rewrite Pos.compare_refl. destruct sa; reflexivity.
Qed.

Lemma SFcompare_None (a b : spec_float) :
  SFcompare a b = None <-> a = S754_nan \/ b = S754_nan.
Proof.
  destruct a as [sa|sa| |sa ma ea], b as [sb|sb| |sb mb eb]; simpl;
    intuition congruence.
Qed.

Lemma SFleb_trans (a b c : spec_float) :
  SFleb a b = true -> SFleb b c = true -> SFleb a c = true.
Proof.
  unfold SFleb.
  destruct a as [sa|sa| |sa ma ea], b as [sb|sb| |sb mb eb], c as [sc|sc| |sc mc ec];
    simpl; try congruence;
    try (destruct sa; simpl; congruence); try (destruct sb; simpl; congruence);
    try (destruct sc; simpl; congruence);
    try (destruct sa, sb; simpl; congruence); try (destruct sa, sc; simpl; congruence);
    try (destruct sb, sc; simpl; congruence).
  all: destruct sa, sb, sc; simpl; try congruence.
  all: change (Pos.compare_cont Eq) with Pos.compare.
  all: destruct (Z.compare_spec ea eb), (Z.compare_spec eb ec), (Z.compare_spec ea ec);
    try congruence; try lia.
  all: subst.
  all: try destruct (Pos.compare_spec ma mb); try destruct (Pos.compare_spec mb mc);
    try destruct (Pos.compare_spec ma mc); simpl; try congruence; try lia.
Qed.

Lemma ltb_fcmp x y : (x <? y) = match fcmp x y with Some Lt => true | _ => false end.
Proof. apply FloatAxioms.ltb_spec. Qed.

Lemma leb_fcmp x y :
  (x <=? y) = match fcmp x y with Some (Lt | Eq) => true | _ => false end.
Proof. apply FloatAxioms.leb_spec. Qed.

Lemma eqb_fcmp x y : (x =? y) = match fcmp x y with Some Eq => true | _ => false end.
Proof. apply FloatAxioms.eqb_spec. Qed.

Lemma fcmp_opp x y : fcmp y x = option_map CompOpp (fcmp x y).
Proof. apply SFcompare_opp. Qed.

Lemma isnan_Prim2SF x : F.isnan x = true <-> Prim2SF x = S754_nan.
Proof.
  unfold F.isnan. rewrite eqb_fcmp. unfold fcmp. split.
  - intros H. destruct (Prim2SF x) eqn:E; try reflexivity;
      rewrite SFcompare_refl in H by congruence; discriminate.
  - intros ->. reflexivity.
Qed.

Lemma isnan_nan x : F.isnan x = true <-> x = nan.
Proof.
  rewrite isnan_Prim2SF. split.
  - intros H. apply Prim2SF_inj. rewrite H. reflexivity.
  - intros ->. reflexivity.
Qed.

Lemma fcmp_None x y : fcmp x y = None <-> F.isnan x = true \/ F.isnan y = true.
Proof. unfold fcmp. rewrite SFcompare_None, !isnan_Prim2SF. tauto. Qed.

Lemma fcmp_Some x y :
  F.isnan x = false -> F.isnan y = false -> exists c, fcmp x y = Some c.
Proof.
  intros Hx Hy. destruct (fcmp x y) eqn:E; [eauto|].
  apply fcmp_None in E. destruct E; congruence.
Qed.

Ltac fcmp_cases x y :=
  rewrite ?ltb_fcmp, ?leb_fcmp, ?eqb_fcmp in *;
  try rewrite (fcmp_opp x y) in *;
  let E := fresh "E" in
  destruct (fcmp x y) as [[| |]|] eqn:E; simpl in *; try congruence.

Lemma ltb_not_nan x y : (x <? y) = true -> F.isnan x = false /\ F.isnan y = false.
Proof.
  intros H. rewrite ltb_fcmp in H.
  destruct (F.isnan x) eqn:Hx, (F.isnan y) eqn:Hy; try tauto;
    assert (N : fcmp x y = None) by (apply fcmp_None; auto);
    rewrite N in H; discriminate.
Qed.

Lemma leb_not_nan x y : (x <=? y) = true -> F.isnan x = false /\ F.isnan y = false.
Proof.
  intros H. rewrite leb_fcmp in H.
  destruct (F.isnan x) eqn:Hx, (F.isnan y) eqn:Hy; try tauto;
    assert (N : fcmp x y = None) by (apply fcmp_None; auto);
    rewrite N in H; discriminate.
Qed.

Lemma eqb_not_nan x y : (x =? y) = true -> F.isnan x = false /\ F.isnan y = false.
Proof.
  intros H. rewrite eqb_fcmp in H.
  destruct (F.isnan x) eqn:Hx, (F.isnan y) eqn:Hy; try tauto;
    assert (N : fcmp x y = None) by (apply fcmp_None; auto);
    rewrite N in H; discriminate.
Qed.

Lemma leb_not_ltb x y : (x <=? y) = true -> (y <? x) = false.
Proof. intros H. fcmp_cases x y. Qed.

Lemma ltb_not_leb x y : (x <? y) = true -> (y <=? x) = false.
Proof. intros H. fcmp_cases x y. Qed.

Lemma ltb_leb x y : (x <? y) = true -> (x <=? y) = true.
Proof. intros H. fcmp_cases x y. Qed.

Lemma eqb_leb x y : (x =? y) = true -> (x <=? y) = true.
Proof. intros H. fcmp_cases x y. Qed.

Lemma eqb_sym x y : (x =? y) = (y =? x).
Proof. fcmp_cases x y. Qed.

Lemma leb_neq_ltb x y : (x <=? y) = true -> (x =? y) = false -> (x <? y) = true.
Proof. intros H1 H2. fcmp_cases x y. Qed.

Lemma leb_antisym x y : (x <=? y) = true -> (y <=? x) = true -> (x =? y) = true.
Proof. intros H1 H2. fcmp_cases x y. Qed.

Lemma not_leb_ltb x y :
  F.isnan x = false -> F.isnan y = false -> (y <=? x) = false -> (x <? y) = true.
Proof.
  intros Hx Hy H. destruct (fcmp_Some x y Hx Hy) as [c Hc].
  rewrite leb_fcmp in H. rewrite ltb_fcmp. rewrite (fcmp_opp x y) in H.
  rewrite Hc in *. destruct c; simpl in *; congruence.
Qed.

Lemma not_ltb_leb x y :
  F.isnan x = false -> F.isnan y = false -> (y <? x) = false -> (x <=? y) = true.
Proof.
  intros Hx Hy H. destruct (fcmp_Some x y Hx Hy) as [c Hc].
  rewrite ltb_fcmp in H. rewrite leb_fcmp. rewrite (fcmp_opp x y) in H.
  rewrite Hc in *. destruct c; simpl in *; congruence.
Qed.

Lemma leb_trans x y z : (x <=? y) = true -> (y <=? z) = true -> (x <=? z) = true.
Proof. rewrite !FloatAxioms.leb_spec. apply SFleb_trans. Qed.

Lemma leb_refl x : F.isnan x = false -> (x <=? x) = true.
Proof.
  intros H. rewrite FloatAxioms.leb_spec. unfold SFleb. rewrite SFcompare_refl; [reflexivity|].
  intros N. apply isnan_Prim2SF in N. congruence.
Qed.

Lemma ltb_leb_trans x y z : (x <? y) = true -> (y <=? z) = true -> (x <? z) = true.
Proof.
  intros Hxy Hyz.
  destruct (ltb_not_nan _ _ Hxy) as [Hx _]. destruct (leb_not_nan _ _ Hyz) as [_ Hz].
  destruct (x <? z) eqn:E; [reflexivity|exfalso].
  pose proof (not_ltb_leb z x Hz Hx E) as Hzx.
  pose proof (leb_trans _ _ _ Hyz Hzx) as Hyx.
  rewrite (ltb_not_leb _ _ Hxy) in Hyx. discriminate.
Qed.

Lemma leb_ltb_trans x y z : (x <=? y) = true -> (y <? z) = true -> (x <? z) = true.
Proof.
  intros Hxy Hyz.
  destruct (leb_not_nan _ _ Hxy) as [Hx _]. destruct (ltb_not_nan _ _ Hyz) as [_ Hz].
  destruct (x <? z) eqn:E; [reflexivity|exfalso].
  pose proof (not_ltb_leb z x Hz Hx E) as Hzx.
  pose proof (leb_trans _ _ _ Hzx Hxy) as Hzy.
  rewrite (ltb_not_leb _ _ Hyz) in Hzy. discriminate.
Qed.

(** ** Series and frames *)

Lemma running_length acc s : List.length (pd.running acc s) = List.length s.
Proof. revert acc. induction s as [|v s IH]; intros acc; simpl; [|rewrite IH]; reflexivity. Qed.

Lemma np_cumsum_length s : List.length (pd.np_cumsum s) = List.length s.
Proof. destruct s; simpl; [|rewrite running_length]; reflexivity. Qed.

Lemma cumsum_length s : List.length (pd.cumsum s) = List.length s.
Proof.
  unfold pd.cumsum.
  rewrite List.length_map, List.length_combine, !List.length_map, np_cumsum_length,
    List.length_map.
  apply Nat.min_id.
Qed.

Lemma map2_length {A B C} (f : A -> B -> C) s t :
  List.length s = List.length t -> List.length (pd.map2 f s t) = List.length s.
Proof.
  intros H. unfold pd.map2. rewrite List.length_map, List.length_combine, <- H.
  apply Nat.min_id.
Qed.

Lemma iloc_first_map {A B} (f : A -> B) a l :
  pd.iloc_first (List.map f (a :: l)) = Ok (f a).
Proof. reflexivity. Qed.

Lemma iloc_last_last {A} (a : A) l d : pd.iloc_last (a :: l) = Ok (List.last (a :: l) d).
Proof.
  revert a. induction l as [|b l IH]; intros a; [reflexivity|].
  change (pd.iloc_last (a :: b :: l)) with (pd.iloc_last (b :: l)).
  change (List.last (a :: b :: l) d) with (List.last (b :: l) d). apply IH.
Qed.

Lemma last_cons_default {A} (a : A) l d : List.last (a :: l) d = List.last l a.
Proof.
  revert a d. induction l as [|b l IH]; intros a d; [reflexivity|].
  change (List.last (a :: b :: l) d) with (List.last (b :: l) d).
  now rewrite !IH.
Qed.

Lemma last_map {A B} (f : A -> B) l a :
  List.last (List.map f l) (f a) = f (List.last l a).
Proof.
  revert a. induction l as [|b l IH]; intros a; [reflexivity|].
  simpl List.map. now rewrite !last_cons_default, IH.
Qed.

Lemma iloc_last_map {A B} (f : A -> B) a l :
  pd.iloc_last (List.map f (a :: l)) = Ok (f (List.last l a)).
Proof.
  simpl List.map. rewrite (iloc_last_last _ _ (f a)), last_cons_default.
  now rewrite last_map.
Qed.

Lemma rows_prepare df : rows (prepare df) = rows df.
Proof. reflexivity. Qed.

Lemma Prod_days_cum_prepare df :
  Prod_days_cum (prepare df) = Some (pd.cumsum (col Prod_days df)).
Proof. reflexivity. Qed.

Lemma Total_prod_vol_prepare df :
  Total_prod_vol (prepare df) = Some (List.map total_of (rows df)).
Proof.
  unfold prepare, set_Total_prod_vol, set_Prod_days_cum, col; simpl. f_equal.
  unfold pd.add, pd.map2, pd.mul_scalar, total_of.
  induction (rows df) as [|r l IH]; simpl; [reflexivity|]. now rewrite IH.
Qed.

(** ** The interpolant never raises on a frame with rows *)

Lemma insert_length k l :
  List.length (interpolate.insert k l) = S (List.length l).
Proof.
  induction l as [|h t IH]; simpl; [reflexivity|].
  destruct (F.sort_lt (fst h) (fst k)); simpl; [rewrite IH|]; reflexivity.
Qed.

Lemma sort_length l : List.length (interpolate.sort l) = List.length l.
Proof.
  induction l as [|k l IH]; simpl; [reflexivity|]. now rewrite insert_length, IH.
Qed.

Lemma combine_fst_snd {A B} (l : list (A * B)) :
  combine (List.map fst l) (List.map snd l) = l.
Proof. induction l as [|[a b] l IH]; simpl; [|rewrite IH]; reflexivity. Qed.

Lemma make_Ok xs ys :
  List.length xs = List.length ys -> xs <> [] ->
  interpolate.make xs ys =
    Ok (interpolate.mkInterp1d (List.map fst (interpolate.sort (combine xs ys)))
                               (List.map snd (interpolate.sort (combine xs ys)))).
Proof.
  intros Hlen Hne. unfold interpolate.make.
  rewrite Hlen, Nat.eqb_refl. simpl negb. cbv iota.
  rewrite sort_length, List.length_combine, Hlen, Nat.min_id.
  destruct ys as [|y ys]; [destruct xs; [congruence|discriminate]|reflexivity].
Qed.

Lemma sort_nonempty l : l <> [] -> interpolate.sort l <> [].
Proof.
  intros H E. apply (f_equal (@List.length _)) in E. rewrite sort_length in E.
  destruct l; [congruence|discriminate].
Qed.

Lemma interp_loop_length xp fp j x :
  List.length (np.interp_loop xp fp j x) = List.length x.
Proof.
  revert j. induction x as [|v x IH]; intros j; simpl; [reflexivity|].
  destruct (F.isnan v); simpl; now rewrite IH.
Qed.

Lemma interp_length x xp fp l :
  np.interp x xp fp = Ok l -> List.length l = List.length x.
Proof.
  unfold np.interp. destruct xp as [|xp_val [|xp1 xp']]; [discriminate| |];
    destruct (negb _); try discriminate; intros H; injection H as <-.
  - apply List.length_map.
  - apply interp_loop_length.
Qed.

Lemma interp_Ok x knots :
  knots <> [] ->
  exists l, np.interp x (List.map fst knots) (List.map snd knots) = Ok l.
Proof.
  destruct knots as [|k0 rest]; [congruence|]. intros _.
  unfold np.interp. cbn [List.map]. rewrite !length_cons, !List.length_map, Nat.eqb_refl.
  cbn [negb]. destruct rest; eexists; reflexivity.
Qed.

Lemma call4_interp1d_at knots :
  knots <> [] ->
  interpolate.call4
    (interpolate.mkInterp1d (List.map fst knots) (List.map snd knots)) days_arr
  = Ok (interp1d_at knots).
Proof.
  intros Hne. unfold interp1d_at.
  destruct (interp_Ok [30; 90; 180; 365] knots Hne) as [l Hl].
  pose proof (interp_length _ _ _ _ Hl) as Hlen.
  unfold interpolate.call4, days_arr. cbn [at0 at1 at2 at3 interpolate.x interpolate.y].
  rewrite Hl. cbn [mbind result_bind].
  destruct knots as [|[x0 y0] rest]; [congruence|].
  assert (Hlast : pd.iloc_last (List.map fst ((x0, y0) :: rest))
                  = Ok (List.last (List.map fst ((x0, y0) :: rest)) nan)).
  { simpl List.map. apply iloc_last_last. }
  assert (Hf : pd.iloc_first (List.map fst ((x0, y0) :: rest)) = Ok x0) by reflexivity.
  rewrite Hf. cbn [mbind result_bind]. rewrite Hlast. cbn [mbind result_bind].
  destruct l as [|v0 [|v1 [|v2 [|v3 [|v4 l]]]]]; try discriminate. reflexivity.
Qed.

Lemma interpolate_ips_prepare df w :
  rows df <> [] -> interpolate_ips (prepare df) w = Ok (with_ips df w).
Proof.
  intros Hne. unfold interpolate_ips.
  change (get_Prod_days_cum (prepare df)) with (Ok (pd.cumsum (col Prod_days df))).
  cbn [mbind result_bind].
  change (col Gas_prod_cum (prepare df)) with (col (cum_of Gas) df).
  change (col Oil_prod_cum (prepare df)) with (col (cum_of Oil) df).
  change (col Cond_prod_cum (prepare df)) with (col (cum_of Cond) df).
  change (col Water_prod_cum (prepare df)) with (col (cum_of Water) df).
  assert (Hlen : forall s, List.length (pd.cumsum (col Prod_days df))
                           = List.length (col (cum_of s) df)).
  { intros s. rewrite cumsum_length. unfold col. now rewrite !List.length_map. }
  assert (Hc : pd.cumsum (col Prod_days df) <> []).
  { intros E. apply (f_equal (@List.length _)) in E.
    rewrite cumsum_length in E. unfold col in E. rewrite List.length_map in E.
    destruct (rows df); [congruence|discriminate]. }
  rewrite !make_Ok by auto. cbn [mbind result_bind].
  assert (Hk : forall s, interpolate.sort
                 (combine (pd.cumsum (col Prod_days df)) (col (cum_of s) df)) <> []).
  { intros s. apply sort_nonempty. intros E. apply (f_equal (@List.length _)) in E.
    rewrite List.length_combine, <- Hlen, Nat.min_id in E.
    destruct (pd.cumsum (col Prod_days df)); [congruence|discriminate]. }
  rewrite !call4_interp1d_at by auto. reflexivity.
Qed.

Lemma eligible_prepare df : eligible (prepare df) = Ok (gate df).
Proof.
  unfold eligible, gate. change (len (prepare df)) with (len df).
  destruct (Nat.leb 2 (len df)); [|reflexivity].
  change (get_Prod_days_cum (prepare df)) with (Ok (pd.cumsum (col Prod_days df))).
  cbn [mbind result_bind].
  unfold get_Total_prod_vol. rewrite Total_prod_vol_prepare.
  reflexivity.
Qed.

Lemma well_ip_of_prepare df r0 rest :
  rows df = r0 :: rest ->
  well_ip_of (prepare df) =
    Ok (let w := step1 r0 (List.last rest r0)
                   (List.last (pd.cumsum (col Prod_days df)) nan) in
        if gate df then with_ips df w else w).
Proof.
  intros Hrows. unfold well_ip_of.
  rewrite eligible_prepare.
  change (get_Prod_days_cum (prepare df)) with (Ok (pd.cumsum (col Prod_days df))).
  assert (Hl : pd.iloc_last (pd.cumsum (col Prod_days df))
               = Ok (List.last (pd.cumsum (col Prod_days df)) nan)).
  { destruct (pd.cumsum (col Prod_days df)) as [|c cs] eqn:E.
    - apply (f_equal (@List.length _)) in E. rewrite cumsum_length in E.
      unfold col in E. rewrite Hrows in E. discriminate.
    - apply iloc_last_last. }
  set (days_cum := pd.cumsum (col Prod_days df)) in *.
  unfold col. rewrite rows_prepare, Hrows.
  rewrite !iloc_first_map, !iloc_last_map. cbn [mbind result_bind].
  rewrite Hl. cbn [mbind result_bind].
  destruct (gate df); [|reflexivity].
  apply interpolate_ips_prepare. rewrite Hrows. discriminate.
Qed.

Lemma ip_value_with_ips df w s m :
  ip_value (with_ips df w) s m
  = at_milestone (interp1d_at (knots_of (prepare df) s)) m / days m.
Proof. destruct s, m; reflexivity. Qed.

Lemma no_ip_step1 first last days_cum : no_ip (step1 first last days_cum).
Proof. intros s m. destruct s, m; reflexivity. Qed.

Lemma calculate_well_ip_snd df r0 rest :
  rows df = r0 :: rest ->
  snd (calculate_well_ip df) =
    Ok (let w := step1 r0 (List.last rest r0)
                   (List.last (pd.cumsum (col Prod_days df)) nan) in
        if gate df then with_ips df w else w).
Proof. apply well_ip_of_prepare. Qed.

Lemma gate_one_month df r0 : rows df = [r0] -> gate df = false.
Proof. intros H. unfold gate, len. rewrite H. reflexivity. Qed.

(** ** Step 1: identity and cumulative fields *)

(** C3. For every series with at least one month, [calculate_well_ip]
    returns a record (no exception) whose well identifier, UWI and first
    reporting period are those of the first record, whose last reporting
    period is that of the last record, whose cumulative producing days are
    the last value of the cumulative-producing-days column, and whose four
    cumulative totals are the last reported cumulative volumes divided by
    1000; for a series of exactly one month all sixteen IP values are
    "not available". *)
Theorem calculate_well_ip_step1 (df : DataFrame) (r0 : MonthlyRecord)
    (rest : list MonthlyRecord) :
  rows df = r0 :: rest ->
  exists w days_cum,
    snd (calculate_well_ip df) = Ok w /\
    Prod_days_cum (fst (calculate_well_ip df)) = Some days_cum /\
    wa w = Wa_num r0 /\
    uwi w = UWI r0 /\
    first_prod_month w = Prod_period r0 /\
    last_prod_month w = Prod_period (List.last rest r0) /\
    cum_prod_days w = List.last days_cum nan /\
    (forall s, cum_value w s = cum_of s (List.last rest r0) / 1000) /\
    (rest = [] -> no_ip w).
Proof.
  intros Hrows. rewrite (calculate_well_ip_snd df r0 rest Hrows).
  eexists. exists (pd.cumsum (col Prod_days df)).
  split; [reflexivity|]. split; [reflexivity|].
  cbv zeta. destruct (gate df) eqn:Hg.
  - repeat split; try (intros s; destruct s; reflexivity).
    intros ->. rewrite (gate_one_month df r0 Hrows) in Hg. discriminate.
  - repeat split; try (intros s; destruct s; reflexivity).
    intros _. apply no_ip_step1.
Qed.

Lemma calculate_well_ip_step1_witness :
  exists w days_cum,
    snd (calculate_well_ip one_month) = Ok w /\
    Prod_days_cum (fst (calculate_well_ip one_month)) = Some days_cum /\
    wa w = pystr "39167" /\
    uwi w = pystr "203A044J094B1600" /\
    first_prod_month w = 202006%Z /\
    last_prod_month w = 202006%Z /\
    cum_prod_days w = List.last days_cum nan /\
    (forall s, cum_value w s
               = cum_of s (month 202006 30 100 100 0 50 5) / 1000) /\
    (@nil MonthlyRecord = [] -> no_ip w).
Proof.
  exact (calculate_well_ip_step1 one_month (month 202006 30 100 100 0 50 5) []
           eq_refl).
Defined.

(** ** The eligibility gate *)







(** ** Series preparation *)

Lemma lookup_map {A B} (f : A -> B) (l : list A) (i : nat) :
  List.map f l !! i = option_map f (l !! i).
Proof.
  revert i. induction l as [|a l IH]; intros [|i]; simpl; try reflexivity. apply IH.
Qed.

Lemma lookup_combine {A B} (l : list A) (k : list B) (i : nat) :
  combine l k !! i =
    match l !! i, k !! i with
    | Some a, Some b => Some (a, b)
    | _, _ => None
    end.
Proof.
  revert k i. induction l as [|a l IH]; intros [|b k] [|i]; simpl; try reflexivity.
  - destruct (l !! i); reflexivity.
  - apply IH.
Qed.

Lemma lookup_length_Some {A} (l : list A) (i : nat) :
  (i < List.length l)%nat -> exists a, l !! i = Some a.
Proof.
  revert i. induction l as [|a l IH]; intros [|i] H; simpl in *; try lia.
  - eauto.
  - apply IH. lia.
Qed.

Lemma lookup_Some_length {A} (l : list A) (i : nat) (a : A) :
  l !! i = Some a -> (i < List.length l)%nat.
Proof.
  revert i. induction l as [|b l IH]; intros [|i] H; simpl in *; try discriminate.
  - lia.
  - apply IH in H. lia.
Qed.

Lemma running_lookup (acc : float) (s : list float) (i : nat) (v : float) :
  s !! i = Some v ->
  pd.running acc s !! i = Some (fold_left PrimFloat.add (firstn (S i) s) acc).
Proof.
  revert acc i. induction s as [|u s IH]; intros acc [|i] H; try discriminate.
  - reflexivity.
  - simpl in H. apply (IH (acc + u) i H).
Qed.

Lemma np_cumsum_lookup (s : list float) (i : nat) (v : float) :
  s !! i = Some v -> pd.np_cumsum s !! i = Some (running_sum s i).
Proof.
  destruct s as [|u s]; [discriminate|]. destruct i as [|i]; intros H.
  - reflexivity.
  - simpl in H. apply (running_lookup u s i v H).
Qed.

Lemma cumsum_lookup (s : list float) (i : nat) (v : float) :
  s !! i = Some v ->
  pd.cumsum s !! i
  = Some (if F.isnan v then nan else running_sum (List.map fillna0 s) i).
Proof.
  intros H. unfold pd.cumsum.
  rewrite lookup_map, lookup_combine, lookup_map, H. simpl option_map.
  fold fillna0.
  rewrite (np_cumsum_lookup (List.map fillna0 s) i (fillna0 v))
    by (rewrite lookup_map, H; reflexivity).
  reflexivity.
Qed.

Lemma firstn_fillna0 (s : list float) (n : nat) :
  (forall j v, (j < n)%nat -> s !! j = Some v -> F.isnan v = false) ->
  firstn n (List.map fillna0 s) = firstn n s.
Proof.
  revert s. induction n as [|n IH]; intros [|u s] H; try reflexivity.
  simpl. f_equal.
  - unfold fillna0. rewrite (H 0%nat u); [reflexivity|lia|reflexivity].
  - apply IH. intros j v Hj Hv. apply (H (S j) v); [lia|exact Hv].
Qed.

Lemma running_sum_fillna0 (s : list float) (i : nat) :
  (forall j v, (j <= i)%nat -> s !! j = Some v -> F.isnan v = false) ->
  running_sum (List.map fillna0 s) i = running_sum s i.
Proof.
  intros H. unfold running_sum. rewrite firstn_fillna0; [reflexivity|].
  intros j v Hj. apply H. lia.
Qed.

(** C9, as the code has it. The call writes the two derived columns into
    the frame that the caller passed (adding them, or replacing them), and
    leaves the rows, and so every input column, as they were. *)
Theorem calculate_well_ip_frame (df : DataFrame) :
  rows (fst (calculate_well_ip df)) = rows df /\
  Prod_days_cum (fst (calculate_well_ip df)) = Some (pd.cumsum (col Prod_days df)) /\
  Total_prod_vol (fst (calculate_well_ip df)) = Some (List.map total_of (rows df)).
Proof.
  split; [reflexivity|]. split; [reflexivity|]. apply Total_prod_vol_prepare.
Qed.

(** C9, as stated, fails: the frame of the two-month scenario has no derived
    column before the call and both after it. *)
Lemma calculate_well_ip_adds_columns :
  Prod_days_cum two_months = None /\
  Total_prod_vol two_months = None /\
  Prod_days_cum (fst (calculate_well_ip two_months)) = Some [30; 60] /\
  Total_prod_vol (fst (calculate_well_ip two_months)) = Some [100000; 120000] /\
  fst (calculate_well_ip two_months) <> two_months.
Proof.
  split; [reflexivity|]. split; [reflexivity|].
  split; [vm_compute; reflexivity|]. split; [vm_compute; reflexivity|].
  intros E. apply (f_equal Prod_days_cum) in E. discriminate.
Qed.

(** C4, as the code has it. Preparation keeps the rows as they are (same
    months, same order), and derives two columns of the same length: the
    total produced volume of each month is its gas volume times 1000 plus
    its oil, water and condensate volumes; the cumulative producing days of
    month [i] are missing when the producing days of month [i] are missing,
    and otherwise the running sum over months [0..i] with missing values
    counted as 0, which is the plain running sum when no value up to month
    [i] is missing. *)
Theorem prepare_columns (df : DataFrame) :
  rows (prepare df) = rows df /\
  exists days_cum total,
    Prod_days_cum (prepare df) = Some days_cum /\
    Total_prod_vol (prepare df) = Some total /\
    List.length days_cum = len df /\
    List.length total = len df /\
    (forall i r, rows df !! i = Some r ->
       total !! i = Some (Gas_prod_vol r * 1000 + Oil_prod_vol r
                          + Water_prod_vol r + Cond_prod_vol r)) /\
    (forall i r, rows df !! i = Some r ->
       days_cum !! i
       = Some (if F.isnan (Prod_days r) then nan
               else running_sum (List.map fillna0 (col Prod_days df)) i)) /\
    (forall i r, rows df !! i = Some r ->
       (forall j v, (j <= i)%nat -> col Prod_days df !! j = Some v ->
                    F.isnan v = false) ->
       days_cum !! i = Some (running_sum (col Prod_days df) i)).
Proof.
  split; [reflexivity|].
  exists (pd.cumsum (col Prod_days df)), (List.map total_of (rows df)).
  split; [reflexivity|]. split; [apply Total_prod_vol_prepare|].
  split; [rewrite cumsum_length; unfold col, len; apply List.length_map|].
  split; [unfold len; apply List.length_map|].
  assert (Hd : forall i r, rows df !! i = Some r ->
                 col Prod_days df !! i = Some (Prod_days r)).
  { intros i r H. unfold col. rewrite lookup_map, H. reflexivity. }
  split; [|split].
  - intros i r H. rewrite lookup_map, H. reflexivity.
  - intros i r H. apply cumsum_lookup. auto.
  - intros i r H Hnan. rewrite (cumsum_lookup _ i (Prod_days r)) by auto.
    rewrite (Hnan i (Prod_days r)) by auto.
    now rewrite running_sum_fillna0.
Qed.

(** C4, as stated, fails where producing days are missing: with the first
    month missing and 5 days in the second, the cumulative producing days of
    the second month are 5, while the running sum of both values is NaN. *)
Lemma cumsum_skips_missing :
  col Prod_days missing_days = [nan; 5] /\
  Prod_days_cum (prepare missing_days) = Some [nan; 5] /\
  running_sum (col Prod_days missing_days) 1 = nan /\
  ~ (forall days_cum i c,
       Prod_days_cum (prepare missing_days) = Some days_cum ->
       days_cum !! i = Some c ->
       c = running_sum (col Prod_days missing_days) i).
Proof.
  split; [reflexivity|]. split; [vm_compute; reflexivity|].
  split; [vm_compute; reflexivity|].
  intros H. specialize (H [nan; 5] 1%nat 5).
  assert (E : 5 = running_sum (col Prod_days missing_days) 1).
  { apply H; [vm_compute; reflexivity|reflexivity]. }
  apply (f_equal F.isnan) in E. vm_compute in E. discriminate.
Qed.

(** ** The lookup endpoint *)

Lemma isnumeric_iff (isnumeric_char : N -> bool) (s : str) :
  isnumeric isnumeric_char s = true
  <-> s <> [] /\ List.Forall (fun c => isnumeric_char c = true) s.
Proof.
  unfold isnumeric. destruct s as [|c s].
  - split; [discriminate|]. intros [H _]. congruence.
  - rewrite List.forallb_forall, List.Forall_forall. split.
    + intros H. split; [discriminate|exact H].
    + intros [_ H]. exact H.
Qed.

Lemma encodable_iff d :
  encodable d = true
  <-> forall k f, d !! k = Some (VFloat f) -> PrimFloat.is_finite f = true.
Proof.
  unfold encodable. rewrite List.forallb_forall. split.
  - intros H k f Hk. apply (H (k, VFloat f)).
    apply list_elem_of_In, elem_of_map_to_list. exact Hk.
  - intros H [k v] Hin. apply list_elem_of_In, elem_of_map_to_list in Hin.
    destruct v as [x|n|f|]; try reflexivity. exact (H k f Hin).
Qed.

Lemma status_Returns d :
  ((forall k f, d !! k = Some (VFloat f) -> PrimFloat.is_finite f = true) ->
   status (Returns d) = 200%Z) /\
  ((exists k f, d !! k = Some (VFloat f) /\ PrimFloat.is_finite f = false) ->
   status (Returns d) = 500%Z) /\
  (status (Returns d) = 200%Z \/ status (Returns d) = 500%Z).
Proof.
  unfold status. destruct (encodable d) eqn:E.
  - split; [reflexivity|]. split; [|now left].
    intros (k & f & Hk & Hf). rewrite (proj1 (encodable_iff d) E k f Hk) in Hf.
    discriminate.
  - split; [|split; [reflexivity|now right]].
    intros H. apply encodable_iff in H. congruence.
Qed.

(** C6, on the code. [GET /api/{wa}] answers 400 with the validation
    message when [wa] is not exactly five numeric characters; otherwise 400
    when [units] (["metric"] when absent) is neither ["metric"] nor
    ["field"]; otherwise 404 when [wa] is not a key of the published
    mapping; otherwise the handler returns the dictionary, and the answer is
    200 when every float in it is finite and 500 when one is infinite.  For
    a well with a cumulative gas volume of 1.7e308 the request in field
    units is answered with 500, the same request in metric units with
    200. *)
Theorem get_api_status (isnumeric_char : N -> bool) (all_wells_ip : gmap str WellIP)
    (wa : str) (units : option str) :
  let r := get_api isnumeric_char all_wells_ip wa units in
  let valid_wa :=
    List.length wa = 5%nat /\ List.Forall (fun c => isnumeric_char c = true) wa in
  let valid_units :=
    default (pystr "metric") units = pystr "metric"
    \/ default (pystr "metric") units = pystr "field" in
  (~ valid_wa ->
     r = HTTPException 400 "WA must be 0 padded, 5 character numeric string") /\
  (valid_wa -> ~ valid_units ->
     r = HTTPException 400 "Units must be 'metric' or 'field'") /\
  (valid_wa -> valid_units -> all_wells_ip !! wa = None ->
     r = HTTPException 404 "WA not found") /\
  (valid_wa -> valid_units -> is_Some (all_wells_ip !! wa) ->
     exists d, r = Returns d /\
       ((forall k f, d !! k = Some (VFloat f) -> PrimFloat.is_finite f = true) ->
        status r = 200%Z) /\
       ((exists k f, d !! k = Some (VFloat f) /\ PrimFloat.is_finite f = false) ->
        status r = 500%Z)) /\
  (status r = 400%Z \/ status r = 404%Z \/ status r = 200%Z \/ status r = 500%Z) /\
  (exists m,
     getdata.all_wells_ip huge_gas = Ok m /\
     status (get_api ascii_digit m (pystr "39167") (Some (pystr "field"))) = 500%Z /\
     status (get_api ascii_digit m (pystr "39167") None) = 200%Z).
Proof.
  intros r valid_wa valid_units.
  assert (Hbug : exists m,
     getdata.all_wells_ip huge_gas = Ok m /\
     status (get_api ascii_digit m (pystr "39167") (Some (pystr "field"))) = 500%Z /\
     status (get_api ascii_digit m (pystr "39167") None) = 200%Z).
  { eexists. split; [vm_compute; reflexivity|]. split; vm_compute; reflexivity. }
  subst r. unfold get_api, ip.
  set (u := default (pystr "metric") units) in *.
  assert (Hwa : negb (Nat.eqb (List.length wa) 5) || negb (isnumeric isnumeric_char wa)
                = false <-> valid_wa).
  { unfold valid_wa. rewrite orb_false_iff, !negb_false_iff, Nat.eqb_eq, isnumeric_iff.
    split; [tauto|]. intros [H1 H2]. repeat split; try assumption;
      try (intros ->; discriminate). }
  assert (Hu : negb (bool_decide (u ∈ [pystr "metric"; pystr "field"])) = false
               <-> valid_units).
  { unfold valid_units. rewrite negb_false_iff, bool_decide_eq_true.
    rewrite !elem_of_cons, elem_of_nil. tauto. }
  destruct (negb (Nat.eqb (List.length wa) 5) || negb (isnumeric isnumeric_char wa)) eqn:E1.
  { assert (~ valid_wa) by (rewrite <- Hwa; congruence).
    repeat split; try tauto; simpl; auto. }
  assert (valid_wa) by (apply Hwa; reflexivity).
  destruct (negb (bool_decide (u ∈ [pystr "metric"; pystr "field"]))) eqn:E2.
  { assert (~ valid_units) by (rewrite <- Hu; congruence).
    repeat split; try tauto; simpl; auto. }
  assert (valid_units) by (apply Hu; reflexivity).
  destruct (all_wells_ip !! wa) as [w|] eqn:E3.
  - destruct (status_Returns (nan_to_none <$> wellip_to_dict w u)) as (S1 & S2 & S3).
    split; [tauto|]. split; [tauto|]. split; [congruence|].
    split; [intros _ _ _; eexists; split; [reflexivity|split; assumption]|].
    split; [tauto|exact Hbug].
  - split; [tauto|]. split; [tauto|]. split; [reflexivity|].
    split; [intros _ _ [w Hw]; discriminate|]. split; [simpl; auto|exact Hbug].
Qed.

(** ** The dictionaries *)

Lemma metric_dict_ip w s m :
  metric_dict w !! ip_key_metric s m = Some (VFloat (ip_value w s m)).
Proof. destruct s, m; reflexivity. Qed.

Lemma field_dict_ip w s m :
  field_dict w !! ip_key_field s m = Some (VFloat (to_field_ip s (ip_value w s m))).
Proof. destruct s, m; reflexivity. Qed.

Lemma metric_dict_cum w s :
  metric_dict w !! cum_key_metric s = Some (VFloat (cum_value w s)).
Proof. destruct s; reflexivity. Qed.

Lemma field_dict_cum w s :
  field_dict w !! cum_key_field s = Some (VFloat (to_field_cum s (cum_value w s))).
Proof. destruct s; reflexivity. Qed.

Lemma dict_common w k :
  k ∈ common_keys ->
  metric_dict w !! k = field_dict w !! k /\ is_Some (metric_dict w !! k).
Proof.
  unfold common_keys. rewrite !elem_of_cons, elem_of_nil.
  intros [->|[->|[->|[->|[->|[]]]]]]; (split; [reflexivity|eexists; reflexivity]).
Qed.

Lemma wellip_to_dict_metric w : wellip_to_dict w (pystr "metric") = round_value <$> metric_dict w.
Proof. reflexivity. Qed.

Lemma wellip_to_dict_field w : wellip_to_dict w (pystr "field") = round_value <$> field_dict w.
Proof. reflexivity. Qed.

(** C5, as the code has it. Both results are computed from the unrounded
    values of the record: a volumetric field of the "metric" result is the
    value rounded to one decimal, the corresponding field of the "field"
    result is the value times its documented factor (6.29, or 35.315 for
    gas, the gas total times 0.001 as well), rounded to one decimal; the
    fields without a volume are the same in both. *)
Theorem units_conversion (w : WellIP) :
  (forall s m,
     wellip_to_dict w (pystr "metric") !! ip_key_metric s m
       = Some (VFloat (py.round1 (ip_value w s m))) /\
     wellip_to_dict w (pystr "field") !! ip_key_field s m
       = Some (VFloat (py.round1 (to_field_ip s (ip_value w s m))))) /\
  (forall s,
     wellip_to_dict w (pystr "metric") !! cum_key_metric s
       = Some (VFloat (py.round1 (cum_value w s))) /\
     wellip_to_dict w (pystr "field") !! cum_key_field s
       = Some (VFloat (py.round1 (to_field_cum s (cum_value w s))))) /\
  (forall k, k ∈ common_keys ->
     wellip_to_dict w (pystr "metric") !! k = wellip_to_dict w (pystr "field") !! k /\
     is_Some (wellip_to_dict w (pystr "metric") !! k)).
Proof.
  rewrite wellip_to_dict_metric, wellip_to_dict_field.
  split; [|split].
  - intros s m. rewrite !lookup_fmap, metric_dict_ip, field_dict_ip. split; reflexivity.
  - intros s. rewrite !lookup_fmap, metric_dict_cum, field_dict_cum. split; reflexivity.
  - intros k Hk. destruct (dict_common w k Hk) as [E [v Hv]].
    rewrite !lookup_fmap, <- E, Hv. split; [reflexivity|eexists; reflexivity].
Qed.

(** C5, as stated, fails: for an oil IP30 of 0.04 m3/d the "metric" result
    holds 0.0 and the "field" result 0.3, while 0.0 converted by 6.29 is
    0.0, also after rounding. *)
Lemma rounded_metric_does_not_convert :
  wellip_to_dict small_oil (pystr "metric") !! "Oil IP 30 (m3/d)" = Some (VFloat 0) /\
  wellip_to_dict small_oil (pystr "field") !! "Oil IP 30 (bbl/d)" = Some (VFloat 0.3) /\
  py.round1 (to_field_ip Oil 0) = 0 /\
  py.round1 (to_field_ip Oil 0) <> 0.3.
Proof.
  split; [vm_compute; reflexivity|]. split; [vm_compute; reflexivity|].
  split; [vm_compute; reflexivity|].
  intros E. apply (f_equal (fun x => x =? 0)) in E. vm_compute in E. discriminate.
Qed.

(** ** The response *)

Lemma div_half_even_near n d :
  (0 <= n)%Z -> (0 < d)%Z ->
  (0 <= py.div_half_even n d)%Z
  /\ (2 * Z.abs (n - py.div_half_even n d * d) <= d)%Z.
Proof.
  intros Hn Hd. unfold py.div_half_even.
  pose proof (Z.div_mod n d ltac:(lia)) as E.
  pose proof (Z.mod_pos_bound n d Hd) as Hr.
  pose proof (Z.div_pos n d Hn Hd) as Hq.
  destruct (Z.compare_spec (2 * (n mod d)) d) as [C|C|C];
    [destruct (Z.even (n / d))| |]; split; try lia; nia.
Qed.

(** What [round(x, 1)] returns is [x] rounded to 1 decimal place. *)
Lemma round1_rounded x : rounded_to_1_decimal x (py.round1 x).
Proof.
  unfold rounded_to_1_decimal, py.round1.
  destruct (Prim2SF x) as [s|s| |s m e]; try reflexivity.
  destruct (Z.leb_spec 0 e) as [He|He]; [reflexivity|].
  exists (py.div_half_even (10 * Zpos m) (2 ^ (- e))).
  assert (Hd : (0 < 2 ^ (- e))%Z) by (apply Z.pow_pos_nonneg; lia).
  destruct (div_half_even_near (10 * Zpos m) (2 ^ (- e)) ltac:(lia) Hd) as [H1 H2].
  split; [exact H1|]. split; [exact H2|].
  unfold tenths. now destruct (py.div_half_even _ _).
Qed.

Lemma nan_to_none_round_float v f :
  nan_to_none (round_value v) = VFloat f ->
  F.isnan f = false /\ exists x, v = VFloat x /\ f = py.round1 x.
Proof.
  destruct v as [s|n|g|]; unfold nan_to_none; simpl; try discriminate.
  destruct (negb (py.round1 g =? py.round1 g)) eqn:E; [discriminate|].
  intros H. injection H as <-. split; [exact E|eauto].
Qed.

Lemma nan_to_none_round_nan :
  nan_to_none (round_value (VFloat nan)) = VNone.
Proof. vm_compute. reflexivity. Qed.

Lemma to_field_ip_nan s : to_field_ip s nan = nan.
Proof. destruct s; vm_compute; reflexivity. Qed.

(** C7. The dictionary of a 200 response holds WA, UWI, the first and last
    production month, the cumulative producing days, the four cumulative
    totals and the sixteen IP values; every float in it is finite, so not
    NaN, and is the value of the record for its key, converted for the unit
    system, rounded to 1 decimal place; an IP value that is "not available"
    in the record is present under its key as [None], the JSON null. *)
Theorem response_fields (isnumeric_char : N -> bool) (all_wells_ip : gmap str WellIP)
    (wa : str) (units : option str) :
  status (get_api isnumeric_char all_wells_ip wa units) = 200%Z ->
  let u := default (pystr "metric") units in
  exists w d,
    all_wells_ip !! wa = Some w /\
    get_api isnumeric_char all_wells_ip wa units = Returns d /\
    (forall k, k ∈ common_keys -> is_Some (d !! k)) /\
    (forall s, is_Some (d !! cum_key u s)) /\
    (forall s m, is_Some (d !! ip_key u s m)) /\
    (forall k f, d !! k = Some (VFloat f) ->
       PrimFloat.is_finite f = true /\ F.isnan f = false /\
       exists x, unrounded w u !! k = Some (VFloat x) /\ rounded_to_1_decimal x f) /\
    (forall s m, F.isnan (ip_value w s m) = true -> d !! ip_key u s m = Some VNone).
Proof.
  intros H. cbv zeta. unfold get_api, ip in *.
  set (u := default (pystr "metric") units) in *.
  destruct (negb (Nat.eqb (List.length wa) 5) || negb (isnumeric isnumeric_char wa));
    [discriminate|].
  destruct (negb (bool_decide (u ∈ [pystr "metric"; pystr "field"]))) eqn:Hu;
    [discriminate|].
  destruct (all_wells_ip !! wa) as [w|]; [|discriminate].
  exists w, (nan_to_none <$> wellip_to_dict w u).
  split; [reflexivity|]. split; [reflexivity|].
  assert (He : encodable (nan_to_none <$> wellip_to_dict w u) = true).
  { unfold status in H. now destruct (encodable _). }
  apply negb_false_iff, bool_decide_eq_true in Hu.
  rewrite !elem_of_cons, elem_of_nil in Hu.
  assert (Hfloat : forall k f,
            (nan_to_none <$> wellip_to_dict w u) !! k = Some (VFloat f) ->
            PrimFloat.is_finite f = true /\ F.isnan f = false /\
            exists x, unrounded w u !! k = Some (VFloat x) /\ rounded_to_1_decimal x f).
  { intros k f Hk. split; [exact (proj1 (encodable_iff _) He k f Hk)|].
    revert Hk. unfold wellip_to_dict. rewrite !lookup_fmap.
    change (if decide (u = pystr "field") then field_dict w else metric_dict w)
      with (unrounded w u).
    destruct (unrounded w u !! k) as [v|]; [|discriminate]. simpl.
    intros E. injection E as E.
    destruct (nan_to_none_round_float v f E) as (Hn & x & -> & ->).
    split; [exact Hn|]. exists x. split; [reflexivity|apply round1_rounded]. }
  destruct Hu as [Hu|[Hu|[]]]; rewrite Hu in *; clear Hu.
  - rewrite wellip_to_dict_metric.
    change (cum_key (pystr "metric")) with cum_key_metric.
    change (ip_key (pystr "metric")) with ip_key_metric.
    split; [|split; [|split; [|split]]].
    + intros k Hk. destruct (dict_common w k Hk) as [_ [v Hv]].
      rewrite !lookup_fmap, Hv. eexists; reflexivity.
    + intros s. rewrite !lookup_fmap, metric_dict_cum. eexists; reflexivity.
    + intros s m. rewrite !lookup_fmap, metric_dict_ip. eexists; reflexivity.
    + intros k f Hk. apply Hfloat. now rewrite wellip_to_dict_metric.
    + intros s m Hn. apply isnan_nan in Hn.
      rewrite !lookup_fmap, metric_dict_ip, Hn.
      exact (f_equal Some nan_to_none_round_nan).
  - rewrite wellip_to_dict_field.
    change (cum_key (pystr "field")) with cum_key_field.
    change (ip_key (pystr "field")) with ip_key_field.
    split; [|split; [|split; [|split]]].
    + intros k Hk. destruct (dict_common w k Hk) as [E [v Hv]].
      rewrite !lookup_fmap, <- E, Hv. eexists; reflexivity.
    + intros s. rewrite !lookup_fmap, field_dict_cum. eexists; reflexivity.
    + intros s m. rewrite !lookup_fmap, field_dict_ip. eexists; reflexivity.
    + intros k f Hk. apply Hfloat. now rewrite wellip_to_dict_field.
    + intros s m Hn. apply isnan_nan in Hn.
      rewrite !lookup_fmap, field_dict_ip, Hn, to_field_ip_nan.
      exact (f_equal Some nan_to_none_round_nan).
Qed.

Lemma response_fields_witness :
  let u := default (pystr "metric") (Some (pystr "field")) in
  exists w d,
    wells !! pystr "39167" = Some w /\
    get_api ascii_digit wells (pystr "39167") (Some (pystr "field")) = Returns d /\
    (forall k, k ∈ common_keys -> is_Some (d !! k)) /\
    (forall s, is_Some (d !! cum_key u s)) /\
    (forall s m, is_Some (d !! ip_key u s m)) /\
    (forall k f, d !! k = Some (VFloat f) ->
       PrimFloat.is_finite f = true /\ F.isnan f = false /\
       exists x, unrounded w u !! k = Some (VFloat x) /\ rounded_to_1_decimal x f) /\
    (forall s m, F.isnan (ip_value w s m) = true -> d !! ip_key u s m = Some VNone).
Proof.
  refine (response_fields ascii_digit wells (pystr "39167") (Some (pystr "field")) _).
  vm_compute. reflexivity.
Defined.

(** ** The sorted knots *)

Lemma isnan_ltb_l x y : F.isnan x = true -> (x <? y) = false.
Proof.
  intros H. destruct (x <? y) eqn:E; [|reflexivity].
  apply ltb_not_nan in E. destruct E; congruence.
Qed.

Lemma isnan_ltb_r x y : F.isnan y = true -> (x <? y) = false.
Proof.
  intros H. destruct (x <? y) eqn:E; [|reflexivity].
  apply ltb_not_nan in E. destruct E; congruence.
Qed.

Lemma sort_lt_asym a b : F.sort_lt a b = true -> F.sort_lt b a = false.
Proof.
  unfold F.sort_lt. intros H. apply orb_true_iff in H as [H|H].
  - destruct (ltb_not_nan _ _ H) as [Ha Hb]. rewrite Ha, Hb. simpl.
    rewrite orb_false_r. apply leb_not_ltb, ltb_leb, H.
  - apply andb_true_iff in H as [Hb Ha]. apply negb_true_iff in Ha.
    rewrite Ha, Hb. simpl. rewrite orb_false_r. now apply isnan_ltb_l.
Qed.

Lemma sort_le_nan_r a b : F.isnan b = true -> sort_le a b = true.
Proof.
  intros H. unfold sort_le, F.sort_lt. rewrite H, (isnan_ltb_l b a H).
  destruct (F.isnan a); reflexivity.
Qed.

Lemma sort_le_leb a b :
  F.isnan b = false -> sort_le a b = true -> (a <=? b) = true.
Proof.
  unfold sort_le, F.sort_lt. intros Hb H. rewrite Hb in H.
  apply negb_true_iff, orb_false_iff in H as [H1 H2].
  destruct (F.isnan a) eqn:Ha; [discriminate|]. now apply not_ltb_leb.
Qed.

Lemma leb_sort_le a b : (a <=? b) = true -> sort_le a b = true.
Proof.
  intros H. unfold sort_le, F.sort_lt. destruct (leb_not_nan _ _ H) as [Ha Hb].
  rewrite Ha, (leb_not_ltb _ _ H). reflexivity.
Qed.

Lemma sort_le_trans a b c :
  sort_le a b = true -> sort_le b c = true -> sort_le a c = true.
Proof.
  intros Hab Hbc. destruct (F.isnan c) eqn:Hc; [now apply sort_le_nan_r|].
  pose proof (sort_le_leb b c Hc Hbc) as Lbc.
  destruct (leb_not_nan _ _ Lbc) as [Hb _].
  pose proof (sort_le_leb a b Hb Hab) as Lab.
  apply leb_sort_le. exact (leb_trans a b c Lab Lbc).
Qed.

Lemma Forall_insert (P : float * float -> Prop) k l :
  P k -> List.Forall P l -> List.Forall P (interpolate.insert k l).
Proof.
  intros Hk Hl. induction l as [|h t IH]; simpl.
  - constructor; [exact Hk|constructor].
  - inversion Hl; subst. destruct (F.sort_lt (fst h) (fst k)).
    + constructor; [assumption|apply IH; assumption].
    + constructor; [exact Hk|exact Hl].
Qed.

Lemma insert_sorted k l : sorted l -> sorted (interpolate.insert k l).
Proof.
  induction l as [|h t IH]; intros Hs.
  - simpl. split; constructor.
  - destruct Hs as [Hh Ht]. simpl.
    destruct (F.sort_lt (fst h) (fst k)) eqn:E.
    + split; [|apply IH, Ht].
      apply Forall_insert; [|exact Hh].
      unfold sort_le. now rewrite (sort_lt_asym _ _ E).
    + assert (Hkh : sort_le (fst k) (fst h) = true) by (unfold sort_le; now rewrite E).
      split; [|split; assumption].
      constructor; [exact Hkh|].
      eapply List.Forall_impl; [|exact Hh].
      intros k' Hk'. simpl in Hk'. exact (sort_le_trans _ _ _ Hkh Hk').
Qed.

Lemma sort_sorted l : sorted (interpolate.sort l).
Proof.
  induction l as [|k l IH]; simpl; [exact I|]. now apply insert_sorted.
Qed.

Lemma sorted_app_inv l1 k l2 :
  sorted (l1 ++ k :: l2) ->
  List.Forall (fun k' => sort_le (fst k') (fst k) = true) l1 /\ sorted (k :: l2).
Proof.
  induction l1 as [|h t IH]; intros Hs.
  - split; [constructor|exact Hs].
  - destruct Hs as [Hh Ht]. destruct (IH Ht) as [IH1 IH2]. split; [|exact IH2].
    constructor; [|exact IH1].
    apply List.Forall_app in Hh as [_ Hh]. now inversion Hh.
Qed.

Lemma sorted_le_last x0 y0 rest :
  sorted ((x0, y0) :: rest) ->
  sort_le x0 (last_x ((x0, y0) :: rest)) = true \/ rest = [].
Proof.
  intros [Hh _]. destruct rest as [|k rest'] using List.rev_ind; [now right|left].
  unfold last_x. rewrite List.map_cons, last_cons_default, List.map_app.
  change (List.map fst [k]) with [fst k]. rewrite List.last_last.
  apply List.Forall_app in Hh as [_ Hh]. now inversion Hh.
Qed.

Lemma sort_le_refl a : sort_le a a = true.
Proof.
  unfold sort_le, F.sort_lt. destruct (F.isnan a) eqn:Ha.
  - now rewrite (isnan_ltb_l a a Ha).
  - rewrite andb_false_l, orb_false_r.
    apply negb_true_iff, leb_not_ltb, leb_refl, Ha.
Qed.

Lemma last_x_cons k k' l : last_x (k :: k' :: l) = last_x (k' :: l).
Proof. reflexivity. Qed.

Lemma sorted_all_le_last l :
  sorted l -> List.Forall (fun k => sort_le (fst k) (last_x l) = true) l.
Proof.
  induction l as [|k t IH]; intros Hs; [constructor|].
  destruct Hs as [Hk Ht]. destruct t as [|k' t'].
  - constructor; [apply sort_le_refl|constructor].
  - rewrite last_x_cons. specialize (IH Ht).
    apply List.Forall_cons_iff in Hk as [Hk _].
    apply List.Forall_cons_iff in IH as [IH0 IH]. simpl in Hk, IH0.
    constructor; [exact (sort_le_trans _ _ _ Hk IH0)|].
    constructor; assumption.
Qed.

Lemma sort_le_not_nan a b :
  sort_le a b = true -> F.isnan b = false -> F.isnan a = false.
Proof.
  intros H Hb. apply (sort_le_leb a b Hb) in H. now apply leb_not_nan in H.
Qed.

Lemma sorted_not_nan l :
  sorted l -> F.isnan (last_x l) = false ->
  List.Forall (fun k => F.isnan (fst k) = false) l.
Proof.
  intros Hs Hl. eapply List.Forall_impl; [|apply sorted_all_le_last, Hs].
  intros k Hk. simpl in Hk. exact (sort_le_not_nan _ _ Hk Hl).
Qed.

(** ** The bracket search *)

Lemma bracket_skip m x0 y0 l1 x y l2 :
  List.Forall (fun k => (fst k <=? m) = true) l1 -> (x <=? m) = true ->
  bracket m x0 y0 (l1 ++ (x, y) :: l2) = bracket m x y l2.
Proof.
  revert x0 y0. induction l1 as [|[x1 y1] l1 IH]; intros x0 y0 Hl Hx; simpl.
  - now rewrite Hx.
  - apply List.Forall_cons_iff in Hl as [Hh Ht]. simpl in Hh. rewrite Hh.
    now apply IH.
Qed.

Lemma bracket_stop m x y l2 :
  (x =? m) = true ->
  match l2 with [] => True | k :: _ => (m <? fst k) = true end ->
  bracket m x y l2 = y.
Proof.
  intros Hx H. destruct l2 as [|[x1 y1] l2]; [reflexivity|]. simpl in *.
  now rewrite (ltb_not_leb _ _ H), Hx.
Qed.

Lemma bracket_interpolates m l1 x0 y0 rest :
  (x0 <=? m) = true ->
  List.Forall (fun k => F.isnan (fst k) = false) rest ->
  (m <=? last_x ((x0, y0) :: rest)) = true ->
  interpolates (l1 ++ (x0, y0) :: rest) m (bracket m x0 y0 rest).
Proof.
  revert l1 x0 y0. induction rest as [|[x1 y1] rest IH]; intros l1 x0 y0 H0 Hn Hl.
  - simpl. apply (interpolates_knot _ _ x0 y0).
    + apply List.in_or_app. right. now left.
    + apply leb_antisym; assumption.
  - apply List.Forall_cons_iff in Hn as [Hn1 Hn]. simpl in Hn1. simpl bracket.
    destruct (x1 <=? m) eqn:E1.
    + replace (l1 ++ (x0, y0) :: (x1, y1) :: rest)
        with ((l1 ++ [(x0, y0)]) ++ (x1, y1) :: rest)
        by (now rewrite <- List.app_assoc).
      apply IH; assumption.
    + destruct (x0 =? m) eqn:E0.
      * apply (interpolates_knot _ _ x0 y0); [|exact E0].
        apply List.in_or_app. right. now left.
      * apply (interpolates_between _ _ l1 x0 y0 x1 y1 rest eq_refl).
        -- now apply leb_neq_ltb.
        -- apply not_leb_ltb; [|assumption|assumption].
           now apply leb_not_nan in H0.
Qed.

Lemma eval_in_range knots m :
  sorted knots ->
  (first_x knots <=? m) = true -> (m <=? last_x knots) = true ->
  interpolates knots m (eval_knots knots m).
Proof.
  intros Hs Hf Hl. destruct knots as [|[x0 y0] rest].
  { apply leb_not_nan in Hf as [Hf _]. vm_compute in Hf. discriminate. }
  unfold eval_knots. unfold first_x in Hf. simpl in Hf.
  rewrite (leb_not_ltb _ _ Hl), (leb_not_ltb _ _ Hf).
  apply (bracket_interpolates m [] x0 y0 rest); [assumption| |assumption].
  assert (Hnn : F.isnan (last_x ((x0, y0) :: rest)) = false)
    by now apply leb_not_nan in Hl.
  pose proof (sorted_not_nan _ Hs Hnn) as Hall.
  now apply List.Forall_cons_iff in Hall as [_ Hall].
Qed.

Lemma eval_outside knots m :
  (m <? first_x knots) = true \/ (last_x knots <? m) = true ->
  eval_knots knots m = nan.
Proof.
  destruct knots as [|[x0 y0] rest]; [reflexivity|].
  unfold eval_knots, first_x. simpl List.hd. intros [H|H]; rewrite H.
  - now destruct (_ <? m).
  - reflexivity.
Qed.

Lemma eval_at_knot knots l1 x y l2 m :
  sorted knots -> knots = l1 ++ (x, y) :: l2 ->
  (x =? m) = true ->
  match l2 with [] => True | k :: _ => (m <? fst k) = true end ->
  eval_knots knots m = y.
Proof.
  intros Hs -> Hx Hnext.
  destruct (eqb_not_nan _ _ Hx) as [Hxn Hmn].
  pose proof (eqb_leb _ _ Hx) as Hxm.
  assert (Hmx : (m <=? x) = true) by (apply eqb_leb; now rewrite eqb_sym).
  destruct (sorted_app_inv _ _ _ Hs) as [Hl1 Hs2].
  assert (Hl1m : List.Forall (fun k => (fst k <=? m) = true) l1).
  { eapply List.Forall_impl; [|exact Hl1]. intros k Hk. simpl in Hk.
    eapply leb_trans; [apply (sort_le_leb _ _ Hxn Hk)|exact Hxm]. }
  assert (Habove : (last_x (l1 ++ (x, y) :: l2) <? m) = false).
  { assert (E : last_x (l1 ++ (x, y) :: l2) = last_x ((x, y) :: l2)).
    { unfold last_x. rewrite List.map_app.
      destruct (List.map fst ((x, y) :: l2)) as [|a t] eqn:Ea; [discriminate|].
      clear. induction (List.map fst l1) as [|b u IH]; [reflexivity|].
      simpl. destruct (u ++ a :: t) eqn:Eu; [destruct u; discriminate|exact IH]. }
    rewrite E. destruct l2 as [|[x1 y1] l2].
    - unfold last_x. simpl. now apply leb_not_ltb.
    - simpl in Hnext. rewrite last_x_cons.
      destruct (F.isnan (last_x ((x1, y1) :: l2))) eqn:Hn;
        [now apply isnan_ltb_l|].
      destruct Hs2 as [_ Hs3].
      pose proof (sorted_all_le_last _ Hs3) as Hall.
      apply List.Forall_cons_iff in Hall as [Hall _]. simpl in Hall.
      apply leb_not_ltb.
      eapply leb_trans; [apply ltb_leb, Hnext|now apply sort_le_leb]. }
  destruct l1 as [|[x0 y0] l1].
  - simpl List.app in *. unfold eval_knots. rewrite Habove.
    rewrite (leb_not_ltb _ _ Hxm). now apply bracket_stop.
  - simpl List.app in *. unfold eval_knots. rewrite Habove.
    apply List.Forall_cons_iff in Hl1m as [Hh Ht]. simpl in Hh.
    rewrite (leb_not_ltb _ _ Hh).
    rewrite bracket_skip by assumption. now apply bracket_stop.
Qed.

(** ** numpy's search *)

Lemma linear_search_count key l i :
  np.linear_search key l i = (i - 1 + Z.of_nat (count_le key l))%Z.
Proof.
  revert i. induction l as [|a l IH]; intros i; simpl; [lia|].
  destruct (a <=? key); [rewrite IH|]; lia.
Qed.

Lemma item_cons a l i : (0 <= i)%Z -> np.item (a :: l) (i + 1) = np.item l i.
Proof.
  intros H. unfold np.item.
  replace (Z.to_nat (i + 1)) with (S (Z.to_nat i)) by lia. reflexivity.
Qed.

Lemma item_map_fst (knots : list (float * float)) i :
  np.item (List.map fst knots) i = fst (List.nth (Z.to_nat i) knots (nan, nan)).
Proof. unfold np.item. exact (List.map_nth (@fst float float) knots (nan, nan) (Z.to_nat i)). Qed.

Lemma count_le_lt key l i :
  (i < count_le key l)%nat -> (List.nth i l nan <=? key) = true.
Proof.
  revert i. induction l as [|a l IH]; intros i H; simpl in *; [lia|].
  destruct (a <=? key) eqn:E; [|lia]. destruct i; [exact E|]. apply IH. lia.
Qed.

Lemma count_le_length key l : (count_le key l <= List.length l)%nat.
Proof.
  induction l as [|a l IH]; simpl; [lia|]. destruct (a <=? key); simpl; lia.
Qed.

Lemma count_le_mono key key' l :
  (key <=? key') = true -> (count_le key l <= count_le key' l)%nat.
Proof.
  intros H. induction l as [|a l IH]; simpl; [lia|].
  destruct (a <=? key) eqn:E; [|lia].
  rewrite (leb_trans _ _ _ E H). lia.
Qed.

Lemma sorted_nth_le knots i j :
  sorted knots -> (i <= j < List.length knots)%nat ->
  sort_le (List.nth i (List.map fst knots) nan) (List.nth j (List.map fst knots) nan) = true.
Proof.
  revert i j. induction knots as [|k t IH]; intros i j Hs H; simpl in H; [lia|].
  destruct Hs as [Hk Ht]. destruct j as [|j].
  - replace i with O by lia. apply sort_le_refl.
  - destruct i as [|i].
    + simpl. rewrite List.Forall_forall in Hk.
      pose proof (List.map_nth (@fst float float) t (nan, nan) j) as E.
      cbn [fst] in E. rewrite E.
      apply Hk. apply List.nth_In. lia.
    + simpl. apply IH; [exact Ht|lia].
Qed.

Lemma count_le_ge knots key i :
  sorted knots ->
  (count_le key (List.map fst knots) <= i < List.length knots)%nat ->
  (List.nth i (List.map fst knots) nan <=? key) = false.
Proof.
  intros Hs [H1 H2].
  destruct (List.nth i (List.map fst knots) nan <=? key) eqn:E; [exfalso|reflexivity].
  set (c := count_le key (List.map fst knots)) in *.
  assert (Hc : (List.nth c (List.map fst knots) nan <=? key) = true).
  { pose proof (sorted_nth_le knots c i Hs ltac:(lia)) as Hle.
    destruct (leb_not_nan _ _ E) as [Hn _].
    exact (leb_trans _ _ _ (sort_le_leb _ _ Hn Hle) E). }
  clear - Hc H1 H2. subst c. revert i H1 H2 Hc.
  induction knots as [|k t IH]; intros i H1 H2 Hc; simpl in *; [lia|].
  destruct (fst k <=? key) eqn:Ek; [|congruence].
  simpl in Hc. destruct i; [lia|]. apply (IH i); [lia|lia|exact Hc].
Qed.

(** Within a sorted table whose first abscissa is at most [key], the
    elements at most [key] are those up to the index of the reading. *)
Lemma le_key_iff knots key :
  sorted knots ->
  (np.item (List.map fst knots) 0 <=? key) = true ->
  forall i, (0 <= i < Z.of_nat (List.length knots))%Z ->
    (np.item (List.map fst knots) i <=? key) = true
    <-> (i < scan_index key (List.map fst knots) + 1)%Z.
Proof.
  intros Hs H0 i Hi.
  assert (Hc : (scan_index key (List.map fst knots) + 1)%Z
               = Z.of_nat (count_le key (List.map fst knots))).
  { unfold scan_index. destruct knots as [|k t]; [simpl in Hi; lia|].
    unfold np.item in H0. simpl in H0. simpl. rewrite H0. lia. }
  rewrite Hc. unfold np.item. split.
  - intros E. destruct (Z_lt_le_dec i (Z.of_nat (count_le key (List.map fst knots))))
      as [Hlt|Hge]; [exact Hlt|].
    rewrite (count_le_ge knots key (Z.to_nat i) Hs) in E by lia. discriminate.
  - intros Hlt. apply count_le_lt. lia.
Qed.

Lemma scan_index_range (knots : list (float * float)) key :
  (0 <= scan_index key (List.map fst knots))%Z /\
  (knots <> [] ->
   (scan_index key (List.map fst knots) + 1 <= Z.of_nat (List.length knots))%Z).
Proof.
  unfold scan_index. split; [lia|]. intros Hne.
  destruct knots as [|k t]; [congruence|]. simpl List.tl.
  pose proof (count_le_length key (List.map fst t)) as H.
  rewrite List.length_map in H. simpl List.length. lia.
Qed.

Lemma sorted_item_real knots i j :
  sorted knots -> (0 <= i <= j)%Z -> (j < Z.of_nat (List.length knots))%Z ->
  F.isnan (np.item (List.map fst knots) j) = false ->
  F.isnan (np.item (List.map fst knots) i) = false.
Proof.
  intros Hs Hij Hj Hn. unfold np.item in *.
  apply (sort_le_not_nan _ _ (sorted_nth_le knots (Z.to_nat i) (Z.to_nat j) Hs ltac:(lia)) Hn).
Qed.

Lemma bisect_spec key arr cnt :
  (forall i, (0 <= i < Z.of_nat (List.length arr))%Z ->
     (np.item arr i <=? key) = true <-> (i < cnt)%Z) ->
  forall fuel imin imax,
    (0 <= imin <= cnt)%Z -> (cnt <= imax <= Z.of_nat (List.length arr))%Z ->
    (imax - imin <= Z.of_nat fuel)%Z ->
    np.bisect fuel key arr imin imax = cnt.
Proof.
  intros HP. induction fuel as [|fuel IH]; intros imin imax H1 H2 Hf; simpl.
  - lia.
  - destruct (Z.ltb_spec imin imax) as [Hlt|Hge]; [|lia].
    rewrite Z.shiftr_div_pow2 by lia. change (2 ^ 1)%Z with 2%Z.
    assert (Hmid : (imin <= imin + (imax - imin) / 2 < imax)%Z).
    { pose proof (Z.div_pos (imax - imin) 2 ltac:(lia) ltac:(lia)).
      pose proof (Z.div_lt_upper_bound (imax - imin) 2 (imax - imin) ltac:(lia) ltac:(lia)).
      lia. }
    set (imid := (imin + (imax - imin) / 2)%Z) in *.
    destruct (np.item arr imid <=? key) eqn:E.
    + apply HP in E; [|lia]. apply IH; lia.
    + assert (~ (imid < cnt)%Z) by (intros C; apply HP in C; [congruence|lia]).
      apply IH; lia.
Qed.


(** One search of a sorted table finds the index of the left-to-right
    reading: always on a table of at most 4 elements, and on a longer one
    when the element at the guess is a number and, unless the key lies
    before it, the element after the guess is a number too. *)
Lemma search_scan knots key g :
  sorted knots ->
  F.isnan key = false ->
  (np.item (List.map fst knots) (Z.of_nat (List.length knots) - 1) <? key) = false ->
  (key <? np.item (List.map fst knots) 0) = false ->
  (Z.of_nat (List.length knots) <= 4)%Z
  \/ (F.isnan (np.item (List.map fst knots) (clamp (Z.of_nat (List.length knots)) g)) = false
      /\ ((key <? np.item (List.map fst knots) (clamp (Z.of_nat (List.length knots)) g)) = true
          \/ F.isnan (np.item (List.map fst knots)
                        (clamp (Z.of_nat (List.length knots)) g + 1)) = false)) ->
  np.binary_search_with_guess key (List.map fst knots) g
  = scan_index key (List.map fst knots).
Proof.
  intros Hs Hkey Habove Hbelow Hcond.
  unfold np.binary_search_with_guess. rewrite List.length_map.
  set (len := Z.of_nat (List.length knots)) in *.
  set (arr := List.map fst knots) in *.
  rewrite Habove, Hbelow.
  destruct (Z.leb_spec len 4) as [Hshort|Hlong].
  { rewrite linear_search_count. unfold scan_index. lia. }
  destruct Hcond as [Hc|[Hg Hnext]]; [lia|].
  change (if (if (len - 3 <? g)%Z then (len - 3)%Z else g) <? 1
          then 1 else if (len - 3 <? g)%Z then (len - 3)%Z else g)%Z
    with (clamp len g).
  set (g' := clamp len g) in *.
  assert (Hg' : (1 <= g' <= len - 3)%Z).
  { subst g'. unfold clamp.
    destruct (Z.ltb_spec (len - 3) g);
      [destruct (Z.ltb_spec (len - 3) 1)|destruct (Z.ltb_spec g 1)]; lia. }
  assert (Hreal : forall i, (0 <= i <= g')%Z -> F.isnan (np.item arr i) = false).
  { intros i Hi. apply (sorted_item_real knots i g' Hs); [lia|fold len; lia|exact Hg]. }
  assert (H0 : (np.item arr 0 <=? key) = true).
  { apply not_ltb_leb; [apply Hreal; lia|exact Hkey|exact Hbelow]. }
  pose proof (le_key_iff knots key Hs H0) as HP. fold arr len in HP.
  destruct (scan_index_range knots key) as [Hc0 Hc1]. fold arr in Hc0, Hc1.
  assert (Hne : knots <> []) by (intros ->; simpl in len; lia).
  specialize (Hc1 Hne). fold len in Hc1.
  set (c := scan_index key arr) in *.
  assert (HQt : forall i, (0 <= i < len)%Z -> (key <? np.item arr i) = true -> (c + 1 <= i)%Z).
  { intros i Hi E. apply ltb_not_leb in E.
    destruct (Z_lt_le_dec i (c + 1)) as [C|C]; [|exact C].
    apply HP in C; [congruence|exact Hi]. }
  assert (HQf : forall i, (0 <= i < len)%Z -> F.isnan (np.item arr i) = false ->
                          (key <? np.item arr i) = false -> (i < c + 1)%Z).
  { intros i Hi Hn E. apply HP; [exact Hi|]. now apply not_ltb_leb. }
  assert (HB : forall imin imax, (0 <= imin <= c + 1)%Z -> (c + 1 <= imax <= len)%Z ->
                 (np.bisect (List.length knots) key arr imin imax - 1)%Z = c).
  { intros imin imax B1 B2.
    rewrite (bisect_spec key arr (c + 1)); [lia| | | |].
    - intros i Hi. apply HP. subst arr. rewrite List.length_map in Hi. exact Hi.
    - exact B1.
    - subst arr. rewrite List.length_map. exact B2.
    - fold len. lia. }
  unfold np.LIKELY_IN_CACHE_SIZE. cbv zeta.
  destruct (key <? np.item arr g') eqn:Q0.
  - pose proof (HQt g' ltac:(lia) Q0) as C0.
    destruct (key <? np.item arr (g' - 1)) eqn:Q1.
    + pose proof (HQt (g' - 1)%Z ltac:(lia) Q1) as C1.
      apply HB; [|lia].
      destruct (8 <? g')%Z eqn:E8; simpl; [|lia].
      apply Z.ltb_lt in E8.
      destruct (np.item arr (g' - 8) <=? key) eqn:P8; [|lia].
      apply HP in P8; lia.
    + pose proof (HQf (g' - 1)%Z ltac:(lia) (Hreal (g' - 1)%Z ltac:(lia)) Q1). lia.
  - pose proof (HQf g' ltac:(lia) Hg Q0) as C0.
    destruct Hnext as [Hnext|Hnext]; [congruence|].
    destruct (key <? np.item arr (g' + 1)) eqn:Q1.
    + pose proof (HQt (g' + 1)%Z ltac:(lia) Q1). lia.
    + pose proof (HQf (g' + 1)%Z ltac:(lia) Hnext Q1) as C1.
      destruct (key <? np.item arr (g' + 2)) eqn:Q2.
      * pose proof (HQt (g' + 2)%Z ltac:(lia) Q2). lia.
      * apply HB; [lia|].
        destruct (g' <? len - 8 - 1)%Z eqn:E8; simpl; [|lia].
        apply Z.ltb_lt in E8.
        destruct (key <? np.item arr (g' + 8)) eqn:Q8; [|lia].
        pose proof (HQt (g' + 8)%Z ltac:(lia) Q8). lia.
Qed.


Lemma search_above key arr g :
  (np.item arr (Z.of_nat (List.length arr) - 1) <? key) = true ->
  np.binary_search_with_guess key arr g = Z.of_nat (List.length arr).
Proof. intros H. unfold np.binary_search_with_guess. now rewrite H. Qed.

Lemma search_below key arr g :
  (np.item arr (Z.of_nat (List.length arr) - 1) <? key) = false ->
  (key <? np.item arr 0) = true ->
  np.binary_search_with_guess key arr g = (-1)%Z.
Proof. intros H1 H2. unfold np.binary_search_with_guess. now rewrite H1, H2. Qed.

Lemma value_at_cons (k : float * float) knots j x :
  (0 <= j < Z.of_nat (List.length knots))%Z ->
  np.value_at (List.map fst (k :: knots)) (List.map snd (k :: knots)) (j + 1) x
  = np.value_at (List.map fst knots) (List.map snd knots) j x.
Proof.
  intros Hj. unfold np.value_at. cbn [List.map].
  rewrite !length_cons, !List.length_map.
  rewrite !item_cons by lia.
  destruct (Z.eqb_spec (j + 1) (-1)); [lia|].
  destruct (Z.eqb_spec j (-1)); [lia|].
  destruct (Z.eqb_spec (j + 1) (Z.of_nat (S (List.length knots)))); [lia|].
  destruct (Z.eqb_spec j (Z.of_nat (List.length knots))); [lia|].
  destruct (Z.eqb_spec (j + 1) (Z.of_nat (S (List.length knots)) - 1));
    destruct (Z.eqb_spec j (Z.of_nat (List.length knots) - 1)); try lia; reflexivity.
Qed.

(** At the index of the reading, the loop stores the value of the reading. *)
Lemma value_at_bracket x x0 y0 rest :
  np.value_at (List.map fst ((x0, y0) :: rest)) (List.map snd ((x0, y0) :: rest))
    (scan_index x (List.map fst ((x0, y0) :: rest))) x
  = bracket x x0 y0 rest.
Proof.
  unfold scan_index. cbn [List.map List.tl fst].
  revert x0 y0. induction rest as [|[x1 y1] rest IH]; intros x0 y0.
  - reflexivity.
  - cbn [List.map fst count_le bracket]. destruct (x1 <=? x) eqn:E.
    + rewrite Nat2Z.inj_succ, <- Z.add_1_r.
      rewrite (value_at_cons (x0, y0) ((x1, y1) :: rest)).
      * apply IH.
      * pose proof (count_le_length x (List.map fst rest)) as H.
        rewrite List.length_map in H. simpl List.length. lia.
    + unfold np.value_at. cbn [List.map fst snd].
      rewrite !length_cons.
      destruct (Z.eqb_spec (Z.of_nat 0) (-1)); [lia|].
      destruct (Z.eqb_spec (Z.of_nat 0) (Z.of_nat (S (S (List.length (List.map fst rest))))));
        [lia|].
      destruct (Z.eqb_spec (Z.of_nat 0)
                  (Z.of_nat (S (S (List.length (List.map fst rest)))) - 1)); [lia|].
      reflexivity.
Qed.

Lemma last_x_item (knots : list (float * float)) :
  knots <> [] ->
  last_x knots = np.item (List.map fst knots) (Z.of_nat (List.length knots) - 1).
Proof.
  intros Hne. unfold last_x, np.item.
  replace (Z.to_nat (Z.of_nat (List.length knots) - 1))
    with (List.length (List.map fst knots) - 1)%nat by (rewrite List.length_map; lia).
  destruct (List.map fst knots) as [|a l] eqn:E.
  - destruct knots; [congruence|discriminate].
  - rewrite <- E. clear. induction (List.map fst knots) as [|b l IH]; [reflexivity|].
    destruct l as [|b' l]; [reflexivity|].
    change (List.last (b :: b' :: l) nan) with (List.last (b' :: l) nan).
    rewrite IH. simpl. now rewrite Nat.sub_0_r.
Qed.

(** The numbers of a sorted table up to the element after the one that the
    reading of [target] stops at. *)
Lemma real_prefix knots target :
  sorted knots -> (2 <= List.length knots)%nat ->
  F.isnan target = false ->
  (target <? np.item (List.map fst knots) 0) = false ->
  next_is_number target (List.map fst knots) ->
  (np.item (List.map fst knots) 0 <=? target) = true /\
  forall i, (0 <= i <= scan_index target (List.map fst knots) + 1)%Z ->
            (i < Z.of_nat (List.length knots))%Z ->
            F.isnan (np.item (List.map fst knots) i) = false.
Proof.
  intros Hs Hlen Ht Hbelow Hnext.
  assert (H1 : F.isnan (np.item (List.map fst knots) 1) = false).
  { destruct knots as [|k0 [|k1 t]]; simpl in Hlen; try lia.
    unfold next_is_number, scan_index in Hnext. cbn [List.map List.tl count_le] in Hnext.
    unfold np.item. cbn [Z.to_nat Pos.to_nat Pos.iter_op Nat.add List.nth].
    destruct (fst k1 <=? target) eqn:E; [now apply leb_not_nan in E|].
    destruct Hnext as [Hn|Hn]; [exact Hn|]. simpl List.length in Hn. lia. }
  assert (H0n : F.isnan (np.item (List.map fst knots) 0) = false).
  { apply (sorted_item_real knots 0 1 Hs); [lia|lia|exact H1]. }
  assert (H0 : (np.item (List.map fst knots) 0 <=? target) = true)
    by now apply not_ltb_leb.
  split; [exact H0|]. intros i Hi Hil.
  pose proof (le_key_iff knots target Hs H0) as HP.
  destruct (Z_lt_le_dec i (scan_index target (List.map fst knots) + 1)) as [Hlt|Hge].
  - apply HP in Hlt; [|lia]. now apply leb_not_nan in Hlt.
  - assert (i = scan_index target (List.map fst knots) + 1)%Z as -> by lia.
    destruct Hnext as [Hn|Hn]; [exact Hn|]. rewrite List.length_map in Hn. lia.
Qed.

Lemma clamp_range len g : (4 < len)%Z -> (1 <= clamp len g <= len - 3)%Z.
Proof.
  intros H. unfold clamp.
  destruct (Z.ltb_spec (len - 3) g);
    [destruct (Z.ltb_spec (len - 3) 1)|destruct (Z.ltb_spec g 1)]; lia.
Qed.

Lemma clamp_le len g b : (1 <= b)%Z -> (g <= b)%Z -> (4 < len)%Z -> (clamp len g <= b)%Z.
Proof.
  intros Hb Hg H. unfold clamp.
  destruct (Z.ltb_spec (len - 3) g);
    [destruct (Z.ltb_spec (len - 3) 1)|destruct (Z.ltb_spec g 1)]; lia.
Qed.

(** A guess that is not beyond the element after the reading of [target]
    serves every key up to [target]. *)
Lemma guess_ok knots target key j :
  sorted knots -> (4 < Z.of_nat (List.length knots))%Z ->
  F.isnan target = false ->
  (target <? np.item (List.map fst knots) 0) = false ->
  next_is_number target (List.map fst knots) ->
  F.isnan key = false -> (key <=? target) = true ->
  (j <= scan_index target (List.map fst knots) + 1)%Z ->
  F.isnan (np.item (List.map fst knots) (clamp (Z.of_nat (List.length knots)) j)) = false
  /\ ((key <? np.item (List.map fst knots) (clamp (Z.of_nat (List.length knots)) j)) = true
      \/ F.isnan (np.item (List.map fst knots)
                    (clamp (Z.of_nat (List.length knots)) j + 1)) = false).
Proof.
  intros Hs Hlen Ht Hbelow Hnext Hk Hkt Hj.
  destruct (real_prefix knots target Hs ltac:(lia) Ht Hbelow Hnext) as [H0 Hreal].
  pose proof (clamp_range _ j Hlen) as Hr.
  destruct (scan_index_range knots target) as [Hc0 _].
  pose proof (clamp_le (Z.of_nat (List.length knots)) j
                (scan_index target (List.map fst knots) + 1) ltac:(lia) Hj Hlen) as Hg.
  set (g' := clamp (Z.of_nat (List.length knots)) j) in *.
  assert (Hgr : F.isnan (np.item (List.map fst knots) g') = false)
    by (apply Hreal; lia).
  split; [exact Hgr|].
  destruct (key <? np.item (List.map fst knots) g') eqn:Q; [now left|right].
  assert (P : (np.item (List.map fst knots) g' <=? target) = true).
  { eapply leb_trans; [|exact Hkt]. now apply not_ltb_leb. }
  apply (le_key_iff knots target Hs H0) in P; [|lia].
  apply Hreal; lia.
Qed.

(** The loop over increasing keys: the value stored for [target] is that of
    the left-to-right reading, whatever was searched before it. *)
Lemma interp_loop_target x0 y0 rest target :
  sorted ((x0, y0) :: rest) ->
  F.isnan target = false ->
  (last_x ((x0, y0) :: rest) <? target) = false ->
  (target <? x0) = false ->
  next_is_number target (List.map fst ((x0, y0) :: rest)) ->
  forall pre j post,
    List.Forall (fun k => F.isnan k = false /\ (k <=? target) = true) pre ->
    (j <= scan_index target (List.map fst ((x0, y0) :: rest)) + 1)%Z ->
    List.nth (List.length pre)
      (np.interp_loop (List.map fst ((x0, y0) :: rest)) (List.map snd ((x0, y0) :: rest))
         j (pre ++ target :: post)) nan
    = bracket target x0 y0 rest.
Proof.
  intros Hs Ht Habove Hbelow Hnext.
  set (knots := (x0, y0) :: rest) in *.
  assert (Hne : knots <> []) by discriminate.
  rewrite (last_x_item knots Hne) in Habove.
  assert (Hb0 : (target <? np.item (List.map fst knots) 0) = false) by exact Hbelow.
  assert (Hcond : forall key j,
            F.isnan key = false -> (key <=? target) = true ->
            (j <= scan_index target (List.map fst knots) + 1)%Z ->
            (Z.of_nat (List.length knots) <= 4)%Z
            \/ (F.isnan (np.item (List.map fst knots)
                           (clamp (Z.of_nat (List.length knots)) j)) = false
                /\ ((key <? np.item (List.map fst knots)
                               (clamp (Z.of_nat (List.length knots)) j)) = true
                    \/ F.isnan (np.item (List.map fst knots)
                                  (clamp (Z.of_nat (List.length knots)) j + 1)) = false))).
  { intros key j Hk Hkt Hj.
    destruct (Z_le_gt_dec (Z.of_nat (List.length knots)) 4) as [Hl|Hl]; [now left|right].
    apply (guess_ok knots target key j); try assumption. lia. }
  induction pre as [|key0 pre IH]; intros j post Hpre Hj.
  - cbn [List.app List.length np.interp_loop]. rewrite Ht. cbn [List.nth].
    rewrite (search_scan knots target j Hs Ht Habove Hb0).
    + apply value_at_bracket.
    + apply Hcond; [exact Ht|now apply leb_refl|exact Hj].
  - apply List.Forall_cons_iff in Hpre as [[Hk Hkt] Hpre].
    cbn [List.app List.length np.interp_loop]. rewrite Hk. cbn [List.nth].
    apply IH; [exact Hpre|].
    destruct (scan_index_range knots target) as [Hc0 _].
    destruct (np.item (List.map fst knots) (Z.of_nat (List.length knots) - 1) <? key0)
      eqn:Ea.
    { exfalso. pose proof (ltb_leb_trans _ _ _ Ea Hkt) as C. congruence. }
    destruct (key0 <? np.item (List.map fst knots) 0) eqn:Eb.
    { rewrite search_below; [lia| |exact Eb]. now rewrite List.length_map. }
    rewrite (search_scan knots key0 j Hs Hk Ea Eb) by (now apply Hcond).
    unfold scan_index. pose proof (count_le_mono key0 target (List.tl (List.map fst knots)) Hkt).
    lia.
Qed.


(** ** The interpolant at the milestones *)

Lemma interp1d_at_values (knots : list (float * float)) :
  knots <> [] ->
  exists l,
    np.interp [30; 90; 180; 365] (List.map fst knots) (List.map snd knots) = Ok l /\
    forall m,
      at_milestone (interp1d_at knots) m
      = interpolate.fill (first_x knots) (last_x knots) (days m)
          (List.nth match m with IP30 => 0 | IP90 => 1 | IP180 => 2 | IP365 => 3 end%nat
                    l nan).
Proof.
  intros Hne. destruct (interp_Ok [30; 90; 180; 365] knots Hne) as [l Hl].
  exists l. split; [exact Hl|].
  pose proof (interp_length _ _ _ _ Hl) as Hlen.
  unfold interp1d_at, interpolate.call4, days_arr.
  cbn [at0 at1 at2 at3 interpolate.x interpolate.y].
  rewrite Hl. cbn [mbind result_bind].
  destruct knots as [|[x0 y0] rest]; [congruence|].
  assert (Hlast : pd.iloc_last (List.map fst ((x0, y0) :: rest))
                  = Ok (last_x ((x0, y0) :: rest))).
  { unfold last_x. simpl List.map. apply iloc_last_last. }
  assert (Hf : pd.iloc_first (List.map fst ((x0, y0) :: rest)) = Ok x0) by reflexivity.
  rewrite Hf. cbn [mbind result_bind]. rewrite Hlast. cbn [mbind result_bind].
  destruct l as [|v0 [|v1 [|v2 [|v3 [|v4 l]]]]]; try discriminate.
  intros m. destruct m; reflexivity.
Qed.

Lemma days_not_nan m : F.isnan (days m) = false.
Proof. destruct m; reflexivity. Qed.

(** Below the first and above the last knot the interpolant gives NaN. *)
Lemma interp1d_at_outside knots m :
  (days m <? first_x knots) = true \/ (last_x knots <? days m) = true ->
  at_milestone (interp1d_at knots) m = nan.
Proof.
  intros H. destruct knots as [|k0 rest]; [destruct m; reflexivity|].
  destruct (interp1d_at_values (k0 :: rest)) as (l & _ & Hv); [discriminate|].
  rewrite Hv. unfold interpolate.fill. destruct H as [H|H]; rewrite H.
  - now destruct (_ <? days m).
  - reflexivity.
Qed.

(** Where the element after the one that the reading stops at is a number,
    the interpolant gives the value of the left-to-right reading. *)
Lemma interp1d_at_eval knots m :
  sorted knots -> knots <> [] ->
  next_is_number (days m) (List.map fst knots) ->
  at_milestone (interp1d_at knots) m = eval_knots knots (days m).
Proof.
  intros Hs Hne Hnext.
  destruct (interp1d_at_values knots Hne) as (l & Hl & Hv). rewrite Hv.
  destruct knots as [|[x0 y0] rest]; [congruence|].
  unfold interpolate.fill, eval_knots, first_x. cbn [List.map List.hd fst].
  destruct (last_x ((x0, y0) :: rest) <? days m) eqn:Ea; [reflexivity|].
  destruct (days m <? x0) eqn:Eb; [reflexivity|].
  unfold np.interp in Hl. cbn [List.map] in Hl.
  rewrite !length_cons, !List.length_map, Nat.eqb_refl in Hl. cbn [negb] in Hl.
  destruct rest as [|k1 rest].
  - injection Hl as <-. cbn [List.map].
    destruct m; cbn [List.nth bracket];
      repeat match goal with |- context [if ?b then _ else _] => destruct b end;
      reflexivity.
  - cbn [fst snd] in Hl. injection Hl as <-.
    pose proof (days_not_nan m) as Hm.
    pose proof (interp_loop_target x0 y0 (k1 :: rest) (days m) Hs Hm Ea Eb Hnext) as HT.
    destruct (scan_index_range ((x0, y0) :: k1 :: rest) (days m)) as [Hc _].
    destruct m.
    + apply (HT [] 0%Z [90; 180; 365]); [constructor|lia].
    + apply (HT [30] 0%Z [180; 365]); [|lia].
      repeat constructor; vm_compute; reflexivity.
    + apply (HT [30; 90] 0%Z [365]); [|lia].
      repeat constructor; vm_compute; reflexivity.
    + apply (HT [30; 90; 180] 0%Z []); [|lia].
      repeat constructor; vm_compute; reflexivity.
Qed.

(** In a sorted table with a number at [i0] that lies beyond [key], and in
    one whose last abscissa is a number, the element after the one that the
    reading stops at is a number. *)
Lemma next_is_number_before knots key i0 :
  sorted knots ->
  (np.item (List.map fst knots) 0 <=? key) = true ->
  (0 <= i0 < Z.of_nat (List.length knots))%Z ->
  F.isnan (np.item (List.map fst knots) i0) = false ->
  (np.item (List.map fst knots) i0 <=? key) = false ->
  next_is_number key (List.map fst knots).
Proof.
  intros Hs H0 Hi Hn Hgt. left.
  pose proof (le_key_iff knots key Hs H0) as HP.
  destruct (scan_index_range knots key) as [Hc _].
  apply (sorted_item_real knots _ i0 Hs); [|lia|exact Hn].
  split; [lia|].
  destruct (Z_le_gt_dec (scan_index key (List.map fst knots) + 1)%Z i0) as [C|C];
    [exact C|].
  assert (i0 < scan_index key (List.map fst knots) + 1)%Z as C' by lia.
  apply HP in C'; [congruence|exact Hi].
Qed.

Lemma next_is_number_real knots key :
  sorted knots -> knots <> [] ->
  F.isnan (last_x knots) = false ->
  next_is_number key (List.map fst knots).
Proof.
  intros Hs Hne Hl. rewrite (last_x_item knots Hne) in Hl.
  destruct (scan_index_range knots key) as [Hc0 Hc1]. specialize (Hc1 Hne).
  destruct (Z.eq_dec (scan_index key (List.map fst knots) + 1)%Z
              (Z.of_nat (List.length knots))) as [E|E].
  - right. now rewrite List.length_map.
  - left. apply (sorted_item_real knots _ (Z.of_nat (List.length knots) - 1) Hs);
      [lia|lia|exact Hl].
Qed.


Lemma last_app_cons {A} (l1 : list A) a l2 d :
  List.last (l1 ++ a :: l2) d = List.last (a :: l2) d.
Proof.
  induction l1 as [|b l1 IH]; [reflexivity|].
  simpl List.app. destruct (l1 ++ a :: l2) eqn:E; [destruct l1; discriminate|].
  exact IH.
Qed.

Lemma item_app (l1 l : list float) i :
  (0 <= i)%Z -> np.item (l1 ++ l) (Z.of_nat (List.length l1) + i) = np.item l i.
Proof.
  intros Hi. unfold np.item.
  replace (Z.to_nat (Z.of_nat (List.length l1) + i))
    with (List.length l1 + Z.to_nat i)%nat by lia.
  apply List.app_nth2_plus.
Qed.

Lemma first_le_knot l1 x (y : float) l2 :
  sorted (l1 ++ (x, y) :: l2) -> F.isnan x = false ->
  (np.item (List.map fst (l1 ++ (x, y) :: l2)) 0 <=? x) = true.
Proof.
  intros Hs Hx. destruct (sorted_app_inv _ _ _ Hs) as [Hl1 _].
  destruct l1 as [|k l1].
  - now apply leb_refl.
  - apply List.Forall_cons_iff in Hl1 as [Hk _]. simpl in Hk.
    now apply sort_le_leb.
Qed.

(** A milestone on a knot whose next knot, if there is one, lies strictly
    beyond it gets the volume of that knot. *)
Lemma interp1d_at_knot knots l1 x y l2 m :
  sorted knots -> knots = l1 ++ (x, y) :: l2 ->
  (x =? days m) = true ->
  match l2 with [] => True | k :: _ => (days m <? fst k) = true end ->
  at_milestone (interp1d_at knots) m = y.
Proof.
  intros Hs E Hx Hnext.
  assert (Hne : knots <> []) by (rewrite E; now destruct l1).
  destruct (eqb_not_nan _ _ Hx) as [Hxn _].
  rewrite interp1d_at_eval; [now apply (eval_at_knot knots l1 x y l2)|exact Hs|exact Hne|].
  destruct l2 as [|[x1 y1] l2].
  - apply next_is_number_real; [exact Hs|exact Hne|].
    rewrite E. unfold last_x. rewrite List.map_app. cbn [List.map].
    rewrite last_app_cons. exact Hxn.
  - simpl in Hnext. destruct (ltb_not_nan _ _ Hnext) as [_ Hn1].
    assert (Hi : np.item (List.map fst knots) (Z.of_nat (List.length l1) + 1) = x1).
    { rewrite E, List.map_app. rewrite <- (List.length_map fst l1).
      rewrite item_app by lia. reflexivity. }
    apply (next_is_number_before knots (days m) (Z.of_nat (List.length l1) + 1)).
    + exact Hs.
    + rewrite E. eapply leb_trans; [apply first_le_knot|apply eqb_leb, Hx].
      * rewrite <- E. exact Hs.
      * exact Hxn.
    + rewrite E, List.length_app. simpl List.length. lia.
    + now rewrite Hi.
    + rewrite Hi. now apply ltb_not_leb.
Qed.

(** Within the range of the knots the interpolant gives a value of the
    piecewise-linear interpolation. *)
Lemma interp1d_at_in_range knots m :
  sorted knots ->
  (first_x knots <=? days m) = true -> (days m <=? last_x knots) = true ->
  interpolates knots (days m) (at_milestone (interp1d_at knots) m).
Proof.
  intros Hs Hf Hl.
  assert (Hne : knots <> []).
  { intros ->. apply leb_not_nan in Hf as [Hf _]. vm_compute in Hf. discriminate. }
  rewrite interp1d_at_eval; [now apply eval_in_range|exact Hs|exact Hne|].
  apply next_is_number_real; [exact Hs|exact Hne|]. now apply leb_not_nan in Hl.
Qed.


(** ** Interpolation at the milestones *)

Lemma knots_sorted df s : sorted (knots_of (fst (calculate_well_ip df)) s).
Proof. apply sort_sorted. Qed.

Lemma nan_div_days m : nan / days m = nan.
Proof. destruct m; vm_compute; reflexivity. Qed.

Lemma ip_value_eligible df r0 rest w :
  rows df = r0 :: rest ->
  eligible (fst (calculate_well_ip df)) = Ok true ->
  snd (calculate_well_ip df) = Ok w ->
  forall s m,
    ip_value w s m
    = at_milestone (interp1d_at (knots_of (fst (calculate_well_ip df)) s)) m / days m.
Proof.
  intros Hrows Hg Hw s m.
  change (fst (calculate_well_ip df)) with (prepare df) in *.
  rewrite eligible_prepare in Hg. injection Hg as Hg.
  rewrite (calculate_well_ip_snd df r0 rest Hrows), Hg in Hw. injection Hw as <-.
  apply ip_value_with_ips.
Qed.


Lemma In_insert k a l : In k (interpolate.insert a l) <-> k = a \/ In k l.
Proof.
  induction l as [|h t IH]; simpl.
  - intuition.
  - destruct (F.sort_lt (fst h) (fst a)); simpl; rewrite ?IH; intuition.
Qed.

Lemma In_sort k l : In k (interpolate.sort l) <-> In k l.
Proof.
  induction l as [|a l IH]; simpl; [tauto|]. rewrite In_insert, IH. intuition.
Qed.

Lemma map_fst_combine {A B} (l : list A) (k : list B) :
  List.length l = List.length k -> List.map fst (combine l k) = l.
Proof.
  revert k. induction l as [|a l IH]; intros [|b k] H; try discriminate; [reflexivity|].
  simpl. f_equal. apply IH. simpl in H. congruence.
Qed.

Lemma knots_nonempty df s :
  rows df <> [] -> knots_of (fst (calculate_well_ip df)) s <> [].
Proof.
  intros Hne. unfold knots_of. simpl Prod_days_cum.
  apply sort_nonempty. intros E. apply (f_equal (@List.length _)) in E.
  rewrite List.length_combine, cumsum_length in E. unfold col in E.
  rewrite !List.length_map, Nat.min_id in E.
  change (rows (fst (calculate_well_ip df))) with (rows df) in E.
  destruct (rows df); [congruence|discriminate].
Qed.






(** ** Division by a milestone *)

Lemma shr_1_nonneg r : (0 <= shr_m r)%Z -> (0 <= shr_m (shr_1 r))%Z.
Proof.
  destruct r as [m r s]. destruct m as [|p|p]; simpl; intros H; try lia;
    destruct p; simpl; lia.
Qed.

Lemma iter_pos_invariant {A} (P : A -> Prop) (f : A -> A) :
  (forall x, P x -> P (f x)) -> forall n x, P x -> P (SpecFloat.iter_pos f n x).
Proof.
  intros Hf. induction n as [n IH|n IH|]; intros x Hx; simpl; auto.
Qed.

Lemma shr_nonneg r e n : (0 <= shr_m r)%Z -> (0 <= shr_m (fst (shr r e n)))%Z.
Proof.
  intros H. destruct n as [|p|p]; simpl; try assumption.
  apply (iter_pos_invariant (fun r => (0 <= shr_m r)%Z)); [apply shr_1_nonneg|exact H].
Qed.

Lemma shr_fexp_nonneg m e l :
  (0 <= m)%Z -> (0 <= shr_m (fst (shr_fexp prec emax m e l)))%Z.
Proof.
  intros H. unfold shr_fexp. apply shr_nonneg.
  destruct l as [|[| |]]; exact H.
Qed.

Lemma round_nearest_even_nonneg m l : (0 <= m)%Z -> (0 <= round_nearest_even m l)%Z.
Proof.
  intros H. destruct l as [|[| |]]; simpl; try lia. destruct (Z.even m); lia.
Qed.

Lemma binary_round_aux_not_nan sx mx ex lx :
  (0 <= mx)%Z -> binary_round_aux prec emax sx mx ex lx <> S754_nan.
Proof.
  intros H. unfold binary_round_aux.
  pose proof (shr_fexp_nonneg mx ex lx H) as H1.
  destruct (shr_fexp prec emax mx ex lx) as [mrs' e']. simpl in H1.
  pose proof (shr_fexp_nonneg _ e' loc_Exact
                (round_nearest_even_nonneg _ (loc_of_shr_record mrs') H1)) as H2.
  destruct (shr_fexp prec emax _ e' loc_Exact) as [mrs'' e'']. simpl in H2.
  destruct (shr_m mrs'') as [|p|p]; try lia; try discriminate.
  destruct (e'' <=? emax - prec)%Z; discriminate.
Qed.

Lemma SFdiv_core_nonneg m1 e1 m2 e2 :
  (0 <= m1)%Z -> (0 < m2)%Z ->
  (0 <= fst (fst (SFdiv_core_binary prec emax m1 e1 m2 e2)))%Z.
Proof.
  intros H1 H2. unfold SFdiv_core_binary.
  set (s := (e1 - e2 - _)%Z).
  set (m' := match s with Zpos _ => Z.shiftl m1 s | Z0 => m1 | Zneg _ => 0%Z end).
  assert (Hm' : (0 <= m')%Z).
  { subst m'. destruct s; try lia. now apply Z.shiftl_nonneg. }
  pose proof (Z.div_pos m' m2 Hm' H2) as Hq.
  unfold Z.div in Hq. destruct (Z.div_eucl m' m2) as [q r]. exact Hq.
Qed.

Lemma div_finite_not_nan v d sd md ed :
  Prim2SF d = S754_finite sd md ed ->
  F.isnan (v / d) = true -> F.isnan v = true.
Proof.
  intros Hd H. apply isnan_Prim2SF in H. apply isnan_Prim2SF.
  rewrite div_spec, Hd in H. unfold SF64div, SFdiv in H.
  destruct (Prim2SF v) as [s|s| |s m e]; try discriminate; [reflexivity|].
  exfalso.
  pose proof (SFdiv_core_nonneg (Zpos m) e (Zpos md) ed) as Hq.
  destruct (SFdiv_core_binary prec emax (Zpos m) e (Zpos md) ed) as [[mz ez] lz].
  simpl in Hq. revert H. apply binary_round_aux_not_nan. apply Hq; lia.
Qed.

Lemma div_days_not_nan v m : F.isnan (v / days m) = true -> F.isnan v = true.
Proof.
  destruct m; eapply div_finite_not_nan; vm_compute; reflexivity.
Qed.

(** ** Milestones on a knot *)

Lemma knots_split_last (knots : list (float * float)) :
  knots <> [] ->
  exists l1, knots = l1 ++ [(last_x knots, last_y knots)].
Proof.
  intros Hne. exists (List.removelast knots).
  rewrite (List.app_removelast_last (nan, nan) Hne) at 1. do 2 f_equal.
  pose proof (last_map fst knots (nan, nan)) as Hx.
  pose proof (last_map snd knots (nan, nan)) as Hy.
  change (fst (nan, nan)) with nan in Hx. change (snd (nan, nan)) with nan in Hy.
  unfold last_x, last_y. rewrite Hx, Hy.
  now destruct (List.last knots (nan, nan)).
Qed.

(** C10, as the code has it. When the gate passes, for each stream and each
    milestone: a milestone equal to the cumulative producing days of the
    last knot gets that knot's cumulative volume divided by the milestone;
    a milestone equal to the cumulative producing days of any knot gets
    that knot's volume divided by the milestone when the next knot, if there
    is one, lies strictly beyond the milestone (of several knots at the
    milestone it is the last that counts); a milestone strictly below the
    first or strictly above the last knot gets "not available"; and within
    the range of the knots the IP value is NaN only if the interpolated
    volume is. *)
Theorem milestone_on_knot (df : DataFrame) (r0 : MonthlyRecord)
    (rest : list MonthlyRecord) (w : WellIP) :
  rows df = r0 :: rest ->
  eligible (fst (calculate_well_ip df)) = Ok true ->
  snd (calculate_well_ip df) = Ok w ->
  forall s m,
    let knots := knots_of (fst (calculate_well_ip df)) s in
    ((last_x knots =? days m) = true ->
       ip_value w s m = last_y knots / days m) /\
    (forall l1 x y l2,
       knots = l1 ++ (x, y) :: l2 -> (x =? days m) = true ->
       match l2 with [] => True | k :: _ => (days m <? fst k) = true end ->
       ip_value w s m = y / days m) /\
    ((days m <? first_x knots) = true \/ (last_x knots <? days m) = true ->
       ip_value w s m = nan) /\
    ((first_x knots <=? days m) = true -> (days m <=? last_x knots) = true ->
       exists v, interpolates knots (days m) v /\ ip_value w s m = v / days m /\
                 (F.isnan (ip_value w s m) = true -> F.isnan v = true)).
Proof.
  intros Hrows Hg Hw s m knots.
  rewrite (ip_value_eligible df r0 rest w Hrows Hg Hw). fold knots.
  assert (Hs : sorted knots) by apply knots_sorted.
  assert (Hk : forall l1 x y l2,
             knots = l1 ++ (x, y) :: l2 -> (x =? days m) = true ->
             match l2 with [] => True | k :: _ => (days m <? fst k) = true end ->
             at_milestone (interp1d_at knots) m / days m = y / days m).
  { intros l1 x y l2 E Hx Hn. now rewrite (interp1d_at_knot knots l1 x y l2 m). }
  split; [|split; [exact Hk|split]].
  - intros Hl. destruct (knots_split_last knots) as [l1 E].
    + apply knots_nonempty. rewrite Hrows. discriminate.
    + apply (Hk l1 _ _ [] E Hl I).
  - intros H. rewrite (interp1d_at_outside knots m H). apply nan_div_days.
  - intros Hf Hl. exists (at_milestone (interp1d_at knots) m).
    split; [now apply interp1d_at_in_range|]. split; [reflexivity|].
    apply div_days_not_nan.
Qed.

Lemma milestone_on_knot_witness :
  exists w,
    snd (calculate_well_ip full_year) = Ok w /\
    ip_value w Gas IP365 = 1460 / 365 /\
    forall s m,
      let knots := knots_of (fst (calculate_well_ip full_year)) s in
      ((last_x knots =? days m) = true ->
         ip_value w s m = last_y knots / days m) /\
      (forall l1 x y l2,
         knots = l1 ++ (x, y) :: l2 -> (x =? days m) = true ->
         match l2 with [] => True | k :: _ => (days m <? fst k) = true end ->
         ip_value w s m = y / days m) /\
      ((days m <? first_x knots) = true \/ (last_x knots <? days m) = true ->
         ip_value w s m = nan) /\
      ((first_x knots <=? days m) = true -> (days m <=? last_x knots) = true ->
         exists v, interpolates knots (days m) v /\ ip_value w s m = v / days m /\
                   (F.isnan (ip_value w s m) = true -> F.isnan v = true)).
Proof.
  eexists. split; [vm_compute; reflexivity|]. split; [vm_compute; reflexivity|].
  apply (milestone_on_knot full_year (month 202101 31 150 150 0 50 5)
           (List.tl (rows full_year)));
    vm_compute; reflexivity.
Defined.

(** C10, as stated, fails at the first knot when a later knot shares its
    cumulative producing days: with a second month of no producing days and
    a negative gas adjustment the gate passes, the first knot of gas lies at
    30 days with volume 100, and gas IP30 is 90/30 = 3, not 100/30. *)
Lemma first_knot_shadowed :
  exists w,
    snd (calculate_well_ip adjusted) = Ok w /\
    eligible (fst (calculate_well_ip adjusted)) = Ok true /\
    knots_of (fst (calculate_well_ip adjusted)) Gas = [(30, 100); (30, 90); (60, 220)] /\
    ip_value w Gas IP30 = 3 /\
    ip_value w Gas IP30 <> 100 / days IP30.
Proof.
  eexists. split; [vm_compute; reflexivity|].
  split; [vm_compute; reflexivity|]. split; [vm_compute; reflexivity|].
  split; [vm_compute; reflexivity|].
  intros E. apply (f_equal (fun x => x =? 3)) in E. vm_compute in E. discriminate.
Qed.

(** ** Adding a non-negative float does not decrease a non-negative float *)

Section Addition.

Local Open Scope Z_scope.

Lemma digits2_pos_size p : digits2_pos p = Pos.size p.
Proof. induction p; simpl; congruence. Qed.

Lemma digits2_pos_log2 p : Zpos (digits2_pos p) = Z.log2 (Zpos p) + 1.
Proof.
  rewrite digits2_pos_size. destruct p; simpl; try reflexivity; lia.
Qed.

Lemma digits2_pos_lower p : 2 ^ (Zpos (digits2_pos p) - 1) <= Zpos p.
Proof.
  rewrite digits2_pos_log2. replace (Z.log2 (Zpos p) + 1 - 1) with (Z.log2 (Zpos p)) by lia.
  apply Z.log2_spec. lia.
Qed.

Lemma digits2_pos_mono p q : Zpos p <= Zpos q -> Zpos (digits2_pos p) <= Zpos (digits2_pos q).
Proof.
  intros H. rewrite !digits2_pos_log2. apply Z.log2_le_mono in H. lia.
Qed.

Lemma digits2_pos_shift p q k :
  0 <= k -> Zpos q = Zpos p * 2 ^ k -> Zpos (digits2_pos q) = Zpos (digits2_pos p) + k.
Proof.
  intros Hk E. rewrite !digits2_pos_log2, E, Z.log2_mul_pow2 by lia. lia.
Qed.

Lemma iter_xO_pow m d : Zpos (Pos.iter xO m d) = Zpos m * 2 ^ Zpos d.
Proof.
  induction d as [|d IH] using Pos.peano_ind.
  - simpl. lia.
  - rewrite Pos.iter_succ, Pos2Z.inj_xO, IH, Pos2Z.inj_succ, Z.pow_succ_r by lia. lia.
Qed.

Lemma shl_align_le mx ex ez :
  ez <= ex -> Zpos (fst (shl_align mx ex ez)) = Zpos mx * 2 ^ (ex - ez).
Proof.
  intros H. unfold shl_align. destruct (ez - ex) as [|d|d] eqn:E.
  - replace (ex - ez) with 0 by lia. simpl fst. rewrite Z.pow_0_r, Z.mul_1_r. reflexivity.
  - lia.
  - simpl fst. rewrite iter_xO_pow. f_equal. f_equal. lia.
Qed.

Lemma shl_align_ge mx ex ez : ex <= ez -> shl_align mx ex ez = (mx, ex).
Proof.
  intros H. unfold shl_align. destruct (ez - ex) eqn:E; try reflexivity. lia.
Qed.

Lemma shr_1_div2 r : 0 <= shr_m r -> shr_m (shr_1 r) = shr_m r / 2.
Proof.
  destruct r as [m r s]. simpl. intros H. rewrite <- Z.div2_div.
  destruct m as [|p|p]; try lia; try reflexivity. destruct p; reflexivity.
Qed.

Lemma pow2_xI n : 2 ^ Zpos n~1 = 2 * (2 ^ Zpos n * 2 ^ Zpos n).
Proof.
  rewrite (Pos2Z.inj_xI n). replace (2 * Z.pos n + 1) with (1 + (Zpos n + Zpos n)) by lia.
  rewrite !Z.pow_add_r by lia. reflexivity.
Qed.

Lemma pow2_xO n : 2 ^ Zpos n~0 = 2 ^ Zpos n * 2 ^ Zpos n.
Proof.
  rewrite (Pos2Z.inj_xO n). replace (2 * Z.pos n) with (Zpos n + Zpos n) by lia.
  rewrite !Z.pow_add_r by lia. reflexivity.
Qed.

Lemma iter_shr_1 n r :
  0 <= shr_m r ->
  0 <= shr_m (SpecFloat.iter_pos shr_1 n r) /\
  shr_m (SpecFloat.iter_pos shr_1 n r) = shr_m r / 2 ^ Zpos n.
Proof.
  revert r. induction n as [n IH|n IH|]; intros r H; simpl SpecFloat.iter_pos.
  - pose proof (shr_1_nonneg r H) as H1.
    destruct (IH _ H1) as [H2 E2]. destruct (IH _ H2) as [H3 E3].
    split; [exact H3|]. rewrite E3, E2, shr_1_div2 by assumption.
    assert (0 < 2 ^ Zpos n) by (apply Z.pow_pos_nonneg; lia).
    rewrite !Z.div_div by lia. f_equal. rewrite pow2_xI. ring.
  - destruct (IH _ H) as [H2 E2]. destruct (IH _ H2) as [H3 E3].
    split; [exact H3|]. rewrite E3, E2.
    assert (0 < 2 ^ Zpos n) by (apply Z.pow_pos_nonneg; lia).
    rewrite Z.div_div by lia. f_equal. rewrite pow2_xO. ring.
  - split; [now apply shr_1_nonneg|]. rewrite shr_1_div2 by assumption. reflexivity.
Qed.

Lemma shr_spec r e n :
  0 <= shr_m r ->
  shr_m (fst (shr r e n)) = shr_m r / 2 ^ Z.max 0 n /\
  snd (shr r e n) = e + Z.max 0 n.
Proof.
  intros H. unfold shr. destruct n as [|p|p]; simpl fst; simpl snd.
  - rewrite Z.max_id, Z.pow_0_r, Z.div_1_r. split; [reflexivity|lia].
  - replace (Z.max 0 (Zpos p)) with (Zpos p) by lia.
    split; [apply iter_shr_1, H|reflexivity].
  - replace (Z.max 0 (Zneg p)) with 0 by lia.
    rewrite Z.pow_0_r, Z.div_1_r. split; [reflexivity|lia].
Qed.

Lemma shr_fexp_spec m e l :
  0 <= m ->
  let n := Z.max 0 (fexp prec emax (Zdigits2 m + e) - e) in
  shr_m (fst (shr_fexp prec emax m e l)) = m / 2 ^ n /\
  snd (shr_fexp prec emax m e l) = e + n.
Proof.
  intros H n. unfold shr_fexp.
  assert (E : shr_m (shr_record_of_loc m l) = m) by (destruct l as [|[| |]]; reflexivity).
  rewrite <- E at 3. apply shr_spec. now rewrite E.
Qed.

Lemma round_nearest_even_ge m l : m <= round_nearest_even m l.
Proof. destruct l as [|[| |]]; simpl; try lia. destruct (Z.even m); lia. Qed.

Lemma fexp_ge_emin e : SpecFloat.emin prec emax <= fexp prec emax e.
Proof. unfold fexp. lia. Qed.

Lemma fexp_mono a b : a <= b -> fexp prec emax a <= fexp prec emax b.
Proof. unfold fexp. lia. Qed.

Lemma fexp_shift d e :
  1 <= d -> SpecFloat.emin prec emax <= e ->
  Z.max 0 (fexp prec emax (d + e) - e) <= d - 1.
Proof. unfold fexp, SpecFloat.emin, prec, emax. lia. Qed.

Lemma div_pow2_pos p k :
  0 <= k -> k <= Zpos (digits2_pos p) - 1 -> 1 <= Zpos p / 2 ^ k.
Proof.
  intros Hk H. apply Z.div_le_lower_bound; [apply Z.pow_pos_nonneg; lia|].
  rewrite Z.mul_1_r. etransitivity; [|apply digits2_pos_lower].
  apply Z.pow_le_mono_r; lia.
Qed.

Lemma SFadd_finite_ge mx ex my ey :
  bounded prec emax mx ex = true -> bounded prec emax my ey = true ->
  SFleb (S754_finite false mx ex)
        (SF64add (S754_finite false mx ex) (S754_finite false my ey)) = true.
Proof.
  intros Bx By. unfold bounded, canonical_mantissa in Bx, By.
  apply andb_prop in Bx as [Cx _]. apply andb_prop in By as [Cy _].
  apply Z.eqb_eq in Cx, Cy.
  assert (Hex : SpecFloat.emin prec emax <= ex) by (rewrite <- Cx; apply fexp_ge_emin).
  assert (Hey : SpecFloat.emin prec emax <= ey) by (rewrite <- Cy; apply fexp_ge_emin).
  unfold SF64add, SFadd. cbn [cond_Zopp].
  set (ez := Z.min ex ey).
  assert (Hez : ez <= ex) by (subst ez; lia).
  assert (Hez' : SpecFloat.emin prec emax <= ez) by (subst ez; lia).
  pose proof (shl_align_le mx ex ez Hez) as Ha.
  set (a := fst (shl_align mx ex ez)) in *.
  set (b := fst (shl_align my ey ez)).
  change (Zpos a + Zpos b) with (Zpos (a + b)).
  cbn [binary_normalize]. set (Mp := (a + b)%positive).
  assert (HM : Zpos mx * 2 ^ (ex - ez) <= Zpos Mp) by (subst Mp; lia).
  unfold binary_round.
  set (D := Zpos (digits2_pos Mp)).
  set (e' := fexp prec emax (D + ez)).
  assert (He' : ex <= e').
  { subst e'. rewrite <- Cx at 1. apply fexp_mono.
    assert (Zpos (digits2_pos a) = Zpos (digits2_pos mx) + (ex - ez))
      by (apply digits2_pos_shift; [lia|exact Ha]).
    assert (Zpos (digits2_pos a) <= D) by (apply digits2_pos_mono; subst Mp; lia).
    lia. }
  rewrite shl_align_ge by lia.
  unfold binary_round_aux.
  destruct (shr_fexp_spec (Zpos Mp) ez loc_Exact) as [Hm1 He1]; [lia|].
  change (Zdigits2 (Zpos Mp)) with D in Hm1, He1. fold e' in Hm1, He1.
  replace (Z.max 0 (e' - ez)) with (e' - ez) in Hm1, He1 by lia.
  destruct (shr_fexp prec emax (Zpos Mp) ez loc_Exact) as [mrs1 e1].
  cbn [fst snd] in Hm1, He1.
  assert (E1 : e1 = e') by lia. clear He1. subst e1.
  set (m2 := round_nearest_even (shr_m mrs1) (loc_of_shr_record mrs1)).
  assert (Hm1pos : 1 <= shr_m mrs1).
  { rewrite Hm1. apply div_pow2_pos; [lia|].
    pose proof (fexp_shift D ez) as Hs. fold e' in Hs. subst D. lia. }
  assert (Hm2 : shr_m mrs1 <= m2) by apply round_nearest_even_ge.
  destruct m2 as [|p2|p2] eqn:Em2; try lia.
  destruct (shr_fexp_spec (Zpos p2) e' loc_Exact) as [Hm3 He3]; [lia|].
  cbn [Zdigits2] in Hm3, He3.
  set (n2 := Z.max 0 (fexp prec emax (Zpos (digits2_pos p2) + e') - e')) in *.
  assert (Hn2 : 0 <= n2 <= Zpos (digits2_pos p2) - 1).
  { split; [subst n2; lia|]. apply fexp_shift; [lia|]. apply fexp_ge_emin. }
  destruct (shr_fexp prec emax (Zpos p2) e' loc_Exact) as [mrs2 e3].
  cbn [fst snd] in Hm3, He3.
  assert (Hm3pos : 1 <= shr_m mrs2).
  { rewrite Hm3. apply div_pow2_pos; lia. }
  destruct (shr_m mrs2) as [|p3|p3] eqn:Em3; try lia.
  destruct (e3 <=? emax - prec); [|reflexivity].
  unfold SFleb, SFcompare.
  destruct (Z.compare_spec ex e3) as [E|L|G]; try reflexivity; try lia.
  assert (n2 = 0) by lia. assert (e' = ex) by lia.
  assert (Hp3 : Zpos mx <= Zpos p3).
  { rewrite Hm3. replace n2 with 0 by lia. rewrite Z.pow_0_r, Z.div_1_r.
    etransitivity; [|exact Hm2]. rewrite Hm1.
    apply Z.div_le_lower_bound; [apply Z.pow_pos_nonneg; lia|].
    replace (e' - ez) with (ex - ez) by lia. lia. }
  change (Pos.compare_cont Eq mx p3) with (Pos.compare mx p3).
  destruct (Pos.compare_spec mx p3); try reflexivity. lia.
Qed.

Lemma SFadd_nonneg_ge (x d : spec_float) :
  valid_binary x = true -> valid_binary d = true ->
  SFleb (S754_zero false) x = true -> SFleb (S754_zero false) d = true ->
  SFleb x (SF64add x d) = true.
Proof.
  intros Vx Vd Hx Hd.
  destruct x as [sx|sx| |sx mx ex]; try discriminate;
    destruct d as [sd|sd| |sd md ed]; try discriminate.
  - destruct sx, sd; reflexivity.
  - destruct sd; [discriminate|reflexivity].
  - destruct sd; [discriminate|reflexivity].
  - destruct sx; [discriminate|reflexivity].
  - destruct sx, sd; try discriminate. reflexivity.
  - destruct sx; [discriminate|reflexivity].
  - destruct sx; [discriminate|]. simpl. unfold SFleb.
    rewrite SFcompare_refl; [reflexivity|discriminate].
  - destruct sx, sd; try discriminate. reflexivity.
  - destruct sx, sd; try discriminate. now apply SFadd_finite_ge.
Qed.

End Addition.

Lemma add_nonneg_ge (x d : float) :
  (0 <=? x) = true -> (0 <=? d) = true -> (x <=? x + d) = true.
Proof.
  rewrite !FloatAxioms.leb_spec, add_spec.
  change (Prim2SF 0) with (S754_zero false).
  apply SFadd_nonneg_ge; apply Prim2SF_valid.
Qed.

(** ** Monotonicity of the cumulative producing days *)

Lemma mask_no_nan (s c : list float) :
  List.Forall (fun v => F.isnan v = false) s ->
  List.length c = List.length s ->
  List.map (fun '(m, r) => if (m : bool) then nan else r)
           (combine (List.map F.isnan s) c) = c.
Proof.
  revert c. induction s as [|v s IH]; intros [|r c] H Hlen; try discriminate;
    [reflexivity|].
  apply List.Forall_cons_iff in H as [Hv H]. simpl. rewrite Hv. f_equal.
  apply IH; [exact H|]. simpl in Hlen. congruence.
Qed.

Lemma cumsum_no_nan (s : list float) :
  List.Forall (fun v => F.isnan v = false) s -> pd.cumsum s = pd.np_cumsum s.
Proof.
  intros H. unfold pd.cumsum.
  assert (Hv : List.map (fun v => if F.isnan v then 0 else v) s = s).
  { induction H as [|v s Hv _ IH]; simpl; [reflexivity|]. now rewrite Hv, IH. }
  rewrite Hv. apply mask_no_nan; [exact H|apply np_cumsum_length].
Qed.

Lemma running_nondecreasing (acc : float) (s : list float) :
  (0 <=? acc) = true ->
  List.Forall (fun d => (0 <=? d) = true) s ->
  nondecreasing (acc :: pd.running acc s).
Proof.
  revert acc. induction s as [|d s IH]; intros acc Hacc Hs i a b Ha Hb.
  - destruct i; discriminate.
  - apply List.Forall_cons_iff in Hs as [Hd Hs].
    pose proof (add_nonneg_ge acc d Hacc Hd) as Hstep.
    destruct i as [|i].
    + simpl in Ha, Hb. injection Ha as <-. injection Hb as <-. exact Hstep.
    + apply (IH (acc + d) (leb_trans _ _ _ Hacc Hstep) Hs i a b); assumption.
Qed.

Lemma cumsum_nondecreasing (s : list float) :
  List.Forall (fun d => (0 <=? d) = true) s -> nondecreasing (pd.cumsum s).
Proof.
  intros H. rewrite cumsum_no_nan.
  - destruct s as [|v s]; [intros i a b Ha; destruct i; discriminate|].
    apply List.Forall_cons_iff in H as [Hv H]. now apply running_nondecreasing.
  - eapply List.Forall_impl; [|exact H]. intros d Hd. simpl in Hd.
    now apply leb_not_nan in Hd.
Qed.

(** C8. For every series whose producing days are all at least 0, the
    cumulative producing days of the prepared series do not decrease from
    one month to the next. *)
Theorem cumulative_days_nondecreasing (df : DataFrame) :
  List.Forall (fun r => (0 <=? Prod_days r) = true) (rows df) ->
  exists days_cum,
    Prod_days_cum (prepare df) = Some days_cum /\
    List.length days_cum = len df /\
    nondecreasing days_cum.
Proof.
  intros H. exists (pd.cumsum (col Prod_days df)).
  split; [reflexivity|].
  split; [rewrite cumsum_length; unfold col, len; apply List.length_map|].
  apply cumsum_nondecreasing. unfold col. apply List.Forall_map. exact H.
Qed.

Lemma cumulative_days_nondecreasing_witness :
  exists days_cum,
    Prod_days_cum (prepare adjusted) = Some days_cum /\
    List.length days_cum = len adjusted /\
    nondecreasing days_cum.
Proof.
  apply (cumulative_days_nondecreasing adjusted).
  repeat constructor.
Defined.

(** * Further properties of the code *)

(** ** calculate_well_ip on frames without rows, and called again *)

(** X1. [calculate_well_ip] raises exactly on a frame without rows, and then
    [IndexError] (from the first [iloc[0]]); by then the two derived columns
    have been written into the frame, empty.  No other exception leaves the
    function. *)
Theorem calculate_well_ip_raises (df : DataFrame) :
  (rows df = [] <-> snd (calculate_well_ip df) = Raise IndexError) /\
  (forall e, snd (calculate_well_ip df) = Raise e -> e = IndexError) /\
  (rows df = [] ->
   fst (calculate_well_ip df) = mkDataFrame [] (Some []) (Some [])).
Proof.
  destruct (rows df) as [|r0 rest] eqn:Hrows.
  - assert (E : snd (calculate_well_ip df) = Raise IndexError).
    { unfold calculate_well_ip, well_ip_of, col. cbn [snd].
      rewrite rows_prepare, Hrows. reflexivity. }
    rewrite E. repeat split; try congruence.
    intros _. unfold calculate_well_ip, prepare, set_Total_prod_vol,
      set_Prod_days_cum, col. cbn. rewrite Hrows. reflexivity.
  - rewrite (calculate_well_ip_snd df r0 rest Hrows).
    repeat split; try discriminate.
Qed.

(** X2. The result depends on the rows of the frame only: derived columns
    that the frame already has are overwritten, so calling
    [calculate_well_ip] again on the frame that a call left behind returns
    the same record and leaves the frame as it is. *)
Theorem calculate_well_ip_again (df : DataFrame) :
  (forall df', rows df' = rows df -> calculate_well_ip df' = calculate_well_ip df) /\
  calculate_well_ip (fst (calculate_well_ip df)) = calculate_well_ip df.
Proof.
  assert (H : forall df', rows df' = rows df -> prepare df' = prepare df).
  { intros df' E. unfold prepare, set_Total_prod_vol, set_Prod_days_cum, col.
    cbn [rows]. now rewrite E. }
  split.
  - intros df' E. unfold calculate_well_ip. now rewrite (H df' E).
  - unfold calculate_well_ip. cbn [fst]. now rewrite (H (prepare df) eq_refl).
Qed.

(** ** No IP outside the producing days that the series covers *)

Lemma first_x_In knots : knots <> [] -> exists y, In (first_x knots, y) knots.
Proof.
  destruct knots as [|[x0 y0] rest]; [congruence|]. intros _. exists y0. now left.
Qed.

Lemma last_x_In knots : knots <> [] -> exists y, In (last_x knots, y) knots.
Proof.
  intros H. destruct (knots_split_last knots H) as [l1 E]. exists (last_y knots).
  rewrite E at 3. apply List.in_or_app. right. now left.
Qed.

Lemma running_bounds (acc : float) (s : list float) :
  (0 <=? acc) = true ->
  List.Forall (fun d => (0 <=? d) = true) s ->
  List.Forall (fun c => (acc <=? c) = true /\ (c <=? List.last (pd.running acc s) acc) = true)
              (acc :: pd.running acc s).
Proof.
  revert acc. induction s as [|d s IH]; intros acc Hacc Hs.
  - simpl. constructor; [|constructor].
    assert (F.isnan acc = false) by now apply leb_not_nan in Hacc.
    split; now apply leb_refl.
  - apply List.Forall_cons_iff in Hs as [Hd Hs].
    pose proof (add_nonneg_ge acc d Hacc Hd) as Hstep.
    pose proof (leb_trans _ _ _ Hacc Hstep) as Hacc'.
    specialize (IH (acc + d) Hacc' Hs).
    simpl pd.running. rewrite last_cons_default.
    assert (Hlast : (acc + d <=? List.last (pd.running (acc + d) s) (acc + d)) = true).
    { apply List.Forall_cons_iff in IH as [[_ H] _]. exact H. }
    constructor.
    + split; [apply leb_refl; now apply leb_not_nan in Hacc|].
      exact (leb_trans _ _ _ Hstep Hlast).
    + eapply List.Forall_impl; [|exact IH]. intros c [H1 H2]. simpl. split; [|exact H2].
      exact (leb_trans _ _ _ Hstep H1).
Qed.

Lemma cumsum_bounds (d0 : float) (ds : list float) :
  List.Forall (fun d => (0 <=? d) = true) (d0 :: ds) ->
  List.Forall (fun c => (d0 <=? c) = true
                        /\ (c <=? List.last (pd.cumsum (d0 :: ds)) nan) = true)
              (pd.cumsum (d0 :: ds)).
Proof.
  intros H. rewrite cumsum_no_nan.
  - apply List.Forall_cons_iff in H as [H0 Hs]. simpl pd.np_cumsum.
    rewrite last_cons_default. now apply running_bounds.
  - eapply List.Forall_impl; [|exact H]. intros d Hd. simpl in Hd.
    now apply leb_not_nan in Hd.
Qed.

(** X3. For a series whose producing days are all at least 0, a milestone
    beyond the cumulative producing days of the record, or before the
    producing days of the first month, has no IP value in any stream,
    whether the gate passes or not: there is no knot at day 0, so a well
    whose first month has 31 producing days has no IP30. *)
Theorem no_ip_outside_series (df : DataFrame) (r0 : MonthlyRecord)
    (rest : list MonthlyRecord) (w : WellIP) :
  rows df = r0 :: rest ->
  List.Forall (fun r => (0 <=? Prod_days r) = true) (rows df) ->
  snd (calculate_well_ip df) = Ok w ->
  forall m,
    (cum_prod_days w <? days m) = true \/ (days m <? Prod_days r0) = true ->
    forall s, ip_value w s m = nan.
Proof.
  intros Hrows Hpos Hw m Hm s.
  rewrite (calculate_well_ip_snd df r0 rest Hrows) in Hw. cbv zeta in Hw.
  injection Hw as Hw.
  set (dc := pd.cumsum (col Prod_days df)) in *.
  assert (Hcum : cum_prod_days w = List.last dc nan).
  { rewrite <- Hw. destruct (gate df); reflexivity. }
  destruct (gate df) eqn:Hg; [|rewrite <- Hw; apply no_ip_step1].
  rewrite <- Hw, ip_value_with_ips.
  set (knots := knots_of (prepare df) s).
  assert (Hb : List.Forall (fun c => (Prod_days r0 <=? c) = true
                                     /\ (c <=? List.last dc nan) = true) dc).
  { subst dc. unfold col in *. rewrite Hrows in *.
    assert (Hpos' : List.Forall (fun d => (0 <=? d) = true)
                                (List.map Prod_days (r0 :: rest)))
      by (apply List.Forall_map; exact Hpos).
    exact (cumsum_bounds (Prod_days r0) (List.map Prod_days rest) Hpos'). }
  assert (Hin : forall x y, In (x, y) knots -> In x dc).
  { intros x y H. unfold knots, knots_of in H. simpl Prod_days_cum in H.
    apply (proj1 (In_sort _ _)) in H. apply (List.in_map fst) in H.
    rewrite map_fst_combine in H; [exact H|].
    fold dc. subst dc. rewrite cumsum_length. unfold col. now rewrite !List.length_map. }
  assert (Hne : knots <> []).
  { apply (knots_nonempty df s). rewrite Hrows. discriminate. }
  rewrite (interp1d_at_outside knots m); [apply nan_div_days|].
  rewrite List.Forall_forall in Hb. destruct Hm as [Hm|Hm].
  - right. destruct (last_x_In knots Hne) as [y Hy].
    destruct (Hb _ (Hin _ _ Hy)) as [_ Hle]. rewrite Hcum in Hm.
    exact (leb_ltb_trans _ _ _ Hle Hm).
  - left. destruct (first_x_In knots Hne) as [y Hy].
    destruct (Hb _ (Hin _ _ Hy)) as [Hle _].
    exact (ltb_leb_trans _ _ _ Hm Hle).
Qed.

Lemma no_ip_outside_series_witness :
  exists w,
    snd (calculate_well_ip full_year) = Ok w /\
    forall m,
      (cum_prod_days w <? days m) = true
      \/ (days m <? Prod_days (month 202101 31 150 150 0 50 5)) = true ->
      forall s, ip_value w s m = nan.
Proof.
  eexists. split; [vm_compute; reflexivity|].
  apply (no_ip_outside_series full_year (month 202101 31 150 150 0 50 5)
           (List.tl (rows full_year)));
    [reflexivity|repeat constructor|vm_compute; reflexivity].
Defined.

(** ** The refresh: one entry for each well of the table *)

Lemma filter_In_unique (a : str) (l : list str) :
  In a (getdata.unique l) <-> In a l.
Proof.
  induction l as [|b l IH]; simpl; [tauto|].
  rewrite List.filter_In, IH, negb_true_iff, bool_decide_eq_false.
  destruct (decide (a = b)) as [->|Hab]; [tauto|]. intuition congruence.
Qed.

Lemma well_frame_rows (t : list MonthlyRecord) (wa_num : str) :
  In wa_num (List.map Wa_num t) ->
  exists r0 rest,
    rows (getdata.well_frame t wa_num) = r0 :: rest /\
    List.Forall (fun r => In r t /\ Wa_num r = wa_num) (r0 :: rest).
Proof.
  intros H. apply List.in_map_iff in H as (r & Hr & Hin).
  assert (Hf : In r (rows (getdata.well_frame t wa_num))).
  { simpl. apply List.filter_In. split; [exact Hin|]. now apply bool_decide_eq_true. }
  assert (Hall : List.Forall (fun r => In r t /\ Wa_num r = wa_num)
                             (rows (getdata.well_frame t wa_num))).
  { apply List.Forall_forall. intros r' Hr'. simpl in Hr'.
    apply List.filter_In in Hr' as [H1 H2]. split; [exact H1|].
    now apply bool_decide_eq_true in H2. }
  destruct (rows (getdata.well_frame t wa_num)) as [|r0 rest]; [contradiction|].
  eauto.
Qed.

Lemma well_frame_no_rows (t : list MonthlyRecord) (wa_num : str) :
  ~ In wa_num (List.map Wa_num t) -> rows (getdata.well_frame t wa_num) = [].
Proof.
  intros H. simpl. destruct (List.filter _ t) as [|r l] eqn:E; [reflexivity|].
  exfalso. apply H. assert (Hr : In r (r :: l)) by now left.
  rewrite <- E in Hr. apply List.filter_In in Hr as [H1 H2].
  apply bool_decide_eq_true in H2. rewrite <- H2. now apply List.in_map.
Qed.

Lemma last_In {A} (a : A) (l : list A) : In (List.last l a) (a :: l).
Proof.
  revert a. induction l as [|b l IH]; intros a; [now left|].
  rewrite last_cons_default. right. apply IH.
Qed.

Lemma well_entry (t : list MonthlyRecord) (wa_num : str) :
  In wa_num (List.map Wa_num t) ->
  exists w r0 rl,
    snd (calculate_well_ip (getdata.well_frame t wa_num)) = Ok w /\
    wa w = wa_num /\
    In r0 t /\ In rl t /\
    first_prod_month w = Prod_period r0 /\ last_prod_month w = Prod_period rl.
Proof.
  intros H. destruct (well_frame_rows t wa_num H) as (r0 & rest & Hrows & Hall).
  rewrite (calculate_well_ip_snd _ r0 rest Hrows). cbv zeta.
  rewrite List.Forall_forall in Hall.
  destruct (Hall r0 (or_introl eq_refl)) as [H0 Hwa].
  destruct (Hall (List.last rest r0) (last_In r0 rest)) as [Hl _].
  eexists. exists r0, (List.last rest r0). split; [reflexivity|].
  destruct (gate _); repeat split; assumption.
Qed.

Lemma comprehension_lookup (t : list MonthlyRecord) (was : list str)
    (d : gmap str WellIP) :
  (forall a, a ∈ was -> In a (List.map Wa_num t)) ->
  exists m,
    getdata.comprehension t was d = Ok m /\
    forall k,
      m !! k = if bool_decide (k ∈ was)
               then match snd (calculate_well_ip (getdata.well_frame t k)) with
                    | Ok w => Some w
                    | Raise _ => None
                    end
               else d !! k.
Proof.
  revert d. induction was as [|a was IH]; intros d Hwas.
  - exists d. split; [reflexivity|]. intros k.
    rewrite bool_decide_eq_false_2; [reflexivity|]. apply not_elem_of_nil.
  - destruct (well_entry t a (Hwas a (list_elem_of_here a was)))
      as (w & r0 & rl & Hw & Hwa & _).
    destruct (IH (<[a := w]> d)) as (m & Hm & Hk).
    { intros b Hb. apply Hwas. now apply list_elem_of_further. }
    exists m. split.
    + cbn [getdata.comprehension]. rewrite Hw. cbn [mbind result_bind].
      rewrite Hwa. exact Hm.
    + intros k. rewrite Hk. destruct (decide (k ∈ was)) as [Hin|Hnin].
      * rewrite !bool_decide_eq_true_2; [reflexivity| |exact Hin].
        now apply list_elem_of_further.
      * rewrite (bool_decide_eq_false_2 _ Hnin).
        destruct (decide (k = a)) as [->|Hka].
        -- rewrite bool_decide_eq_true_2 by apply list_elem_of_here.
           now rewrite lookup_insert_eq, Hw.
        -- rewrite bool_decide_eq_false_2
             by (rewrite elem_of_cons; intros [E|E]; congruence).
           now rewrite lookup_insert_ne by congruence.
Qed.

Lemma all_wells_ip_lookup (t : list MonthlyRecord) :
  exists m,
    getdata.all_wells_ip t = Ok m /\
    forall k,
      m !! k = if bool_decide (k ∈ List.map Wa_num t)
               then match snd (calculate_well_ip (getdata.well_frame t k)) with
                    | Ok w => Some w
                    | Raise _ => None
                    end
               else None.
Proof.
  destruct (comprehension_lookup t (getdata.unique (List.map Wa_num t)) ∅)
    as (m & Hm & Hk).
  { intros a Ha. apply list_elem_of_In in Ha.
    exact (proj1 (filter_In_unique a _) Ha). }
  exists m. split; [exact Hm|]. intros k. rewrite Hk, lookup_empty.
  destruct (decide (k ∈ List.map Wa_num t)) as [Hin|Hnin].
  - rewrite !bool_decide_eq_true_2; [reflexivity|exact Hin|].
    apply list_elem_of_In. apply (proj2 (filter_In_unique k _)).
    now apply list_elem_of_In.
  - rewrite !bool_decide_eq_false_2; [reflexivity|exact Hnin|].
    intros H. apply Hnin. apply list_elem_of_In in H.
    apply list_elem_of_In. exact (proj1 (filter_In_unique k _) H).
Qed.

(** X4. The refresh never raises: every well identifier of the table has
    rows, so every calculation returns.  The published mapping has exactly
    the well identifiers of the table as its keys; for a table without rows
    it is empty and the watermark is missing. *)
Theorem refresh_publishes_every_well (t : list MonthlyRecord) :
  exists m,
    getdata.all_wells_ip t = Ok m /\
    (forall wa_num, is_Some (m !! wa_num) <-> In wa_num (List.map Wa_num t)) /\
    (t = [] -> m = ∅ /\ getdata.most_recent_prod_period t = None).
Proof.
  destruct (all_wells_ip_lookup t) as (m & Hm & Hk). exists m.
  split; [exact Hm|]. split.
  - intros k. rewrite Hk. destruct (decide (k ∈ List.map Wa_num t)) as [Hin|Hnin].
    + rewrite bool_decide_eq_true_2 by exact Hin. apply list_elem_of_In in Hin.
      destruct (well_entry t k Hin) as (w & _ & _ & Hw & _). rewrite Hw.
      split; [intros _; exact Hin|intros _; eexists; reflexivity].
    + rewrite bool_decide_eq_false_2 by exact Hnin. rewrite <- list_elem_of_In.
      split; [intros [w Hw]; discriminate|contradiction].
  - intros ->. split; [|reflexivity]. apply map_eq. intros k.
    rewrite Hk, lookup_empty. rewrite bool_decide_eq_false_2; [reflexivity|].
    apply not_elem_of_nil.
Qed.

(** X5. Every entry of the published mapping is the result of
    [calculate_well_ip] on the rows of its own well alone, taken in the
    order of the table, and is stored under the well identifier that it
    carries. *)
Theorem refresh_entry (t : list MonthlyRecord) (m : gmap str WellIP)
    (wa_num : str) (w : WellIP) :
  getdata.all_wells_ip t = Ok m ->
  m !! wa_num = Some w ->
  snd (calculate_well_ip (getdata.well_frame t wa_num)) = Ok w /\
  wa w = wa_num /\
  rows (getdata.well_frame t wa_num)
  = List.filter (fun r => bool_decide (Wa_num r = wa_num)) t.
Proof.
  intros Hm Hw. destruct (all_wells_ip_lookup t) as (m' & Hm' & Hk).
  rewrite Hm in Hm'. injection Hm' as <-. rewrite Hk in Hw.
  destruct (decide (wa_num ∈ List.map Wa_num t)) as [Hin|Hnin].
  - rewrite bool_decide_eq_true_2 in Hw by exact Hin. apply list_elem_of_In in Hin.
    destruct (well_entry t wa_num Hin) as (w' & _ & _ & Hw' & Hwa & _).
    rewrite Hw' in Hw. injection Hw as <-. repeat split; assumption.
  - rewrite bool_decide_eq_false_2 in Hw by exact Hnin. discriminate.
Qed.

Lemma refresh_entry_witness :
  exists m w,
    getdata.all_wells_ip production_table = Ok m /\
    m !! pystr "00042" = Some w /\
    snd (calculate_well_ip (getdata.well_frame production_table (pystr "00042")))
    = Ok w /\
    wa w = pystr "00042" /\
    rows (getdata.well_frame production_table (pystr "00042"))
    = List.filter (fun r => bool_decide (Wa_num r = pystr "00042")) production_table.
Proof.
  do 2 eexists.
  split; [vm_compute; reflexivity|]. split; [vm_compute; reflexivity|].
  eapply (refresh_entry production_table); vm_compute; reflexivity.
Defined.

(** X6. The published mapping does not depend on how the rows of different
    wells are arranged in the table: two tables that hold, for every well
    identifier, the same rows in the same order give the same mapping. *)
Theorem refresh_independent_of_other_wells (t1 t2 : list MonthlyRecord) :
  (forall wa_num, getdata.well_frame t1 wa_num = getdata.well_frame t2 wa_num) ->
  getdata.all_wells_ip t1 = getdata.all_wells_ip t2.
Proof.
  intros H.
  destruct (all_wells_ip_lookup t1) as (m1 & Hm1 & Hk1).
  destruct (all_wells_ip_lookup t2) as (m2 & Hm2 & Hk2).
  rewrite Hm1, Hm2. f_equal. apply map_eq. intros k.
  rewrite Hk1, Hk2, H.
  assert (Hiff : forall t, k ∈ List.map Wa_num t
                           <-> rows (getdata.well_frame t k) <> []).
  { intros t. rewrite list_elem_of_In. split.
    - intros Hin. destruct (well_frame_rows t k Hin) as (r0 & rest & E & _).
      rewrite E. discriminate.
    - intros Hne. destruct (decide (k ∈ List.map Wa_num t)) as [Hin|Hnin];
        [now apply list_elem_of_In|].
      exfalso. apply Hne. apply well_frame_no_rows.
      intros Hin. apply Hnin. now apply list_elem_of_In. }
  assert (E : bool_decide (k ∈ List.map Wa_num t1)
              = bool_decide (k ∈ List.map Wa_num t2)).
  { apply bool_decide_ext. rewrite !Hiff, H. reflexivity. }
  now rewrite E.
Qed.

Lemma refresh_independent_of_other_wells_witness :
  getdata.all_wells_ip production_table
  = getdata.all_wells_ip production_table_grouped.
Proof.
  apply refresh_independent_of_other_wells.
  intros k. unfold getdata.well_frame. f_equal.
  unfold production_table, production_table_grouped.
  cbn [List.filter month month_b Wa_num].
  destruct (decide (pystr "39167" = k)) as [Ea|Na];
    destruct (decide (pystr "00042" = k)) as [Eb|Nb].
  - rewrite <- Ea in Eb. vm_compute in Eb. discriminate.
  - rewrite !(bool_decide_eq_true_2 _ Ea), !(bool_decide_eq_false_2 _ Nb). reflexivity.
  - rewrite !(bool_decide_eq_false_2 _ Na), !(bool_decide_eq_true_2 _ Eb). reflexivity.
  - rewrite !(bool_decide_eq_false_2 _ Na), !(bool_decide_eq_false_2 _ Nb). reflexivity.
Defined.

(** ** The watermark *)

Lemma fold_left_max_init (ps : list Z) (p : Z) : (p <= fold_left Z.max ps p)%Z.
Proof.
  revert p. induction ps as [|q ps IH]; intros p; simpl; [lia|].
  specialize (IH (Z.max p q)). lia.
Qed.

Lemma fold_left_max_le (ps : list Z) (p x : Z) :
  In x ps -> (x <= fold_left Z.max ps p)%Z.
Proof.
  revert p. induction ps as [|q ps IH]; intros p H; simpl in *; [contradiction|].
  destruct H as [->|H]; [|now apply IH].
  pose proof (fold_left_max_init ps (Z.max p x)). lia.
Qed.

Lemma fold_left_max_In (ps : list Z) (p : Z) :
  fold_left Z.max ps p = p \/ In (fold_left Z.max ps p) ps.
Proof.
  revert p. induction ps as [|q ps IH]; intros p; simpl; [now left|].
  destruct (IH (Z.max p q)) as [H|H]; [|right; now right].
  rewrite H. destruct (Z.max_spec p q) as [[_ E]|[_ E]]; rewrite E; [right|]; now left.
Qed.

Lemma most_recent_spec (t : list MonthlyRecord) (p : Z) :
  getdata.most_recent_prod_period t = Some p ->
  (forall r, In r t -> (Prod_period r <= p)%Z) /\
  exists r, In r t /\ Prod_period r = p.
Proof.
  unfold getdata.most_recent_prod_period. destruct t as [|r0 t]; [discriminate|].
  simpl List.map. intros H. injection H as <-. split.
  - intros r [<-|Hr]; [apply fold_left_max_init|].
    apply fold_left_max_le. now apply List.in_map.
  - destruct (fold_left_max_In (List.map Prod_period t) (Prod_period r0)) as [E|E].
    + exists r0. split; [now left|now rewrite E].
    + apply List.in_map_iff in E as (r & Er & Hr). exists r. split; [now right|exact Er].
Qed.

(** X7. The watermark is the latest reporting period of the table: some row
    has it, no row has a later one, and so no published record has a first
    or a last production month after it. *)
Theorem watermark_bounds_every_well (t : list MonthlyRecord)
    (m : gmap str WellIP) (p : Z) :
  getdata.all_wells_ip t = Ok m ->
  getdata.most_recent_prod_period t = Some p ->
  (exists r, In r t /\ Prod_period r = p) /\
  (forall r, In r t -> (Prod_period r <= p)%Z) /\
  (forall wa_num w, m !! wa_num = Some w ->
     (first_prod_month w <= p)%Z /\ (last_prod_month w <= p)%Z).
Proof.
  intros Hm Hp. destruct (most_recent_spec t p Hp) as [Hle Hex].
  split; [exact Hex|]. split; [exact Hle|].
  intros k w Hw. destruct (all_wells_ip_lookup t) as (m' & Hm' & Hk).
  rewrite Hm in Hm'. injection Hm' as <-. rewrite Hk in Hw.
  destruct (decide (k ∈ List.map Wa_num t)) as [Hin|Hnin].
  - rewrite bool_decide_eq_true_2 in Hw by exact Hin. apply list_elem_of_In in Hin.
    destruct (well_entry t k Hin) as (w' & r0 & rl & Hw' & _ & H0 & Hl & Ef & El).
    rewrite Hw' in Hw. injection Hw as <-. rewrite Ef, El. split; now apply Hle.
  - rewrite bool_decide_eq_false_2 in Hw by exact Hnin. discriminate.
Qed.

Lemma watermark_bounds_every_well_witness :
  exists m,
    getdata.all_wells_ip production_table = Ok m /\
    (exists r, In r production_table /\ Prod_period r = 202007%Z) /\
    (forall r, In r production_table -> (Prod_period r <= 202007)%Z) /\
    (forall wa_num w, m !! wa_num = Some w ->
       (first_prod_month w <= 202007)%Z /\ (last_prod_month w <= 202007)%Z).
Proof.
  eexists. split; [vm_compute; reflexivity|].
  eapply (watermark_bounds_every_well production_table); vm_compute; reflexivity.
Defined.

(** ** From the table to the response *)

Lemma dict_WA w :
  metric_dict w !! "WA" = Some (VStr (wa w)) /\
  field_dict w !! "WA" = Some (VStr (wa w)).
Proof. split; reflexivity. Qed.

(** X8. Served from the mapping that the refresh publishes, the handler of
    [GET /api/{wa}] returns a dictionary exactly when [wa] is five numeric
    characters, [units] is ["metric"], ["field"] or absent, and the table
    has a row of the well; the answer is 404 exactly when [wa] and [units]
    are valid and the table has no row of the well.  A returned dictionary
    carries the requested identifier as "WA" and is answered with 200 when
    every float in it is finite, and with 500 otherwise. *)
Theorem served_wells (isnumeric_char : N -> bool) (t : list MonthlyRecord)
    (m : gmap str WellIP) (wa_num : str) (units : option str) :
  getdata.all_wells_ip t = Ok m ->
  let r := get_api isnumeric_char m wa_num units in
  let valid :=
    (List.length wa_num = 5%nat
     /\ List.Forall (fun c => isnumeric_char c = true) wa_num) /\
    (default (pystr "metric") units = pystr "metric"
     \/ default (pystr "metric") units = pystr "field") in
  ((exists d, r = Returns d) <-> valid /\ In wa_num (List.map Wa_num t)) /\
  (status r = 404%Z <-> valid /\ ~ In wa_num (List.map Wa_num t)) /\
  (status r = 200%Z <->
     exists d, r = Returns d
               /\ forall k f, d !! k = Some (VFloat f) -> PrimFloat.is_finite f = true) /\
  (forall d, r = Returns d ->
     d !! "WA" = Some (VStr wa_num) /\ (status r = 200%Z \/ status r = 500%Z)).
Proof.
  intros Hm r valid. destruct (all_wells_ip_lookup t) as (m' & Hm' & Hk).
  rewrite Hm in Hm'. injection Hm' as <-.
  subst r valid. unfold get_api, ip. set (u := default (pystr "metric") units).
  assert (Hwa : negb (Nat.eqb (List.length wa_num) 5)
                || negb (isnumeric isnumeric_char wa_num) = false
                <-> List.length wa_num = 5%nat
                    /\ List.Forall (fun c => isnumeric_char c = true) wa_num).
  { rewrite orb_false_iff, !negb_false_iff, Nat.eqb_eq, isnumeric_iff.
    split; [tauto|]. intros [H1 H2]. repeat split; try assumption.
    intros ->. discriminate. }
  assert (Hu : negb (bool_decide (u ∈ [pystr "metric"; pystr "field"])) = false
               <-> u = pystr "metric" \/ u = pystr "field").
  { rewrite negb_false_iff, bool_decide_eq_true, !elem_of_cons, elem_of_nil. tauto. }
  destruct (negb (Nat.eqb (List.length wa_num) 5)
            || negb (isnumeric isnumeric_char wa_num)) eqn:E1.
  { assert (Hn : ~ (List.length wa_num = 5%nat
                    /\ List.Forall (fun c => isnumeric_char c = true) wa_num))
      by (rewrite <- Hwa; discriminate).
    simpl status.
    split; [split; [intros [d Hd]; discriminate|tauto]|].
    split; [split; [discriminate|tauto]|].
    split; [split; [discriminate|intros (d & Hd & _); discriminate]|].
    intros d Hd. discriminate. }
  destruct (negb (bool_decide (u ∈ [pystr "metric"; pystr "field"]))) eqn:E2.
  { assert (Hn : ~ (u = pystr "metric" \/ u = pystr "field"))
      by (rewrite <- Hu; discriminate).
    simpl status.
    split; [split; [intros [d Hd]; discriminate|tauto]|].
    split; [split; [discriminate|tauto]|].
    split; [split; [discriminate|intros (d & Hd & _); discriminate]|].
    intros d Hd. discriminate. }
  pose proof (proj1 Hwa eq_refl) as Vwa. pose proof (proj1 Hu eq_refl) as Vu.
  rewrite Hk. destruct (decide (wa_num ∈ List.map Wa_num t)) as [Hin|Hnin].
  - rewrite bool_decide_eq_true_2 by exact Hin. apply list_elem_of_In in Hin.
    destruct (well_entry t wa_num Hin) as (w & _ & _ & Hw & Hwa' & _).
    rewrite Hw.
    destruct (status_Returns (nan_to_none <$> wellip_to_dict w u)) as (S1 & S2 & S3).
    split; [split; [tauto|intros _; eexists; reflexivity]|].
    split; [split; [intros E; destruct S3; congruence|tauto]|].
    split.
    + split.
      * intros E. eexists. split; [reflexivity|].
        unfold status in E. destruct (encodable _) eqn:Ee; [|discriminate].
        now apply encodable_iff.
      * intros (d & Hd & Hf). injection Hd as <-. now apply S1.
    + intros d Hd. injection Hd as <-. split; [|exact S3]. rewrite lookup_fmap.
      destruct (dict_WA w) as [Em Ef].
      destruct Vu as [Eu|Eu]; rewrite Eu.
      * rewrite wellip_to_dict_metric, lookup_fmap, Em, Hwa'. reflexivity.
      * rewrite wellip_to_dict_field, lookup_fmap, Ef, Hwa'. reflexivity.
  - rewrite bool_decide_eq_false_2 by exact Hnin.
    assert (Hn : ~ In wa_num (List.map Wa_num t))
      by (intros H; apply list_elem_of_In in H; contradiction).
    simpl status.
    split; [split; [intros [d Hd]; discriminate|tauto]|].
    split; [split; [tauto|reflexivity]|].
    split; [split; [discriminate|intros (d & Hd & _); discriminate]|].
    intros d Hd. discriminate.
Qed.

Lemma served_wells_witness :
  exists m,
    getdata.all_wells_ip production_table = Ok m /\
    let r := get_api ascii_digit m (pystr "00042") None in
    let valid :=
      (List.length (pystr "00042") = 5%nat
       /\ List.Forall (fun c => ascii_digit c = true) (pystr "00042")) /\
      (default (pystr "metric") None = pystr "metric"
       \/ default (pystr "metric") None = pystr "field") in
    ((exists d, r = Returns d) <-> valid /\ In (pystr "00042") (List.map Wa_num production_table)) /\
    (status r = 404%Z <-> valid /\ ~ In (pystr "00042") (List.map Wa_num production_table)) /\
    (status r = 200%Z <->
       exists d, r = Returns d
                 /\ forall k f, d !! k = Some (VFloat f) -> PrimFloat.is_finite f = true) /\
    (forall d, r = Returns d ->
       d !! "WA" = Some (VStr (pystr "00042")) /\ (status r = 200%Z \/ status r = 500%Z)).
Proof.
  eexists. split; [vm_compute; reflexivity|].
  eapply (served_wells ascii_digit production_table). vm_compute. reflexivity.
Defined.

(** ** Rounding and unit conversion keep a number a number *)

Section Validity.

Local Open Scope Z_scope.

Lemma Zdigits2_log2 m : 0 < m -> Zdigits2 m = Z.log2 m + 1.
Proof. destruct m as [|p|p]; try lia. intros _. apply digits2_pos_log2. Qed.

Lemma Zdigits2_mono a b : 0 <= a <= b -> Zdigits2 a <= Zdigits2 b.
Proof.
  intros [Ha Hab]. destruct (Z.eq_dec a 0) as [->|Na].
  - destruct b; simpl; lia.
  - rewrite !Zdigits2_log2 by lia. pose proof (Z.log2_le_mono a b Hab). lia.
Qed.

Lemma Zdigits2_div_pow2 m n :
  0 <= n -> 0 < m / 2 ^ n -> Zdigits2 (m / 2 ^ n) + n = Zdigits2 m.
Proof.
  intros Hn Hq.
  assert (Hp : 0 < 2 ^ n) by (apply Z.pow_pos_nonneg; lia).
  assert (Hm : 2 ^ n <= m).
  { destruct (Z_lt_le_dec m (2 ^ n)) as [Hlt|]; [|assumption].
    destruct (Z_lt_le_dec m 0) as [Hneg|Hpos].
    - pose proof (Z.div_lt_upper_bound m (2 ^ n) 0 Hp). lia.
    - rewrite Z.div_small in Hq by lia. lia. }
  rewrite !Zdigits2_log2 by lia.
  rewrite <- Z.shiftr_div_pow2, Z.log2_shiftr by lia.
  apply Z.log2_le_pow2 in Hm; lia.
Qed.

Lemma binary_round_aux_valid s mz ez lz :
  0 <= mz -> ez <= fexp prec emax (Zdigits2 mz + ez) ->
  valid_binary (binary_round_aux prec emax s mz ez lz) = true.
Proof.
  intros Hmz Hez. unfold binary_round_aux.
  destruct (shr_fexp_spec mz ez lz Hmz) as [Hm1 He1].
  set (f1 := fexp prec emax (Zdigits2 mz + ez)) in *.
  replace (Z.max 0 (f1 - ez)) with (f1 - ez) in Hm1, He1 by lia.
  destruct (shr_fexp prec emax mz ez lz) as [mrs1 e1]. cbn [fst snd] in Hm1, He1.
  assert (E1 : e1 = f1) by lia. clear He1.
  assert (Hm1n : 0 <= shr_m mrs1)
    by (rewrite Hm1; apply Z.div_pos; [lia|apply Z.pow_pos_nonneg; lia]).
  assert (K : fexp prec emax (Zdigits2 (shr_m mrs1) + e1) = e1
              \/ (shr_m mrs1 = 0 /\ e1 = SpecFloat.emin prec emax)).
  { destruct (Z.eq_dec (shr_m mrs1) 0) as [Z1|N1].
    - right. split; [exact Z1|]. rewrite E1.
      destruct (Z.eq_dec mz 0) as [->|Nz].
      + subst f1. simpl Zdigits2 in *. unfold fexp, SpecFloat.emin, prec, emax in *. lia.
      + assert (Hlt : mz < 2 ^ (f1 - ez)).
        { rewrite Hm1 in Z1.
          apply Z.div_small_iff in Z1; [|apply Z.pow_nonzero; lia].
          assert (0 < 2 ^ (f1 - ez)) by (apply Z.pow_pos_nonneg; lia). lia. }
        apply Z.log2_lt_pow2 in Hlt; [|lia].
        pose proof (Zdigits2_log2 mz ltac:(lia)) as HD.
        subst f1. unfold fexp, SpecFloat.emin, prec, emax in *. lia.
    - left. pose proof (Zdigits2_div_pow2 mz (f1 - ez) ltac:(lia)) as HD.
      rewrite <- Hm1 in HD. specialize (HD ltac:(lia)).
      replace (Zdigits2 (shr_m mrs1) + e1) with (Zdigits2 mz + ez) by lia.
      subst f1. lia. }
  set (m2 := round_nearest_even (shr_m mrs1) (loc_of_shr_record mrs1)).
  assert (Hm2 : shr_m mrs1 <= m2) by apply round_nearest_even_ge.
  assert (K2 : e1 <= fexp prec emax (Zdigits2 m2 + e1)).
  { destruct K as [K|[_ K]].
    - rewrite <- K at 1. apply fexp_mono.
      pose proof (Zdigits2_mono (shr_m mrs1) m2 ltac:(lia)). lia.
    - rewrite K. apply fexp_ge_emin. }
  destruct (shr_fexp_spec m2 e1 loc_Exact ltac:(lia)) as [Hm3 He3].
  set (f2 := fexp prec emax (Zdigits2 m2 + e1)) in *.
  replace (Z.max 0 (f2 - e1)) with (f2 - e1) in Hm3, He3 by lia.
  destruct (shr_fexp prec emax m2 e1 loc_Exact) as [mrs2 e3]. cbn [fst snd] in Hm3, He3.
  destruct (shr_m mrs2) as [|p3|p3] eqn:Em3; try reflexivity.
  destruct (e3 <=? emax - prec) eqn:Ele; [|reflexivity].
  simpl. unfold bounded, canonical_mantissa. rewrite Ele, andb_true_r.
  apply Z.eqb_eq.
  pose proof (Zdigits2_div_pow2 m2 (f2 - e1) ltac:(lia)) as HD.
  rewrite <- Hm3 in HD. specialize (HD ltac:(lia)).
  change (Zdigits2 (Zpos p3)) with (Zpos (digits2_pos p3)) in HD.
  replace (Zpos (digits2_pos p3) + e3) with (Zdigits2 m2 + e1) by lia.
  fold f2. lia.
Qed.

Lemma SFdiv_core_exponent m1 e1 m2 e2 :
  0 < m1 -> 0 < m2 ->
  let '(q, e', _) := SFdiv_core_binary prec emax m1 e1 m2 e2 in
  0 <= q /\ e' <= fexp prec emax (Zdigits2 q + e').
Proof.
  intros H1 H2. unfold SFdiv_core_binary.
  set (X := Zdigits2 m1 + e1 - (Zdigits2 m2 + e2)).
  set (e' := Z.min (fexp prec emax X) (e1 - e2)).
  set (s := e1 - e2 - e').
  assert (Hs : 0 <= s) by (subst s e'; lia).
  set (m' := match s with Zpos _ => Z.shiftl m1 s | Z0 => m1 | Zneg _ => 0 end).
  assert (Em' : m' = m1 * 2 ^ s).
  { subst m'. destruct s eqn:Es; try lia. apply Z.shiftl_mul_pow2. lia. }
  assert (Hp : 0 < 2 ^ s) by (apply Z.pow_pos_nonneg; lia).
  assert (Hq : 0 <= m' / m2) by (apply Z.div_pos; nia).
  destruct (Z.div_eucl m' m2) as [q r] eqn:Ed.
  assert (Eq : q = m' / m2) by (unfold Z.div; now rewrite Ed).
  split; [lia|].
  destruct (Z_le_gt_dec (fexp prec emax X) (SpecFloat.emin prec emax)) as [Hsub|Hnorm].
  - etransitivity; [|apply fexp_ge_emin]. subst e'. lia.
  - assert (HX : fexp prec emax X = X - prec)
      by (unfold fexp, SpecFloat.emin, prec, emax in *; lia).
    set (k := Zdigits2 m1 + s - Zdigits2 m2 - 1).
    assert (Hk : 0 <= k).
    { subst k s e' X. rewrite HX. unfold prec. lia. }
    assert (Hd1 : 2 ^ (Zdigits2 m1 - 1) <= m1).
    { rewrite Zdigits2_log2 by lia.
      replace (Z.log2 m1 + 1 - 1) with (Z.log2 m1) by lia. apply Z.log2_spec. lia. }
    assert (Hd2 : m2 < 2 ^ Zdigits2 m2).
    { rewrite Zdigits2_log2 by lia. apply Z.log2_spec. lia. }
    assert (Hd1' : 1 <= Zdigits2 m1).
    { rewrite Zdigits2_log2 by lia. pose proof (Z.log2_nonneg m1). lia. }
    assert (Hd2' : 1 <= Zdigits2 m2).
    { rewrite Zdigits2_log2 by lia. pose proof (Z.log2_nonneg m2). lia. }
    assert (Hqk : 2 ^ k <= q).
    { rewrite Eq. apply Z.div_le_lower_bound; [lia|].
      assert (E : 2 ^ (Zdigits2 m1 - 1) * 2 ^ s = 2 ^ k * 2 ^ Zdigits2 m2).
      { rewrite <- !Z.pow_add_r by lia. f_equal. subst k. lia. }
      assert (0 < 2 ^ k) by (apply Z.pow_pos_nonneg; lia).
      rewrite Em'. nia. }
    assert (Hdq : k + 1 <= Zdigits2 q).
    { assert (0 < 2 ^ k) by (apply Z.pow_pos_nonneg; lia).
      rewrite Zdigits2_log2 by lia.
      apply Z.log2_le_pow2 in Hqk; lia. }
    etransitivity; [|apply (fexp_mono X)]; [subst e'; lia|].
    subst k s X. lia.
Qed.

Lemma SFdiv_finite_valid sx mx ex sy my ey :
  valid_binary (SF64div (S754_finite sx mx ex) (S754_finite sy my ey)) = true.
Proof.
  unfold SF64div, SFdiv.
  pose proof (SFdiv_core_exponent (Zpos mx) ex (Zpos my) ey) as H.
  destruct (SFdiv_core_binary prec emax (Zpos mx) ex (Zpos my) ey) as [[q e'] l].
  destruct H as [Hq He]; try lia. now apply binary_round_aux_valid.
Qed.

Lemma SFdiv_finite_not_nan sx mx ex sy my ey :
  SF64div (S754_finite sx mx ex) (S754_finite sy my ey) <> S754_nan.
Proof.
  unfold SF64div, SFdiv.
  pose proof (SFdiv_core_exponent (Zpos mx) ex (Zpos my) ey) as H.
  destruct (SFdiv_core_binary prec emax (Zpos mx) ex (Zpos my) ey) as [[q e'] l].
  destruct H as [Hq He]; try lia. now apply binary_round_aux_not_nan.
Qed.

End Validity.

Lemma not_nan_isnan x sf : Prim2SF x = sf -> sf <> S754_nan -> F.isnan x = false.
Proof.
  intros E H. destruct (F.isnan x) eqn:N; [|reflexivity].
  apply isnan_Prim2SF in N. congruence.
Qed.

Lemma SF2Prim_not_nan y :
  valid_binary y = true -> y <> S754_nan -> F.isnan (SF2Prim y) = false.
Proof.
  intros V H. apply (not_nan_isnan _ y); [now apply Prim2SF_SF2Prim|exact H].
Qed.

Lemma round1_isnan x : F.isnan (py.round1 x) = F.isnan x.
Proof.
  unfold py.round1. destruct (Prim2SF x) as [s|s| |s m e] eqn:E; try reflexivity.
  assert (Hx : F.isnan x = false) by (apply (not_nan_isnan _ _ E); discriminate).
  destruct (0 <=? e)%Z; [reflexivity|]. rewrite Hx.
  destruct (py.div_half_even _ _) as [|tenths|tenths].
  - destruct s; reflexivity.
  - apply SF2Prim_not_nan;
      [apply SFdiv_finite_valid|apply SFdiv_finite_not_nan].
  - destruct s; reflexivity.
Qed.

Lemma mul_finite_isnan v c sc mc ec :
  Prim2SF c = S754_finite sc mc ec -> F.isnan (v * c) = F.isnan v.
Proof.
  intros Hc. destruct (Prim2SF v) as [s|s| |s m e] eqn:E.
  - rewrite (not_nan_isnan v _ E) by discriminate.
    apply (not_nan_isnan _ (S754_zero (xorb s sc))); [|discriminate].
    now rewrite mul_spec, E, Hc.
  - rewrite (not_nan_isnan v _ E) by discriminate.
    apply (not_nan_isnan _ (S754_infinity (xorb s sc))); [|discriminate].
    now rewrite mul_spec, E, Hc.
  - assert (Hv : F.isnan v = true) by now apply isnan_Prim2SF.
    rewrite Hv. apply isnan_Prim2SF. now rewrite mul_spec, E.
  - rewrite (not_nan_isnan v _ E) by discriminate.
    eapply not_nan_isnan; [rewrite mul_spec, E, Hc; reflexivity|].
    apply binary_round_aux_not_nan. discriminate.
Qed.

Lemma to_field_ip_isnan s v : F.isnan (to_field_ip s v) = F.isnan v.
Proof.
  destruct s; unfold to_field_ip; eapply mul_finite_isnan; vm_compute; reflexivity.
Qed.

Lemma to_field_cum_isnan s v : F.isnan (to_field_cum s v) = F.isnan v.
Proof.
  destruct s; unfold to_field_cum;
    try (eapply mul_finite_isnan; vm_compute; reflexivity).
  etransitivity; eapply mul_finite_isnan; vm_compute; reflexivity.
Qed.

Lemma nan_to_none_round f :
  nan_to_none (round_value (VFloat f))
  = if F.isnan f then VNone else VFloat (py.round1 f).
Proof.
  unfold nan_to_none, round_value, ne_self.
  change (negb (py.round1 f =? py.round1 f)) with (F.isnan (py.round1 f)).
  now rewrite round1_isnan.
Qed.

Lemma shown_ip_isnan u s v : F.isnan (shown_ip u s v) = F.isnan v.
Proof. unfold shown_ip. destruct (decide _); [apply to_field_ip_isnan|reflexivity]. Qed.

Lemma shown_cum_isnan u s v : F.isnan (shown_cum u s v) = F.isnan v.
Proof. unfold shown_cum. destruct (decide _); [apply to_field_cum_isnan|reflexivity]. Qed.

Lemma response_value f :
  nan_to_none <$> (round_value <$> Some (VFloat f))
  = Some (if F.isnan f then VNone else VFloat (py.round1 f)).
Proof. exact (f_equal Some (nan_to_none_round f)). Qed.

Lemma ip_returns (isnumeric_char : N -> bool) (all_wells_ip : gmap str WellIP)
    (wa_num units : str) (d : gmap string value) :
  ip isnumeric_char all_wells_ip wa_num units = Returns d ->
  exists w, all_wells_ip !! wa_num = Some w
            /\ d = nan_to_none <$> wellip_to_dict w units.
Proof.
  unfold ip.
  destruct (negb (Nat.eqb (List.length wa_num) 5) || negb (isnumeric isnumeric_char wa_num));
    [discriminate|].
  destruct (negb (bool_decide (units ∈ [pystr "metric"; pystr "field"]))); [discriminate|].
  destruct (all_wells_ip !! wa_num) as [w|]; [|discriminate].
  intros H. injection H as <-. exists w. split; reflexivity.
Qed.

Lemma response_ip_lookup w units s m :
  (nan_to_none <$> wellip_to_dict w units) !! ip_key units s m
  = Some (if F.isnan (ip_value w s m) then VNone
          else VFloat (py.round1 (shown_ip units s (ip_value w s m)))).
Proof.
  unfold wellip_to_dict, ip_key, shown_ip. rewrite !lookup_fmap.
  destruct (decide (units = pystr "field")) as [_|_].
  - rewrite field_dict_ip, response_value, to_field_ip_isnan. reflexivity.
  - rewrite metric_dict_ip. apply response_value.
Qed.

Lemma response_cum_lookup w units s :
  (nan_to_none <$> wellip_to_dict w units) !! cum_key units s
  = Some (if F.isnan (cum_value w s) then VNone
          else VFloat (py.round1 (shown_cum units s (cum_value w s)))).
Proof.
  unfold wellip_to_dict, cum_key, shown_cum. rewrite !lookup_fmap.
  destruct (decide (units = pystr "field")) as [_|_].
  - rewrite field_dict_cum, response_value, to_field_cum_isnan. reflexivity.
  - rewrite metric_dict_cum. apply response_value.
Qed.

(** X9. In the dictionary of a 200 response, the field of an IP value, of a
    cumulative total or of the cumulative producing days is null exactly
    when the value of the record is NaN; otherwise it is the value of the
    record, converted when the units are "field", rounded to one decimal.
    Neither the conversion nor the rounding turns a number into null or a
    NaN into a number. WA, UWI and the two months are passed through. *)
Theorem response_values (isnumeric_char : N -> bool) (all_wells_ip : gmap str WellIP)
    (wa_num units : str) (d : gmap string value) (w : WellIP) :
  ip isnumeric_char all_wells_ip wa_num units = Returns d ->
  all_wells_ip !! wa_num = Some w ->
  (forall s m,
     d !! ip_key units s m
     = Some (if F.isnan (ip_value w s m) then VNone
             else VFloat (py.round1 (shown_ip units s (ip_value w s m))))) /\
  (forall s,
     d !! cum_key units s
     = Some (if F.isnan (cum_value w s) then VNone
             else VFloat (py.round1 (shown_cum units s (cum_value w s))))) /\
  d !! "Cum prod days"
  = Some (if F.isnan (cum_prod_days w) then VNone
          else VFloat (py.round1 (cum_prod_days w))) /\
  d !! "WA" = Some (VStr (wa w)) /\
  d !! "UWI" = Some (VStr (uwi w)) /\
  d !! "First prod month" = Some (VInt (first_prod_month w)) /\
  d !! "Last prod month" = Some (VInt (last_prod_month w)).
Proof.
  intros H Hw. destruct (ip_returns _ _ _ _ _ H) as (w' & Hw' & ->).
  rewrite Hw in Hw'. injection Hw' as <-.
  split; [intros; apply response_ip_lookup|].
  split; [intros; apply response_cum_lookup|].
  unfold wellip_to_dict.
  destruct (decide (units = pystr "field")) as [_|_].
  - repeat split; rewrite !lookup_fmap.
    change (field_dict w !! "Cum prod days") with (Some (VFloat (cum_prod_days w))).
    apply response_value.
  - repeat split; rewrite !lookup_fmap.
    change (metric_dict w !! "Cum prod days") with (Some (VFloat (cum_prod_days w))).
    apply response_value.
Qed.

Lemma response_values_witness :
  let d := nan_to_none <$> wellip_to_dict small_oil (pystr "field") in
  (forall s m,
     d !! ip_key (pystr "field") s m
     = Some (if F.isnan (ip_value small_oil s m) then VNone
             else VFloat (py.round1 (shown_ip (pystr "field") s (ip_value small_oil s m))))) /\
  (forall s,
     d !! cum_key (pystr "field") s
     = Some (if F.isnan (cum_value small_oil s) then VNone
             else VFloat (py.round1 (shown_cum (pystr "field") s (cum_value small_oil s))))) /\
  d !! "Cum prod days"
  = Some (if F.isnan (cum_prod_days small_oil) then VNone
          else VFloat (py.round1 (cum_prod_days small_oil))) /\
  d !! "WA" = Some (VStr (wa small_oil)) /\
  d !! "UWI" = Some (VStr (uwi small_oil)) /\
  d !! "First prod month" = Some (VInt (first_prod_month small_oil)) /\
  d !! "Last prod month" = Some (VInt (last_prod_month small_oil)).
Proof.
  refine (response_values ascii_digit wells (pystr "39167") (pystr "field")
            (nan_to_none <$> wellip_to_dict small_oil (pystr "field")) small_oil _ _);
    vm_compute; reflexivity.
Defined.

Lemma dom_field_dict w : dom (field_dict w) = field_keys.
Proof.
  unfold field_dict. rewrite !dom_insert_L, dom_empty_L. reflexivity.
Qed.

Lemma dom_metric_dict w : dom (metric_dict w) = metric_keys.
Proof.
  unfold metric_dict. rewrite !dom_insert_L, dom_empty_L. reflexivity.
Qed.

(** X10. The dictionary that wellip_to_dict builds, and the one a 200
    response carries, has exactly the 25 keys of its unit system and no
    other: the field keys for the units "field", the metric keys for every
    other value of units. The two key sets share the five keys without a
    unit and nothing else. *)
Theorem wellip_to_dict_keys (w : WellIP) (units : str) :
  dom (wellip_to_dict w units)
  = (if decide (units = pystr "field") then field_keys else metric_keys) /\
  dom (nan_to_none <$> wellip_to_dict w units) = dom (wellip_to_dict w units) /\
  size (wellip_to_dict w units) = 25%nat /\
  field_keys ∩ metric_keys = list_to_set common_keys.
Proof.
  assert (D : dom (wellip_to_dict w units)
              = if decide (units = pystr "field") then field_keys else metric_keys).
  { unfold wellip_to_dict. rewrite dom_fmap_L.
    destruct (decide _); [apply dom_field_dict|apply dom_metric_dict]. }
  split; [exact D|]. split; [apply dom_fmap_L|].
  split; [|vm_compute; reflexivity].
  rewrite <- size_dom, D. destruct (decide _); vm_compute; reflexivity.
Qed.

(** ** From the table to the fields of the response *)

Lemma served_record (t : list MonthlyRecord) (m : gmap str WellIP) (wa_num : str)
    (w : WellIP) :
  getdata.all_wells_ip t = Ok m ->
  m !! wa_num = Some w ->
  exists r0 rest,
    rows (getdata.well_frame t wa_num) = r0 :: rest /\
    w = (let w0 := step1 r0 (List.last rest r0)
                     (List.last (pd.cumsum (col Prod_days (getdata.well_frame t wa_num)))
                                nan) in
         if gate (getdata.well_frame t wa_num)
         then with_ips (getdata.well_frame t wa_num) w0 else w0).
Proof.
  intros Hm Hw. destruct (all_wells_ip_lookup t) as (m' & Hm' & Hk).
  rewrite Hm in Hm'. injection Hm' as <-. rewrite Hk in Hw.
  destruct (decide (wa_num ∈ List.map Wa_num t)) as [Hin|Hnin].
  - rewrite bool_decide_eq_true_2 in Hw by exact Hin. apply list_elem_of_In in Hin.
    destruct (well_frame_rows t wa_num Hin) as (r0 & rest & Hrows & _).
    exists r0, rest. split; [exact Hrows|].
    rewrite (calculate_well_ip_snd _ r0 rest Hrows) in Hw. now injection Hw as <-.
  - rewrite bool_decide_eq_false_2 in Hw by exact Hnin. discriminate.
Qed.

(** X11. From the production table to the response: served from the mapping
    that the refresh publishes, each IP field of a returned dictionary is
    computed from the rows of the requested well alone. When the gate passes
    for these rows it is the value of the interpolant over the sorted knots
    of the stream at the milestone, divided by the milestone's days,
    converted for "field" units and rounded, or null where that quotient is
    NaN; when the gate fails, and so for every well with a single month in
    the table, all sixteen IP fields are null. *)
Theorem table_to_response (isnumeric_char : N -> bool) (t : list MonthlyRecord)
    (m : gmap str WellIP) (wa_num units : str) (d : gmap string value) :
  getdata.all_wells_ip t = Ok m ->
  ip isnumeric_char m wa_num units = Returns d ->
  (forall s mi,
     d !! ip_key units s mi
     = Some (if gate (getdata.well_frame t wa_num)
             then (let v := at_milestone
                              (interp1d_at
                                 (knots_of (prepare (getdata.well_frame t wa_num)) s)) mi
                            / days mi in
                   if F.isnan v then VNone
                   else VFloat (py.round1 (shown_ip units s v)))
             else VNone)) /\
  ((len (getdata.well_frame t wa_num) < 2)%nat ->
   forall s mi, d !! ip_key units s mi = Some VNone).
Proof.
  intros Hm H. destruct (ip_returns _ _ _ _ _ H) as (w & Hw & ->).
  destruct (served_record t m wa_num w Hm Hw) as (r0 & rest & Hrows & E).
  cbv zeta in E.
  assert (Hip : forall s mi,
            (nan_to_none <$> wellip_to_dict w units) !! ip_key units s mi
            = Some (if gate (getdata.well_frame t wa_num)
                    then (let v := at_milestone
                                     (interp1d_at
                                        (knots_of (prepare (getdata.well_frame t wa_num)) s))
                                     mi / days mi in
                          if F.isnan v then VNone
                          else VFloat (py.round1 (shown_ip units s v)))
                    else VNone)).
  { intros s mi. rewrite response_ip_lookup, E.
    destruct (gate (getdata.well_frame t wa_num)).
    - rewrite ip_value_with_ips. reflexivity.
    - rewrite no_ip_step1. reflexivity. }
  split; [exact Hip|].
  intros Hlen s mi. rewrite Hip.
  unfold gate. destruct (Nat.leb_spec 2 (len (getdata.well_frame t wa_num))); [lia|].
  reflexivity.
Qed.

Lemma table_to_response_witness :
  exists m d,
    getdata.all_wells_ip production_table = Ok m /\
    ip ascii_digit m (pystr "00042") (pystr "field") = Returns d /\
    d !! ip_key (pystr "field") Gas IP90 = Some (VFloat 40.4) /\
    d !! ip_key (pystr "field") Gas IP180 = Some VNone /\
    (forall s mi,
       d !! ip_key (pystr "field") s mi
       = Some (if gate (getdata.well_frame production_table (pystr "00042"))
               then (let v := at_milestone
                                (interp1d_at
                                   (knots_of (prepare (getdata.well_frame production_table
                                                         (pystr "00042"))) s)) mi
                              / days mi in
                     if F.isnan v then VNone
                     else VFloat (py.round1 (shown_ip (pystr "field") s v)))
               else VNone)) /\
    ((len (getdata.well_frame production_table (pystr "00042")) < 2)%nat ->
     forall s mi, d !! ip_key (pystr "field") s mi = Some VNone).
Proof.
  do 2 eexists. split; [vm_compute; reflexivity|]. split; [vm_compute; reflexivity|].
  split; [vm_compute; reflexivity|]. split; [vm_compute; reflexivity|].
  eapply (table_to_response ascii_digit production_table);
    [vm_compute; reflexivity|vm_compute; reflexivity].
Defined.
